(** * Field indices of datacore ([src/index/storage/fields.ts])

    A shallow embedding of the four [FieldIndex] implementations
    ([EverythingFieldIndex], [IdFieldIndex], [SetFieldIndex],
    [BTreeFieldIndex]) together with the properties their specification
    states about them.

    Layout:
    - [JSSet], [JSArray] : the ECMAScript [Set<string>] (insertion ordered)
                           and the two array methods the classes call.
    - [Literals]         : the interface of [expression/literal] they use.
    - [BTree]            : the sorted map of the [sorted-btree] package.
    - [FieldIndex] and one module per class of [fields.ts], with the names
      of the source; sets are held by value there.
    - [Sample]           : a small type of field values to run examples on.
    - [Store]            : the two classes that own sets once more, over a
                           store of [Set] objects, where [all()] hands out a
                           reference; it refines the model by value.
    - [DatacorePlugin]   : the script roots in the plugin settings of
                           [src/main.ts]: saving, restoring, adding and
                           removing them.
    - Properties: sets, the comparator, the sorted map, the indices, then
      the statements of the specification, numbered C1 to C10 as there.
    - Further properties of the code, numbered from X1: the order of the
      traversals, single calls and arbitrary runs, the [Set] objects handed
      out, and the script roots. *)

From stdpp Require Import base list strings gmap sorting.
From Stdlib Require Import ZArith Lia.

Local Open Scope Z_scope.

(** ** Outcome of a method call

    A [void] method either returns or throws; in both cases the receiver is
    left in some state. *)
Inductive outcome (A : Type) : Type :=
| Returned (a : A)
| Threw (a : A).
Arguments Returned {A} a.
Arguments Threw {A} a.

(** ** ECMAScript [Set<string>]

    A [Set] iterates in insertion order and holds no value twice: a list
    without duplicates, oldest element first. *)
Module JSSet.

Abbreviation t := (list string) (only parsing).

(** [new Set()] *)
Definition empty : t := [].

(** [s.has(x)] *)
Definition has (x : string) (s : t) : bool := bool_decide (x ∈ s).

(** [s.add(x)]: appended at the end unless already there. *)
Definition add (x : string) (s : t) : t :=
  if has x s then s else s ++ [x].

(** [s.delete(x)] *)
Definition delete (x : string) (s : t) : t :=
  filter (λ y, y ≠ x) s.

(** [s.size] *)
Definition size (s : t) : Z := Z.of_nat (length s).

(** [new Set(iterable)]: the elements are added one after the other. *)
Definition of_list (l : list string) : t :=
  foldl (λ s x, add x s) empty l.

(** [[...s]] *)
Definition to_list (s : t) : list string := s.

End JSSet.

(** ** [Array.prototype.sort]

    The sort of ECMAScript is stable.  Elements are inserted one after the
    other, each behind the elements that do not compare greater than it. *)
Module JSArray.

Fixpoint sort_insert (cmp : string → string → Z) (x : string) (l : list string)
  : list string :=
  match l with
  | [] => [x]
  | y :: rest =>
      if cmp y x <=? 0 then y :: sort_insert cmp x rest else x :: y :: rest
  end.

(** [arr.sort(cmp)] *)
Definition sort (cmp : string → string → Z) (arr : list string) : list string :=
  foldl (λ sorted x, sort_insert cmp x sorted) [] arr.

(** [arr.flatMap(f)] *)
Definition flatMap {A B : Type} (f : A → list B) (arr : list A) : list B :=
  arr ≫= f.

End JSArray.

(** ** The [Literals] namespace of [expression/literal]

    The module itself is not part of the sources at hand; the indices use
    two of its functions, taken here as an interface: the three-way
    comparison [Literals.compare] and the test [Literals.isString], which is
    paired with the cast [value as string] that follows it in the source.
    A string is a [Literal]; [ofString] is that inclusion. *)
Module Literals.

Class Ops (Literal : Type) : Type := {
  compare : Literal → Literal → Z;
  isString : Literal → option string;
  ofString : string → Literal;
}.

(** The specification describes [compare] as a total order on field
    values.  What the sorted map needs of a comparator is the usual
    contract on the signs of its results. *)
Class Laws (Literal : Type) `{Ops Literal} : Prop := {
  compare_antisym a b : Z.sgn (compare b a) = - Z.sgn (compare a b);
  compare_trans a b c : compare a b < 0 → compare b c < 0 → compare a c < 0;
  compare_compat a b c : compare a b = 0 → Z.sgn (compare a c) = Z.sgn (compare b c);
}.

End Literals.

(** ** The sorted map of [sorted-btree]

    [sorted-btree] is an npm dependency.  Its [BTree<K,V>] keeps its entries
    sorted by the comparator given to the constructor, and finds a key by
    comparing stored keys with it: a negative result moves right, a positive
    one moves left, zero is a hit.  The entries are kept here as the list
    [entries()] enumerates, in ascending key order, and searched from the
    left: on keys in order the first stored key that does not compare lower
    decides, as it does for the bisection of the package. *)
Module BTree.

Abbreviation t K V := (list (K * V)) (only parsing).

Section BTree.
Context {K V : Type} (cmp : K → K → Z).

(** [new BTree([], cmp)] *)
Definition empty : t K V := [].

(** [tree.get(key)] *)
Fixpoint get (tree : t K V) (key : K) : option V :=
  match tree with
  | [] => None
  | (k, v) :: rest =>
      let c := cmp k key in
      if c <? 0 then get rest key
      else if 0 <? c then None
      else Some v
  end.

(** [tree.get(key, defaultValue)] *)
Definition get_or (tree : t K V) (key : K) (defaultValue : V) : V :=
  match get tree key with
  | Some v => v
  | None => defaultValue
  end.

(** [tree.setIfNotPresent(key, value)]: inserts only when no stored key
    compares equal to [key]. *)
Fixpoint setIfNotPresent (tree : t K V) (key : K) (value : V) : t K V :=
  match tree with
  | [] => [(key, value)]
  | (k, v) :: rest =>
      let c := cmp k key in
      if c <? 0 then (k, v) :: setIfNotPresent rest key value
      else if 0 <? c then (key, value) :: (k, v) :: rest
      else (k, v) :: rest
  end.

(** [tree.delete(key)] *)
Fixpoint delete (tree : t K V) (key : K) : t K V :=
  match tree with
  | [] => []
  | (k, v) :: rest =>
      let c := cmp k key in
      if c <? 0 then (k, v) :: delete rest key
      else if 0 <? c then (k, v) :: rest
      else rest
  end.

(** The value stored under a key is an object; a method called on what
    [get] returned changes it in place.  [mutate tree key f] is the tree
    after the object found by [get tree key] went through [f]. *)
Fixpoint mutate (tree : t K V) (key : K) (f : V → V) : t K V :=
  match tree with
  | [] => []
  | (k, v) :: rest =>
      let c := cmp k key in
      if c <? 0 then (k, v) :: mutate rest key f
      else if 0 <? c then (k, v) :: rest
      else (k, f v) :: rest
  end.

(** [tree.entries(undefined, scratch)] *)
Definition entries (tree : t K V) : list (K * V) := tree.

(** [tree.entriesReversed(undefined, scratch)] *)
Definition entriesReversed (tree : t K V) : list (K * V) := reverse tree.

End BTree.
End BTree.

(** ** [interface FieldIndex] *)
Module FieldIndex.

Class Ops (Literal T : Type) : Type := {
  add : string → Literal → T → outcome T;
  delete : string → Literal → T → outcome T;
  all : T → JSSet.t;
  ascending : T → option JSSet.t;
  descending : T → option JSSet.t;
  equals : Literal → T → option JSSet.t;
}.

(** A call of one of the two mutating methods. *)
Inductive call (Literal : Type) : Type :=
| Add (id : string) (value : Literal)
| Delete (id : string) (value : Literal).
Arguments Add {Literal} id value.
Arguments Delete {Literal} id value.

Section Replay.
Context {Literal T : Type} `{Ops Literal T}.

Definition perform (c : call Literal) (ix : T) : outcome T :=
  match c with
  | Add id value => add id value ix
  | Delete id value => delete id value ix
  end.

(** The calls of [calls] made in order on [ix]; a call that throws ends
    the run. *)
Fixpoint replay (calls : list (call Literal)) (ix : T) : outcome T :=
  match calls with
  | [] => Returned ix
  | c :: rest =>
      match perform c ix with
      | Returned ix' => replay rest ix'
      | Threw ix' => Threw ix'
      end
  end.
End Replay.

End FieldIndex.

(** ** [class EverythingFieldIndex] *)
Module EverythingFieldIndex.
Section EverythingFieldIndex.
Context {Literal : Type}.

(** [constructor(public all: () => Set<string>)]: the closure is the
    [all] method itself. *)
Record t : Type := mk {
  all : unit → JSSet.t;
}.

Definition add (id : string) (value : Literal) (ix : t) : outcome t :=
  Returned ix.

Definition delete (id : string) (value : Literal) (ix : t) : outcome t :=
  Returned ix.

Definition equals (value : Literal) (ix : t) : option JSSet.t := None.

Definition ascending (ix : t) : option JSSet.t := None.

Definition descending (ix : t) : option JSSet.t := None.

End EverythingFieldIndex.
End EverythingFieldIndex.

(** ** [class IdFieldIndex] *)
Module IdFieldIndex.
Section IdFieldIndex.
Context {Literal : Type} `{Literals.Ops Literal}.

(** [constructor(public all: () => Set<string>,
                 public lookup: (id: string) => boolean)] *)
Record t : Type := mk {
  all : unit → JSSet.t;
  lookup : string → bool;
}.

Definition add (id : string) (value : Literal) (ix : t) : outcome t :=
  Returned ix.

Definition delete (id : string) (value : Literal) (ix : t) : outcome t :=
  Returned ix.

Definition equals (value : Literal) (ix : t) : option JSSet.t :=
  match Literals.isString value with
  | None => None
  | Some s =>
      if lookup ix s then Some (JSSet.of_list [s]) else None
  end.

Definition ascending (ix : t) : JSSet.t :=
  JSSet.of_list
    (JSArray.sort
       (λ left right,
          Literals.compare (Literals.ofString left) (Literals.ofString right))
       (JSSet.to_list (all ix ()))).

Definition descending (ix : t) : JSSet.t :=
  JSSet.of_list
    (JSArray.sort
       (λ left right,
          Literals.compare (Literals.ofString right) (Literals.ofString left))
       (JSSet.to_list (all ix ()))).

End IdFieldIndex.
End IdFieldIndex.

(** ** [class SetFieldIndex] *)
Module SetFieldIndex.
Section SetFieldIndex.
Context {Literal : Type}.

Record t : Type := mk {
  present : JSSet.t;
}.

(** [constructor()] *)
Definition new : t := {| present := JSSet.empty |}.

Definition add (id : string) (value : Literal) (ix : t) : outcome t :=
  Returned {| present := JSSet.add id (present ix) |}.

Definition delete (id : string) (value : Literal) (ix : t) : outcome t :=
  Returned {| present := JSSet.delete id (present ix) |}.

Definition all (ix : t) : JSSet.t := present ix.

Definition equals (value : Literal) (ix : t) : option JSSet.t := None.

Definition ascending (ix : t) : option JSSet.t := None.

Definition descending (ix : t) : option JSSet.t := None.

End SetFieldIndex.
End SetFieldIndex.

(** ** [class BTreeFieldIndex] *)
Module BTreeFieldIndex.
Section BTreeFieldIndex.
Context {Literal : Type} `{Literals.Ops Literal}.

(** The sets are held by value.  [reusableSortArray], the scratch array of
    the traversals, is written before it is read and left out here; [Store]
    has it. *)
Record t : Type := mk {
  present : JSSet.t;
  values : BTree.t Literal JSSet.t;
}.

(** [constructor()] *)
Definition new : t :=
  {| present := JSSet.empty; values := BTree.empty |}.

(** [private static EMPTY_SET = new Set<string>()] *)
Definition EMPTY_SET : JSSet.t := JSSet.empty.

(** [add(id, value)].  The non-null assertion on [this.values.get(value)]
    is unchecked at run time: were the bucket not found, calling [add] on
    [undefined] would throw after [present] and [values] were updated. *)
Definition add (id : string) (value : Literal) (ix : t) : outcome t :=
  let present' := JSSet.add id (present ix) in
  let values' :=
    BTree.setIfNotPresent Literals.compare (values ix) value JSSet.empty in
  match BTree.get Literals.compare values' value with
  | Some _ =>
      Returned {| present := present';
                  values := BTree.mutate Literals.compare values' value (JSSet.add id) |}
  | None => Threw {| present := present'; values := values' |}
  end.

(** [delete(id, value)] *)
Definition delete (id : string) (value : Literal) (ix : t) : outcome t :=
  let present' := JSSet.delete id (present ix) in
  match BTree.get Literals.compare (values ix) value with
  | Some set =>
      let values' :=
        BTree.mutate Literals.compare (values ix) value (JSSet.delete id) in
      if (JSSet.size (JSSet.delete id set) =? 0)%Z
      then Returned {| present := present';
                       values := BTree.delete Literals.compare values' value |}
      else Returned {| present := present'; values := values' |}
  | None =>
      Returned {| present := present';
                  values := BTree.delete Literals.compare (values ix) value |}
  end.

(** [all()] *)
Definition all (ix : t) : JSSet.t := present ix.

(** [equals(value)] *)
Definition equals (value : Literal) (ix : t) : option JSSet.t :=
  Some (BTree.get_or Literals.compare (values ix) value EMPTY_SET).

(** [treeValuesIter(entries)]: every entry [[key, set]] the iterator
    yields is replaced by its second component. *)
Definition treeValuesIter (entries : list (Literal * JSSet.t)) : list JSSet.t :=
  snd <$> entries.

(** [ascending()] *)
Definition ascending (ix : t) : JSSet.t :=
  let entriesIter := BTree.entries (values ix) in
  let sortedValuesIter := treeValuesIter entriesIter in
  JSSet.of_list (JSArray.flatMap JSSet.to_list sortedValuesIter).

(** [descending()] *)
Definition descending (ix : t) : JSSet.t :=
  let entriesIter := BTree.entriesReversed (values ix) in
  let sortedValuesIter := treeValuesIter entriesIter in
  JSSet.of_list (JSArray.flatMap JSSet.to_list sortedValuesIter).

End BTreeFieldIndex.
Arguments t : clear implicits.
End BTreeFieldIndex.

(** ** The four classes implement [FieldIndex] *)
Section Implements.
Context {Literal : Type} `{Literals.Ops Literal}.

#[export] Instance EverythingFieldIndex_implements
  : FieldIndex.Ops Literal EverythingFieldIndex.t := {|
  FieldIndex.add := EverythingFieldIndex.add;
  FieldIndex.delete := EverythingFieldIndex.delete;
  FieldIndex.all ix := EverythingFieldIndex.all ix ();
  FieldIndex.ascending := EverythingFieldIndex.ascending;
  FieldIndex.descending := EverythingFieldIndex.descending;
  FieldIndex.equals := EverythingFieldIndex.equals;
|}.

#[export] Instance IdFieldIndex_implements
  : FieldIndex.Ops Literal IdFieldIndex.t := {|
  FieldIndex.add := IdFieldIndex.add;
  FieldIndex.delete := IdFieldIndex.delete;
  FieldIndex.all ix := IdFieldIndex.all ix ();
  FieldIndex.ascending ix := Some (IdFieldIndex.ascending ix);
  FieldIndex.descending ix := Some (IdFieldIndex.descending ix);
  FieldIndex.equals := IdFieldIndex.equals;
|}.

#[export] Instance SetFieldIndex_implements
  : FieldIndex.Ops Literal SetFieldIndex.t := {|
  FieldIndex.add := SetFieldIndex.add;
  FieldIndex.delete := SetFieldIndex.delete;
  FieldIndex.all := SetFieldIndex.all;
  FieldIndex.ascending := SetFieldIndex.ascending;
  FieldIndex.descending := SetFieldIndex.descending;
  FieldIndex.equals := SetFieldIndex.equals;
|}.

#[export] Instance BTreeFieldIndex_implements
  : FieldIndex.Ops Literal (BTreeFieldIndex.t Literal) := {|
  FieldIndex.add := BTreeFieldIndex.add;
  FieldIndex.delete := BTreeFieldIndex.delete;
  FieldIndex.all := BTreeFieldIndex.all;
  FieldIndex.ascending ix := Some (BTreeFieldIndex.ascending ix);
  FieldIndex.descending ix := Some (BTreeFieldIndex.descending ix);
  FieldIndex.equals := BTreeFieldIndex.equals;
|}.
End Implements.

(** ** A sample of field values *)
Module Sample.

(** Modelled from the spec: [Literal] lives in [expression/literal], which
    is not among the sources.  The sample keeps the scalar kinds null,
    boolean, number (integers) and string of the tagged union the
    specification describes.  It serves to run the indices on concrete
    calls. *)
Inductive Literal : Type :=
| LNull
| LBoolean (b : bool)
| LNumber (n : Z)
| LString (s : string).

Definition kind (l : Literal) : Z :=
  match l with
  | LNull => 0
  | LBoolean _ => 1
  | LNumber _ => 2
  | LString _ => 3
  end.

Definition sign_of (c : comparison) : Z :=
  match c with
  | Lt => -1
  | Eq => 0
  | Gt => 1
  end.

(** Modelled from the spec: [Literals.compare] on the sample; null sorts
    first, kinds order by a fixed precedence, numbers compare numerically
    and strings lexicographically. *)
Definition compare (a b : Literal) : Z :=
  match a, b with
  | LBoolean x, LBoolean y => sign_of (Z.b2z x ?= Z.b2z y)
  | LNumber x, LNumber y => sign_of (x ?= y)
  | LString x, LString y => sign_of (String.compare x y)
  | _, _ => kind a - kind b
  end.

Definition isString (l : Literal) : option string :=
  match l with
  | LString s => Some s
  | _ => None
  end.

#[export] Instance ops : Literals.Ops Literal := {|
  Literals.compare := compare;
  Literals.isString := isString;
  Literals.ofString := LString;
|}.

End Sample.

(** ** Shapes of the sorted map and of the index

    What the constructor and the two mutating methods maintain, and what
    [values[v]] denotes. *)
Section Shape.
Context {Literal : Type} `{Literals.Ops Literal}.

(** The keys ascend strictly along the entries. *)
Fixpoint sorted {V : Type} (tree : BTree.t Literal V) : Prop :=
  match tree with
  | [] => True
  | (k, _) :: rest =>
      Forall (λ e, Literals.compare k e.1 < 0) rest ∧ sorted rest
  end.

(** [values[v]]: the ids of the bucket stored under [v], none when the map
    has no such bucket. *)
Definition bucket (ix : BTreeFieldIndex.t Literal) (value : Literal) : list string :=
  BTree.get_or Literals.compare (BTreeFieldIndex.values ix) value [].

(** The buckets in ascending key order. *)
Definition buckets (ix : BTreeFieldIndex.t Literal) : list JSSet.t :=
  snd <$> BTreeFieldIndex.values ix.

(** The ids of all buckets, bucket after bucket. *)
Definition flattened (sets : list JSSet.t) : list string :=
  JSArray.flatMap JSSet.to_list sets.

(** An id sits in some bucket. *)
Definition member (id : string) (ix : BTreeFieldIndex.t Literal) : Prop :=
  ∃ set, set ∈ buckets ix ∧ id ∈ set.

(** In how many buckets an id sits. *)
Definition occurrences (id : string) (ix : BTreeFieldIndex.t Literal) : nat :=
  length (filter (λ set, id ∈ set) (buckets ix)).

Record well_formed (ix : BTreeFieldIndex.t Literal) : Prop := {
  wf_sorted : sorted (BTreeFieldIndex.values ix);
  wf_nonempty : Forall (λ set, set ≠ []) (buckets ix);
  wf_present : NoDup (BTreeFieldIndex.present ix);
  wf_buckets : Forall (λ set : JSSet.t, NoDup set) (buckets ix);
}.

End Shape.

(** ** Histories of calls *)
Section History.
Context {Literal : Type} `{Literals.Ops Literal}.
Implicit Types (calls : list (FieldIndex.call Literal)) (id : string).

Definition is_add_of id (c : FieldIndex.call Literal) : bool :=
  match c with
  | FieldIndex.Add id' _ => bool_decide (id' = id)
  | FieldIndex.Delete _ _ => false
  end.

Definition is_delete_of id (c : FieldIndex.call Literal) : bool :=
  match c with
  | FieldIndex.Add _ _ => false
  | FieldIndex.Delete id' _ => bool_decide (id' = id)
  end.

Definition is_add_under (value : Literal) (c : FieldIndex.call Literal) : bool :=
  match c with
  | FieldIndex.Add _ v => Literals.compare v value =? 0
  | FieldIndex.Delete _ _ => false
  end.

(** No call of the run added an id under a value that compares equal to
    [value]. *)
Definition never_indexed (value : Literal) calls : Prop :=
  Forall (λ c, is_add_under value c = false) calls.

(** No call of the run added the pair of [id] and a value that compares
    equal to [value]. *)
Definition pair_never_added id (value : Literal) calls : Prop :=
  Forall (λ c, is_add_of id c && is_add_under value c = false) calls.

(** No call of the run added [id], under whatever value. *)
Definition never_added id calls : Prop :=
  Forall (λ c, is_add_of id c = false) calls.

(** What the calls of a run do to a [present] set. *)
Definition present_after calls (present : JSSet.t) : JSSet.t :=
  foldl
    (λ present c,
       match c with
       | FieldIndex.Add id _ => JSSet.add id present
       | FieldIndex.Delete id _ => JSSet.delete id present
       end)
    present calls.

(** Whether the latest call about [id] is an [add]; [before] answers for a
    run without any call about [id]. *)
Fixpoint added_last id calls (before : bool) : bool :=
  match calls with
  | [] => before
  | FieldIndex.Add id' _ :: rest =>
      added_last id rest (if decide (id' = id) then true else before)
  | FieldIndex.Delete id' _ :: rest =>
      added_last id rest (if decide (id' = id) then false else before)
  end.

(** How often the run adds, and deletes, [id]. *)
Definition add_count id calls : Z :=
  Z.of_nat (length (filter (λ c, is_add_of id c = true) calls)).

Definition delete_count id calls : Z :=
  Z.of_nat (length (filter (λ c, is_delete_of id c = true) calls)).

(** A run alternates when it adds only ids that are absent and deletes only
    ids that are there; [alternates cur calls] is the set of ids left by
    such a run started with the ids [cur]. *)
Fixpoint alternates (cur : gset string) calls : option (gset string) :=
  match calls with
  | [] => Some cur
  | FieldIndex.Add id _ :: rest =>
      if decide (id ∈ cur) then None else alternates ({[id]} ∪ cur) rest
  | FieldIndex.Delete id _ :: rest =>
      if decide (id ∈ cur) then alternates (cur ∖ {[id]}) rest else None
  end.

(** The lifecycle of the specification: a document gets a value for the
    field ([add]), and before it gets another one the pair it has is
    deleted.  [lifecycle cur calls] is the current value of every id after
    such a run started from the current values [cur].  A run leaves the
    lifecycle when it adds an id under a value other than the one it has, or
    deletes an id under a value other than the one it has; adding the pair
    an id has once more, and deleting an id that has no value, stay within
    it. *)
Fixpoint lifecycle (cur : gmap string Literal) calls : option (gmap string Literal) :=
  match calls with
  | [] => Some cur
  | FieldIndex.Add id value :: rest =>
      match cur !! id with
      | None => lifecycle (<[id := value]> cur) rest
      | Some old =>
          if Literals.compare old value =? 0 then lifecycle cur rest else None
      end
  | FieldIndex.Delete id value :: rest =>
      match cur !! id with
      | Some old =>
          if Literals.compare old value =? 0
          then lifecycle (base.delete id cur) rest
          else None
      | None => lifecycle cur rest
      end
  end.

(** The invariant the specification states for the ordered value index,
    relative to the current value [cur] of every id. *)
Record invariant (cur : gmap string Literal) (ix : BTreeFieldIndex.t Literal) : Prop := {
  inv_bucket id value :
    id ∈ bucket ix value ↔
    ∃ current, cur !! id = Some current ∧ Literals.compare current value = 0;
  inv_present id :
    id ∈ BTreeFieldIndex.present ix ↔ occurrences id ix = 1%nat;
  inv_nonempty :
    Forall (λ set, set ≠ []) (buckets ix);
}.

(** What a run that follows the lifecycle maintains between the index and
    the current values: [present] holds the ids that have a value, and the
    bucket of a value holds the ids whose current value compares equal to
    it. *)
Record tracks (cur : gmap string Literal) (ix : BTreeFieldIndex.t Literal) : Prop := {
  tracks_well_formed : well_formed ix;
  tracks_present id :
    id ∈ BTreeFieldIndex.present ix ↔ is_Some (cur !! id);
  tracks_bucket id value :
    id ∈ bucket ix value ↔
    ∃ current, cur !! id = Some current ∧ Literals.compare current value = 0;
}.

End History.

(** ** The classes over a store of [Set] objects

    [all()] and [equals()] return the [Set] object the index holds, not a
    copy of it.  Here the [Set] objects live in a store, a reference is the
    position at which its object was allocated, and the two classes that
    own sets keep references. *)
Module Store.

Abbreviation ref := nat (only parsing).

(** The store: the contents of every [Set] allocated so far. *)
Abbreviation t := (list (list string)) (only parsing).

(** The contents of the object behind a reference. *)
Definition deref (σ : t) (r : ref) : JSSet.t := default [] (σ !! r).

(** [new Set()] *)
Definition new_Set (σ : t) : ref * t := (length σ, σ ++ [JSSet.empty]).

(** [new Set(iterable)] *)
Definition new_Set_of (l : list string) (σ : t) : ref * t :=
  (length σ, σ ++ [JSSet.of_list l]).

(** [r.add(x)] *)
Definition Set_add (r : ref) (x : string) (σ : t) : t :=
  alter (JSSet.add x) r σ.

(** [r.delete(x)] *)
Definition Set_delete (r : ref) (x : string) (σ : t) : t :=
  alter (JSSet.delete x) r σ.

(** [r.size] *)
Definition Set_size (r : ref) (σ : t) : Z := JSSet.size (deref σ r).

(** [class SetFieldIndex] *)
Module SetFieldIndex.
Section SetFieldIndex.
Context {Literal : Type}.

Record t : Type := mk {
  present : ref;
}.

Definition new (σ : Store.t) : t * Store.t :=
  let '(set, σ) := new_Set σ in
  ({| present := set |}, σ).

Definition add (id : string) (value : Literal) (ix : t) (σ : Store.t)
  : outcome (t * Store.t) :=
  Returned (ix, Set_add (present ix) id σ).

Definition delete (id : string) (value : Literal) (ix : t) (σ : Store.t)
  : outcome (t * Store.t) :=
  Returned (ix, Set_delete (present ix) id σ).

Definition all (ix : t) : ref := present ix.

End SetFieldIndex.
End SetFieldIndex.

(** [class BTreeFieldIndex] *)
Module BTreeFieldIndex.
Section BTreeFieldIndex.
Context {Literal : Type} `{Literals.Ops Literal}.

(** [reusableSortArray] is [[]] until a traversal leaves the last entry
    [[key, set]] it visited in it. *)
Record t : Type := mk {
  present : ref;
  values : BTree.t Literal ref;
  reusableSortArray : option (Literal * ref);
}.

(** [private static EMPTY_SET = new Set<string>()], allocated once when
    the class is initialised: the first object of [initial]. *)
Definition EMPTY_SET : ref := 0%nat.

Definition initial : Store.t := [JSSet.empty].

Definition new (σ : Store.t) : t * Store.t :=
  let '(set, σ) := new_Set σ in
  ({| present := set; values := BTree.empty; reusableSortArray := None |}, σ).

Definition add (id : string) (value : Literal) (ix : t) (σ : Store.t)
  : outcome (t * Store.t) :=
  let σ := Set_add (present ix) id σ in
  let '(fresh, σ) := new_Set σ in
  let values' := BTree.setIfNotPresent Literals.compare (values ix) value fresh in
  let ix' := {| present := present ix; values := values';
                reusableSortArray := reusableSortArray ix |} in
  match BTree.get Literals.compare values' value with
  | Some set => Returned (ix', Set_add set id σ)
  | None => Threw (ix', σ)
  end.

Definition delete (id : string) (value : Literal) (ix : t) (σ : Store.t)
  : outcome (t * Store.t) :=
  let σ := Set_delete (present ix) id σ in
  let removed :=
    {| present := present ix;
       values := BTree.delete Literals.compare (values ix) value;
       reusableSortArray := reusableSortArray ix |} in
  match BTree.get Literals.compare (values ix) value with
  | Some set =>
      let σ := Set_delete set id σ in
      if Set_size set σ =? 0 then Returned (removed, σ) else Returned (ix, σ)
  | None => Returned (removed, σ)
  end.

Definition all (ix : t) : ref := present ix.

Definition equals (value : Literal) (ix : t) : option ref :=
  Some (BTree.get_or Literals.compare (values ix) value EMPTY_SET).

Definition treeValuesIter (entries : list (Literal * ref)) : list ref :=
  snd <$> entries.

(** A traversal with the scratch array writes every entry it yields into
    it. *)
Definition scratch_after (entries : list (Literal * ref))
    (scratch : option (Literal * ref)) : option (Literal * ref) :=
  match last entries with
  | Some entry => Some entry
  | None => scratch
  end.

Definition ascending (ix : t) (σ : Store.t) : ref * t * Store.t :=
  let entriesIter := BTree.entries (values ix) in
  let sortedValuesIter := treeValuesIter entriesIter in
  let '(result, σ') :=
    new_Set_of (JSArray.flatMap (deref σ) sortedValuesIter) σ in
  (result,
   {| present := present ix; values := values ix;
      reusableSortArray := scratch_after entriesIter (reusableSortArray ix) |},
   σ').

Definition descending (ix : t) (σ : Store.t) : ref * t * Store.t :=
  let entriesIter := BTree.entriesReversed (values ix) in
  let sortedValuesIter := treeValuesIter entriesIter in
  let '(result, σ') :=
    new_Set_of (JSArray.flatMap (deref σ) sortedValuesIter) σ in
  (result,
   {| present := present ix; values := values ix;
      reusableSortArray := scratch_after entriesIter (reusableSortArray ix) |},
   σ').

(** The calls of a run made in order; a call that throws ends the run. *)
Fixpoint replay (calls : list (FieldIndex.call Literal)) (ix : t) (σ : Store.t)
  : outcome (t * Store.t) :=
  match calls with
  | [] => Returned (ix, σ)
  | FieldIndex.Add id value :: rest =>
      match add id value ix σ with
      | Returned (ix, σ) => replay rest ix σ
      | Threw s => Threw s
      end
  | FieldIndex.Delete id value :: rest =>
      match delete id value ix σ with
      | Returned (ix, σ) => replay rest ix σ
      | Threw s => Threw s
      end
  end.

End BTreeFieldIndex.
Arguments t : clear implicits.
End BTreeFieldIndex.

End Store.

(** ** Concrete runs on the sample values *)
Module Scenario.
Import Sample.
Local Open Scope string_scope.

(** [add("p1", 5)], [add("p2", 3)], [add("p3", 5)] *)
Definition calls : list (FieldIndex.call Literal) :=
  [FieldIndex.Add "p1" (LNumber 5); FieldIndex.Add "p2" (LNumber 3);
   FieldIndex.Add "p3" (LNumber 5)].

(** The index after [calls]. *)
Definition index : BTreeFieldIndex.t Literal :=
  {| BTreeFieldIndex.present := ["p1"; "p2"; "p3"];
     BTreeFieldIndex.values := [(LNumber 3, ["p2"]); (LNumber 5, ["p1"; "p3"])] |}.

(** One id under one value. *)
Definition one_pair : BTreeFieldIndex.t Literal :=
  {| BTreeFieldIndex.present := ["p1"];
     BTreeFieldIndex.values := [(LNumber 5, ["p1"])] |}.

(** The same id added twice, then deleted once. *)
Definition added_twice : list (FieldIndex.call Literal) :=
  [FieldIndex.Add "p1" (LNumber 5); FieldIndex.Add "p1" (LNumber 5);
   FieldIndex.Delete "p1" (LNumber 5)].

(** The current values after [calls]. *)
Definition current : gmap string Literal :=
  <["p3" := LNumber 5]> (<["p2" := LNumber 3]> (<["p1" := LNumber 5]> ∅)).

(** [add("p1", 5)], [add("p2", 3)] *)
Definition two_calls : list (FieldIndex.call Literal) :=
  [FieldIndex.Add "p1" (LNumber 5); FieldIndex.Add "p2" (LNumber 3)].

(** The current values after [two_calls]. *)
Definition two_current : gmap string Literal :=
  <["p2" := LNumber 3]> (<["p1" := LNumber 5]> ∅).

(** The index after [two_calls]: two ids under two values. *)
Definition two_pairs : BTreeFieldIndex.t Literal :=
  {| BTreeFieldIndex.present := ["p1"; "p2"];
     BTreeFieldIndex.values := [(LNumber 3, ["p2"]); (LNumber 5, ["p1"])] |}.

End Scenario.

(** ** The index of values behind an index of references *)
Section Contents.
Context {Literal : Type} `{Literals.Ops Literal}.

Definition outcome_map {A B : Type} (f : A → B) (o : outcome A) : outcome B :=
  match o with
  | Returned a => Returned (f a)
  | Threw a => Threw (f a)
  end.

(** An entry of a sorted map with its value changed. *)
Definition on_value {V W : Type} (f : V → W) (entry : Literal * V) : Literal * W :=
  (entry.1, f entry.2).

(** Every reference replaced by the contents of its object. *)
Definition contents (state : Store.BTreeFieldIndex.t Literal * Store.t)
  : BTreeFieldIndex.t Literal :=
  let '(ix, σ) := state in
  {| BTreeFieldIndex.present := Store.deref σ (Store.BTreeFieldIndex.present ix);
     BTreeFieldIndex.values :=
       on_value (Store.deref σ) <$> Store.BTreeFieldIndex.values ix |}.

Definition SetFieldIndex_contents (state : Store.SetFieldIndex.t * Store.t)
  : SetFieldIndex.t :=
  let '(ix, σ) := state in
  {| SetFieldIndex.present := Store.deref σ (Store.SetFieldIndex.present ix) |}.

(** The objects of an index are its own: [present], the buckets and
    [EMPTY_SET] are allocated, different objects, and [EMPTY_SET] is
    empty. *)
Record separated (ix : Store.BTreeFieldIndex.t Literal) (σ : Store.t) : Prop := {
  sep_present : (Store.BTreeFieldIndex.present ix < length σ)%nat;
  sep_buckets :
    Forall (λ r, r < length σ)%nat (Store.BTreeFieldIndex.values ix).*2;
  sep_distinct : NoDup (Store.BTreeFieldIndex.values ix).*2;
  sep_present_bucket :
    Store.BTreeFieldIndex.present ix ∉ (Store.BTreeFieldIndex.values ix).*2;
  sep_empty_present :
    Store.BTreeFieldIndex.EMPTY_SET ≠ Store.BTreeFieldIndex.present ix;
  sep_empty_bucket :
    Store.BTreeFieldIndex.EMPTY_SET ∉ (Store.BTreeFieldIndex.values ix).*2;
  sep_empty : Store.deref σ Store.BTreeFieldIndex.EMPTY_SET = [];
}.

End Contents.

(** ** Orders and histories for the further properties *)
Section Further.
Context {Literal : Type} `{Literals.Ops Literal}.
Implicit Types (calls : list (FieldIndex.call Literal)) (id : string).

(** [a] may come before [b] in a traversal by ascending value: both have a
    current value, and the one of [a] does not compare greater. *)
Definition ascends (cur : gmap string Literal) (a b : string) : Prop :=
  ∃ va vb,
    cur !! a = Some va ∧ cur !! b = Some vb ∧ Literals.compare va vb <= 0.

(** Whether the latest call about the pair of [id] and a value that compares
    equal to [value] is an [add]; [before] answers for a run without such a
    call. *)
Fixpoint pair_added_last id (value : Literal) calls (before : bool) : bool :=
  match calls with
  | [] => before
  | FieldIndex.Add id' v :: rest =>
      pair_added_last id value rest
        (if bool_decide (id' = id) && (Literals.compare v value =? 0)
         then true else before)
  | FieldIndex.Delete id' v :: rest =>
      pair_added_last id value rest
        (if bool_decide (id' = id) && (Literals.compare v value =? 0)
         then false else before)
  end.

End Further.

(** ** The plugin settings of [main.ts]

    [DatacorePlugin] keeps its settings in an object whose [scriptRoots]
    property is a [Set<string>]; [saveData] hands the persistence layer of
    the host a copy in which every [Set] is an array.  The type [Settings]
    and [DEFAULT_SETTINGS] are not part of the sources at hand: the other
    properties of the object are kept as a map from property names to
    values, [DEFAULT_SETTINGS] is a parameter of [onload_settings], and the
    host's [loadData] is taken to return what [saveData] was last given. *)
Module DatacorePlugin.
Section DatacorePlugin.
Context {Plain : Type}.
Local Open Scope string_scope.

(** A property value: a [Set] of strings, an array of strings, or a value
    that is neither and cannot be iterated (a number, a boolean, [null]). *)
Inductive value : Type :=
  | SetValue (set : JSSet.t)
  | ArrayValue (arr : list string)
  | PlainValue (val : Plain).

Record Settings : Type := mkSettings {
  scriptRoots : JSSet.t;
  others : gmap string value;
}.

(** [Object.entries(settings)] as a map from keys to values. *)
Definition entries (settings : Settings) : gmap string value :=
  <["scriptRoots" := SetValue (scriptRoots settings)]> (others settings).

(** The plugin: its settings, and the object last given to
    [super.saveData]. *)
Record t : Type := mk {
  settings : Settings;
  data : gmap string value;
}.

(** The object [saveData] builds: [Array.from(val)] for a [Set], [val]
    itself otherwise. *)
Definition serialized (data : gmap string value) : gmap string value :=
  (λ val,
     match val with
     | SetValue set => ArrayValue (JSSet.to_list set)
     | _ => val
     end) <$> data.

Definition saveData (d : gmap string value) (plugin : t) : t :=
  {| settings := settings plugin; data := serialized d |}.

Definition addScriptRootsToSettings (newRoots : list string) (plugin : t) : t :=
  let settings' :=
    {| scriptRoots :=
         foldl (λ roots newRoot, JSSet.add newRoot roots)
           (scriptRoots (settings plugin)) newRoots;
       others := others (settings plugin) |} in
  saveData (entries settings') {| settings := settings'; data := data plugin |}.

Definition removeScriptRoots (rootsToRemove : list string) (plugin : t) : t :=
  let settings' :=
    {| scriptRoots :=
         foldl (λ roots root, JSSet.delete root roots)
           (scriptRoots (settings plugin)) rootsToRemove;
       others := others (settings plugin) |} in
  saveData (entries settings') {| settings := settings'; data := data plugin |}.

(** The first two statements of [onload] that touch the settings:
    [Object.assign({}, DEFAULT_SETTINGS, loaded ?? {})], then
    [scriptRoots = new Set([...scriptRoots])]; spreading a value that is not
    iterable throws. *)
Definition onload_settings (DEFAULT_SETTINGS : gmap string value)
    (loaded : option (gmap string value)) : option Settings :=
  let assigned := default ∅ loaded ∪ DEFAULT_SETTINGS in
  match assigned !! "scriptRoots" with
  | Some (SetValue set) =>
      Some {| scriptRoots := JSSet.of_list (JSSet.to_list set);
              others := delete "scriptRoots" assigned |}
  | Some (ArrayValue arr) =>
      Some {| scriptRoots := JSSet.of_list arr;
              others := delete "scriptRoots" assigned |}
  | _ => None
  end.

(** What [vault.adapter.stat(path)] resolves to: [null], or a [Stat] whose
    [type] is ["file"] or ["folder"]. *)
Inductive StatType : Type := file | folder.

(** [GeneralSettingsTab.handleNewScriptRoot(component?)], with the value of
    the search component when one is given and the answers of
    [vault.adapter.stat]; the redrawing of the tab is left out. *)
Definition handleNewScriptRoot (stat : string → option StatType)
    (component : option string) (plugin : t) : t :=
  match component with
  | None => plugin
  | Some searchValue =>
      if bool_decide (searchValue = EmptyString) then plugin
      else if JSSet.has searchValue (scriptRoots (settings plugin)) then plugin
      else
        match stat searchValue with
        | Some folder => addScriptRootsToSettings [searchValue] plugin
        | _ => plugin
        end
  end.

End DatacorePlugin.
Arguments value : clear implicits.
Arguments Settings : clear implicits.
Arguments t : clear implicits.
End DatacorePlugin.

(** ** Concrete states for the further properties *)
Module Samples.
Import Sample.
Local Open Scope string_scope.

(** The objects after [add("p1", 5)] on a fresh class: [EMPTY_SET],
    [present], the [Set] made for the call, which is the bucket of [5]. *)
Definition store : list (list string) := [[]; ["p1"]; ["p1"]].

Definition index : Store.BTreeFieldIndex.t Literal :=
  {| Store.BTreeFieldIndex.present := 1%nat;
     Store.BTreeFieldIndex.values := [(LNumber 5, 2%nat)];
     Store.BTreeFieldIndex.reusableSortArray := None |}.

(** [add("p1", 5)], [delete("p1", 3)]: a delete under another value than
    the one the id has. *)
Definition other_value_calls : list (FieldIndex.call Literal) :=
  [FieldIndex.Add "p1" (LNumber 5); FieldIndex.Delete "p1" (LNumber 3)].

(** The index after [other_value_calls]. *)
Definition orphaned : BTreeFieldIndex.t Literal :=
  {| BTreeFieldIndex.present := [];
     BTreeFieldIndex.values := [(LNumber 5, ["p1"])] |}.

(** A comparator that breaks the contract: under it no value compares
    equal to itself. *)
Definition irreflexive : Literals.Ops unit :=
  {| Literals.compare _ _ := 1;
     Literals.isString _ := None;
     Literals.ofString _ := () |}.

(** An identity index over two ids. *)
Definition ids : IdFieldIndex.t :=
  IdFieldIndex.mk (λ _, ["b"; "a"]) (λ id, bool_decide (id ∈ ["b"; "a"])).

(** A plugin with one script root and nothing saved. *)
Definition plugin : DatacorePlugin.t unit :=
  {| DatacorePlugin.settings :=
       {| DatacorePlugin.scriptRoots := ["scripts"];
          DatacorePlugin.others := ∅ |};
     DatacorePlugin.data := ∅ |}.

End Samples.

(** ** The lifecycle as the invariant claim words it *)
Section Discipline.
Context {Literal : Type} `{Literals.Ops Literal}.

(** The discipline in the words of the claim about the invariant: the old
    pair of an id is deleted before a new value is added for the same id.
    [old_pair_deleted_first cur calls] is the pair every id still has after
    such a run started from the pairs [cur].  A run breaks the discipline
    only by adding an id under a new value while it still has its old pair.
    Unlike [lifecycle], these words do not forbid a [delete] of an id under
    a value other than the one it has; such a call deletes no pair. *)
Fixpoint old_pair_deleted_first (cur : gmap string Literal)
    (calls : list (FieldIndex.call Literal)) : option (gmap string Literal) :=
  match calls with
  | [] => Some cur
  | FieldIndex.Add id value :: rest =>
      match cur !! id with
      | None => old_pair_deleted_first (<[id := value]> cur) rest
      | Some old =>
          if Literals.compare old value =? 0
          then old_pair_deleted_first cur rest
          else None
      end
  | FieldIndex.Delete id value :: rest =>
      match cur !! id with
      | Some old =>
          if Literals.compare old value =? 0
          then old_pair_deleted_first (base.delete id cur) rest
          else old_pair_deleted_first cur rest
      | None => old_pair_deleted_first cur rest
      end
  end.

End Discipline.

(** * Properties *)

(** ** Sets *)
Section JSSet_facts.
Implicit Types (x y : string) (s : JSSet.t) (l : list string).

Lemma JSSet_elem_of_add x y s : y ∈ JSSet.add x s ↔ y = x ∨ y ∈ s.
Proof.
  unfold JSSet.add, JSSet.has. case_bool_decide as Hx.
  - split; [auto | intros [-> | ?]; done].
  - rewrite elem_of_app, list_elem_of_singleton. tauto.
Qed.

Lemma JSSet_elem_of_delete x y s : y ∈ JSSet.delete x s ↔ y ∈ s ∧ y ≠ x.
Proof. unfold JSSet.delete. rewrite list_elem_of_filter. tauto. Qed.

Lemma JSSet_NoDup_add x s : NoDup s → NoDup (JSSet.add x s).
Proof.
  intros Hs. unfold JSSet.add, JSSet.has. case_bool_decide as Hx; [done|].
  apply NoDup_app. split_and!; [done | | apply NoDup_singleton].
  intros y Hy ->%list_elem_of_singleton. done.
Qed.

Lemma JSSet_NoDup_delete x s : NoDup s → NoDup (JSSet.delete x s).
Proof. apply NoDup_filter. Qed.

Lemma JSSet_add_present x s : x ∈ s → JSSet.add x s = s.
Proof. intros Hx. unfold JSSet.add, JSSet.has. by rewrite bool_decide_eq_true_2. Qed.

Lemma JSSet_add_absent x s : x ∉ s → JSSet.add x s = s ++ [x].
Proof. intros Hx. unfold JSSet.add, JSSet.has. by rewrite bool_decide_eq_false_2. Qed.

Lemma JSSet_delete_absent x s : x ∉ s → JSSet.delete x s = s.
Proof.
  induction s as [|y s IH]; [done|].
  rewrite not_elem_of_cons. intros [Hxy Hs]. unfold JSSet.delete in *.
  rewrite filter_cons_True by congruence. by rewrite IH.
Qed.

Lemma JSSet_delete_app x s1 s2 :
  JSSet.delete x (s1 ++ s2) = JSSet.delete x s1 ++ JSSet.delete x s2.
Proof. apply filter_app. Qed.

Lemma JSSet_delete_add x s : x ∉ s → JSSet.delete x (JSSet.add x s) = s.
Proof.
  intros Hx. rewrite JSSet_add_absent, JSSet_delete_app by done.
  rewrite JSSet_delete_absent by done.
  unfold JSSet.delete. rewrite filter_cons_False by naive_solver.
  by rewrite filter_nil, app_nil_r.
Qed.

Lemma JSSet_delete_add_same x s : JSSet.delete x (JSSet.add x s) = JSSet.delete x s.
Proof.
  destruct (decide (x ∈ s)) as [Hx|Hx].
  - by rewrite JSSet_add_present.
  - by rewrite JSSet_delete_add, JSSet_delete_absent.
Qed.

Lemma JSSet_size_0 s : JSSet.size s = 0 ↔ s = [].
Proof. unfold JSSet.size. destruct s; simpl; split; (done || lia). Qed.

(** [new Set(iterable)] started from a set under construction. *)
Lemma JSSet_elem_of_foldl_add l s y :
  y ∈ foldl (λ s x, JSSet.add x s) s l ↔ y ∈ s ∨ y ∈ l.
Proof.
  revert s. induction l as [|x l IH]; intros s; simpl.
  - rewrite elem_of_nil. tauto.
  - rewrite IH, JSSet_elem_of_add, elem_of_cons. tauto.
Qed.

Lemma JSSet_NoDup_foldl_add l s :
  NoDup s → NoDup (foldl (λ s x, JSSet.add x s) s l).
Proof.
  revert s. induction l as [|x l IH]; intros s Hs; simpl; [done|].
  by apply IH, JSSet_NoDup_add.
Qed.

Lemma JSSet_foldl_add_NoDup l s :
  NoDup (s ++ l) → foldl (λ s x, JSSet.add x s) s l = s ++ l.
Proof.
  revert s. induction l as [|x l IH]; intros s Hs; simpl.
  - by rewrite app_nil_r.
  - assert (x ∉ s) as Hx.
    { apply NoDup_app in Hs as (_ & Hs & _). intros ?. eapply Hs; [done|]. left. }
    rewrite JSSet_add_absent by done.
    rewrite IH; rewrite <- (assoc_L (++)); done.
Qed.

Lemma JSSet_elem_of_of_list l y : y ∈ JSSet.of_list l ↔ y ∈ l.
Proof.
  unfold JSSet.of_list. rewrite JSSet_elem_of_foldl_add.
  unfold JSSet.empty. rewrite elem_of_nil. tauto.
Qed.

Lemma JSSet_NoDup_of_list l : NoDup (JSSet.of_list l).
Proof. apply JSSet_NoDup_foldl_add, NoDup_nil_2. Qed.

(** A list without duplicates is the iteration order of the set built
    from it. *)
Lemma JSSet_of_list_NoDup l : NoDup l → JSSet.of_list l = l.
Proof. intros Hl. unfold JSSet.of_list. by rewrite JSSet_foldl_add_NoDup. Qed.

End JSSet_facts.

(** ** The sample comparator obeys the comparator contract *)
Section Sample_facts.
Import Sample.

Lemma sign_of_CompOpp c : sign_of (CompOpp c) = - sign_of c.
Proof. by destruct c. Qed.

Lemma sign_of_sgn c : Z.sgn (sign_of c) = sign_of c.
Proof. by destruct c. Qed.

Lemma sign_of_0 c : sign_of c = 0 ↔ c = Eq.
Proof. by destruct c. Qed.

Lemma sign_of_neg c : sign_of c < 0 ↔ c = Lt.
Proof. destruct c; simpl; split; (done || lia). Qed.

Lemma String_compare_Lt_trans a b c :
  String.compare a b = Lt → String.compare b c = Lt → String.compare a c = Lt.
Proof.
  intros Hab Hbc.
  assert (String.le a c) as Hac.
  { transitivity b; unfold String.le, String.leb; [by rewrite Hab | by rewrite Hbc]. }
  unfold String.le, String.leb in Hac.
  destruct (String.compare a c) eqn:E; [|done..].
  apply String.compare_eq_iff in E as ->.
  rewrite String.compare_antisym, Hbc in Hab. done.
Qed.

Lemma Sample_compare_eq a b : compare a b = 0 → a = b.
Proof.
  destruct a as [|x|x|x], b as [|y|y|y]; simpl; try done.
  - intros ?%sign_of_0%Z.compare_eq. by destruct x, y.
  - by intros ->%sign_of_0%Z.compare_eq.
  - by intros ->%sign_of_0%String.compare_eq_iff.
Qed.

#[export] Instance Sample_laws : Literals.Laws Literal.
Proof.
  split.
  - intros a b. destruct a as [|x|x|x], b as [|y|y|y]; simpl; try done.
    + rewrite !sign_of_sgn, Z.compare_antisym. apply sign_of_CompOpp.
    + rewrite !sign_of_sgn, Z.compare_antisym. apply sign_of_CompOpp.
    + rewrite !sign_of_sgn, String.compare_antisym. apply sign_of_CompOpp.
  - intros a b c.
    destruct a as [|x|x|x], b as [|y|y|y], c as [|z|z|z]; simpl; try lia;
      rewrite !sign_of_neg.
    + rewrite !Z.compare_lt_iff. lia.
    + rewrite !Z.compare_lt_iff. lia.
    + apply String_compare_Lt_trans.
  - by intros a b c ->%Sample_compare_eq.
Qed.

End Sample_facts.

(** ** The comparator contract *)
Section Compare_facts.
Context {Literal : Type} `{Literals.Laws Literal}.
Implicit Types a b c : Literal.

Lemma compare_refl a : Literals.compare a a = 0.
Proof. pose proof (Literals.compare_antisym a a). lia. Qed.

Lemma compare_flip_neg a b : Literals.compare a b < 0 ↔ 0 < Literals.compare b a.
Proof. pose proof (Literals.compare_antisym a b). lia. Qed.

Lemma compare_flip_0 a b : Literals.compare a b = 0 ↔ Literals.compare b a = 0.
Proof. pose proof (Literals.compare_antisym a b). lia. Qed.

Lemma compare_0_trans a b c :
  Literals.compare a b = 0 → Literals.compare b c = 0 → Literals.compare a c = 0.
Proof. intros Hab Hbc. pose proof (Literals.compare_compat a b c Hab). lia. Qed.

Lemma compare_0_neg a b c :
  Literals.compare a b = 0 → Literals.compare b c < 0 → Literals.compare a c < 0.
Proof. intros Hab Hbc. pose proof (Literals.compare_compat a b c Hab). lia. Qed.

Lemma compare_neg_0 a b c :
  Literals.compare a b < 0 → Literals.compare b c = 0 → Literals.compare a c < 0.
Proof.
  intros Hab Hbc. apply compare_flip_neg.
  apply compare_flip_0 in Hbc. apply compare_flip_neg in Hab.
  pose proof (Literals.compare_compat c b a Hbc). lia.
Qed.

(** Keys that compare equal are found, and searched for, alike. *)
Lemma compare_0_sgn a b c :
  Literals.compare a b = 0 → Z.sgn (Literals.compare c a) = Z.sgn (Literals.compare c b).
Proof.
  intros Hab. pose proof (Literals.compare_compat a b c Hab).
  pose proof (Literals.compare_antisym a c).
  pose proof (Literals.compare_antisym b c). lia.
Qed.

End Compare_facts.

(** ** The sorted map *)

(** Splits on the two sign tests a search makes at an entry. *)
Ltac search_step :=
  repeat match goal with
    | |- context [ (?a <? ?b)%Z ] => destruct (Z.ltb_spec a b)
    | H : context [ (?a <? ?b)%Z ] |- _ => destruct (Z.ltb_spec a b)
    end.

Section BTree_facts.
Context {Literal : Type} `{Literals.Laws Literal} {V : Type}.
Implicit Types (tree : BTree.t Literal V) (key k : Literal) (v : V).

Local Abbreviation get := (BTree.get Literals.compare).
Local Abbreviation setIfNotPresent := (BTree.setIfNotPresent Literals.compare).
Local Abbreviation remove := (BTree.delete Literals.compare).
Local Abbreviation mutate := (BTree.mutate Literals.compare).

Lemma BTree_get_congruent tree k k' :
  Literals.compare k k' = 0 → get tree k = get tree k'.
Proof.
  intros Hk. induction tree as [|[k0 v0] tree IH]; simpl; [done|].
  pose proof (compare_0_sgn k k' k0 Hk). search_step; (done || lia).
Qed.

Lemma BTree_get_Some_elem_of tree key v :
  get tree key = Some v → ∃ k, (k, v) ∈ tree ∧ Literals.compare k key = 0.
Proof.
  induction tree as [|[k0 v0] tree IH]; simpl; [done|]. search_step.
  - intros (k & ? & ?)%IH. exists k. split; [by right | done].
  - done.
  - intros [= ->]. exists k0. split; [left | lia].
Qed.

Lemma BTree_elem_of_get_Some tree key k v :
  sorted tree → (k, v) ∈ tree → Literals.compare k key = 0 → get tree key = Some v.
Proof.
  induction tree as [|[k0 v0] tree IH]; simpl; [by intros _ ?%elem_of_nil|].
  intros [Hlt Hs] [[= -> ->] | Hin]%elem_of_cons Hk.
  - search_step; (done || lia).
  - rewrite Forall_forall in Hlt. specialize (Hlt _ Hin). simpl in Hlt.
    pose proof (compare_neg_0 _ _ _ Hlt Hk). search_step; (lia || auto).
Qed.

Lemma BTree_get_setIfNotPresent tree key v :
  get (setIfNotPresent tree key v) key = Some (default v (get tree key)).
Proof.
  pose proof (compare_refl key).
  induction tree as [|[k0 v0] tree IH]; simpl; search_step; simpl;
    search_step; (done || lia).
Qed.

Lemma BTree_get_setIfNotPresent_other tree key k v :
  Literals.compare key k ≠ 0 →
  get (setIfNotPresent tree key v) k = get tree k.
Proof.
  intros Hk. induction tree as [|[k0 v0] tree IH]; simpl.
  - search_step; (done || lia).
  - search_step; simpl; search_step; try (done || lia).
    + pose proof (compare_flip_neg key k0).
      pose proof (Literals.compare_trans key k0 k). lia.
    + pose proof (compare_flip_neg key k0).
      pose proof (compare_neg_0 key k0 k). lia.
Qed.

Lemma BTree_get_mutate tree key f : get (mutate tree key f) key = f <$> get tree key.
Proof.
  induction tree as [|[k0 v0] tree IH]; simpl; [done|].
  search_step; simpl; search_step; (done || lia).
Qed.

Lemma BTree_get_mutate_other tree key k f :
  Literals.compare key k ≠ 0 → get (mutate tree key f) k = get tree k.
Proof.
  intros Hk. induction tree as [|[k0 v0] tree IH]; simpl; [done|].
  search_step; simpl; search_step; try (done || lia).
  pose proof (compare_flip_0 k0 key).
  pose proof (compare_0_trans key k0 k). lia.
Qed.

Lemma BTree_get_delete_other tree key k :
  sorted tree → Literals.compare key k ≠ 0 → get (remove tree key) k = get tree k.
Proof.
  intros Hs Hk. induction tree as [|[k0 v0] tree IH]; simpl; [done|].
  destruct Hs as [Hlt Hs].
  search_step; simpl; search_step; try (done || lia || auto).
  - destruct tree as [|[k1 v1] tree]; simpl; [done|].
    apply Forall_cons_1 in Hlt as [Hlt _]. simpl in Hlt.
    pose proof (compare_flip_neg k k0).
    pose proof (Literals.compare_trans k k0 k1).
    pose proof (compare_flip_neg k k1).
    search_step; (done || lia).
  - pose proof (compare_flip_0 k0 key).
    pose proof (compare_0_trans key k0 k). lia.
Qed.

Lemma BTree_get_None_above tree key k0 :
  Forall (λ e, Literals.compare k0 e.1 < 0) tree →
  Literals.compare k0 key = 0 → get tree key = None.
Proof.
  intros Hlt Hk. destruct tree as [|[k1 v1] tree]; simpl; [done|].
  apply Forall_cons_1 in Hlt as [Hlt _]. simpl in Hlt.
  pose proof (compare_flip_0 k0 key).
  pose proof (compare_0_neg key k0 k1).
  pose proof (compare_flip_neg key k1).
  search_step; (done || lia).
Qed.

Lemma BTree_get_delete tree key : sorted tree → get (remove tree key) key = None.
Proof.
  intros Hs. induction tree as [|[k0 v0] tree IH]; simpl; [done|].
  destruct Hs as [Hlt Hs].
  search_step; simpl; search_step; try (done || lia || auto).
  apply (BTree_get_None_above _ _ k0); [done | lia].
Qed.

Lemma BTree_delete_absent tree key : get tree key = None → remove tree key = tree.
Proof.
  induction tree as [|[k0 v0] tree IH]; simpl; [done|].
  search_step; try done. intros ?. f_equal. auto.
Qed.

Lemma BTree_mutate_same tree key f v :
  get tree key = Some v → f v = v → mutate tree key f = tree.
Proof.
  induction tree as [|[k0 v0] tree IH]; simpl; [done|].
  search_step; try done.
  - intros ??. f_equal. auto.
  - by intros [= ->] ->.
Qed.

Lemma BTree_setIfNotPresent_present tree key v v0 :
  get tree key = Some v → setIfNotPresent tree key v0 = tree.
Proof.
  induction tree as [|[k0 w0] tree IH]; simpl; [done|].
  search_step; try done. intros ?. f_equal. auto.
Qed.

(** *** Which entries a tree holds after an operation *)

Lemma BTree_elem_of_setIfNotPresent tree key v e :
  e ∈ setIfNotPresent tree key v → e = (key, v) ∨ e ∈ tree.
Proof.
  induction tree as [|[k0 v0] tree IH]; simpl.
  - rewrite list_elem_of_singleton. auto.
  - search_step; rewrite !elem_of_cons; naive_solver.
Qed.

Lemma BTree_elem_of_delete tree key e : e ∈ remove tree key → e ∈ tree.
Proof.
  induction tree as [|[k0 v0] tree IH]; simpl; [done|].
  search_step; rewrite !elem_of_cons; naive_solver.
Qed.

Lemma BTree_elem_of_mutate tree key f e :
  e ∈ mutate tree key f →
  e ∈ tree ∨ ∃ v, (e.1, v) ∈ tree ∧ get tree key = Some v ∧ e.2 = f v.
Proof.
  induction tree as [|[k0 v0] tree IH]; simpl; [auto|].
  search_step; rewrite !elem_of_cons; try naive_solver.
  - intros [-> | [? | (v & ? & ? & ?)]%IH]; [auto | auto |].
    right. exists v. rewrite elem_of_cons. auto.
  - intros [-> | ?]; [|auto]. right. exists v0. simpl.
    rewrite elem_of_cons. auto.
Qed.

Lemma BTree_Forall_setIfNotPresent (P : Literal * V → Prop) tree key v :
  P (key, v) → Forall P tree → Forall P (setIfNotPresent tree key v).
Proof.
  rewrite !Forall_forall. intros ? Ht e [-> | ?]%BTree_elem_of_setIfNotPresent; auto.
Qed.

Lemma BTree_Forall_delete (P : Literal * V → Prop) tree key :
  Forall P tree → Forall P (remove tree key).
Proof. rewrite !Forall_forall. intros Ht e ?%BTree_elem_of_delete. auto. Qed.

Lemma BTree_Forall_mutate (P : Literal * V → Prop) tree key f :
  (∀ k v, get tree key = Some v → P (k, v) → P (k, f v)) →
  Forall P tree → Forall P (mutate tree key f).
Proof.
  rewrite !Forall_forall.
  intros Hf Ht [k w] [? | (v & ? & ? & Hw)]%BTree_elem_of_mutate; [auto|].
  simpl in *. subst w. apply Hf; auto.
Qed.

(** *** The keys stay sorted *)

Lemma BTree_sorted_setIfNotPresent tree key v :
  sorted tree → sorted (setIfNotPresent tree key v).
Proof.
  induction tree as [|[k0 v0] tree IH]; simpl; [auto|].
  intros [Hlt Hs]. search_step; simpl.
  - split; [|auto]. apply BTree_Forall_setIfNotPresent; done.
  - pose proof (compare_flip_neg key k0).
    split_and!; [|done..]. constructor; [simpl; lia|].
    eapply Forall_impl; [done|]. simpl.
    intros e ?. eapply Literals.compare_trans; [|done]. lia.
  - done.
Qed.

Lemma BTree_sorted_delete tree key : sorted tree → sorted (remove tree key).
Proof.
  induction tree as [|[k0 v0] tree IH]; simpl; [auto|].
  intros [Hlt Hs]. search_step; simpl; [|done..].
  split; [|auto]. by apply BTree_Forall_delete.
Qed.

Lemma BTree_sorted_mutate tree key f : sorted tree → sorted (mutate tree key f).
Proof.
  induction tree as [|[k0 v0] tree IH]; simpl; [auto|].
  intros [Hlt Hs]. search_step; simpl; [|done..].
  split; [|auto]. apply BTree_Forall_mutate; auto.
Qed.

(** In a sorted tree only the entry that [get] finds is changed. *)
Lemma BTree_elem_of_mutate_sorted tree key f e :
  sorted tree → e ∈ mutate tree key f →
  (e ∈ tree ∧ Literals.compare e.1 key ≠ 0) ∨
  (∃ v, get tree key = Some v ∧ Literals.compare e.1 key = 0 ∧ e.2 = f v).
Proof.
  induction tree as [|[k0 v0] tree IH]; simpl; [by intros _ ?%elem_of_nil|].
  intros [Hlt Hs]. rewrite Forall_forall in Hlt.
  search_step; rewrite !elem_of_cons.
  - intros [-> | [[??] | ?]%IH]; simpl; [left; split; [auto | lia] | auto..].
  - intros [-> | He]; simpl; left; (split; [auto|]); [lia|].
    specialize (Hlt _ He). pose proof (compare_flip_neg key k0).
    pose proof (Literals.compare_trans key k0 e.1).
    pose proof (compare_flip_neg key e.1). lia.
  - intros [-> | He]; simpl.
    + right. exists v0. split_and!; (done || lia).
    + left. split; [auto|]. specialize (Hlt _ He). simpl in Hlt.
      pose proof (compare_flip_0 k0 key). pose proof (compare_0_neg key k0 e.1).
      pose proof (compare_flip_neg key e.1). lia.
Qed.

(** The step [add] makes on the map: the bucket is created when missing,
    then changed in place. *)
Lemma BTree_Forall_upsert (P : Literal * V → Prop) tree key v0 f :
  sorted tree → Forall P tree →
  (∀ k, Literals.compare k key = 0 → P (k, f (default v0 (get tree key)))) →
  Forall P (mutate (setIfNotPresent tree key v0) key f).
Proof.
  intros Hs Ht Hf. apply Forall_forall. intros [k w] He.
  apply BTree_elem_of_mutate_sorted in He; [|by apply BTree_sorted_setIfNotPresent].
  simpl in He. destruct He as [[He Hk] | (v & Hv & Hk & ->)].
  - apply BTree_elem_of_setIfNotPresent in He as [[= -> ->] | He].
    + by rewrite compare_refl in Hk.
    + rewrite Forall_forall in Ht. auto.
  - rewrite BTree_get_setIfNotPresent in Hv. injection Hv as <-. auto.
Qed.

Lemma BTree_keys_mutate tree key f : (mutate tree key f).*1 = tree.*1.
Proof.
  induction tree as [|[k0 v0] tree IH]; simpl; [done|].
  search_step; simpl; by f_equal.
Qed.

Lemma BTree_keys_setIfNotPresent tree key v k :
  k ∈ (setIfNotPresent tree key v).*1 → k = key ∨ k ∈ tree.*1.
Proof.
  rewrite !list_elem_of_fmap. intros ([k' v'] & -> & [[= -> ->] | ?]%BTree_elem_of_setIfNotPresent).
  - by left.
  - right. by exists (k', v').
Qed.

Lemma BTree_keys_delete tree key k : k ∈ (remove tree key).*1 → k ∈ tree.*1.
Proof.
  rewrite !list_elem_of_fmap. intros (e & -> & ?%BTree_elem_of_delete). by exists e.
Qed.

Lemma BTree_get_Some_key tree key v :
  get tree key = Some v → ∃ k, k ∈ tree.*1 ∧ Literals.compare k key = 0.
Proof.
  intros (k & Hk & ?)%BTree_get_Some_elem_of. exists k. split; [|done].
  apply list_elem_of_fmap. by exists (k, v).
Qed.

End BTree_facts.

(** ** The ordered value index *)
Section BTreeFieldIndex_facts.
Context {Literal : Type} `{Literals.Laws Literal}.
Implicit Types (ix : BTreeFieldIndex.t Literal) (id : string) (value : Literal).

Local Abbreviation get := (BTree.get Literals.compare).
Local Abbreviation setIfNotPresent := (BTree.setIfNotPresent Literals.compare).
Local Abbreviation remove := (BTree.delete Literals.compare).
Local Abbreviation mutate := (BTree.mutate Literals.compare).

(** The bucket is always found after [setIfNotPresent]: [add] returns. *)
Lemma add_Returned id value ix :
  BTreeFieldIndex.add id value ix =
  Returned
    {| BTreeFieldIndex.present := JSSet.add id (BTreeFieldIndex.present ix);
       BTreeFieldIndex.values :=
         mutate (setIfNotPresent (BTreeFieldIndex.values ix) value JSSet.empty)
           value (JSSet.add id) |}.
Proof. unfold BTreeFieldIndex.add. by rewrite BTree_get_setIfNotPresent. Qed.

Lemma BTree_delete_mutate {V} (tree : BTree.t Literal V) key f :
  remove (mutate tree key f) key = remove tree key.
Proof.
  induction tree as [|[k0 v0] tree IH]; simpl; [done|].
  search_step; simpl; search_step; (done || lia || by f_equal).
Qed.

(** [delete] either drops the bucket, when [id] was its last member or it
    does not exist, or keeps it without [id]. *)
Lemma delete_Returned id value ix :
  BTreeFieldIndex.delete id value ix =
  Returned
    {| BTreeFieldIndex.present := JSSet.delete id (BTreeFieldIndex.present ix);
       BTreeFieldIndex.values :=
         match get (BTreeFieldIndex.values ix) value with
         | Some set =>
             if bool_decide (JSSet.delete id set = [])
             then remove (BTreeFieldIndex.values ix) value
             else mutate (BTreeFieldIndex.values ix) value (JSSet.delete id)
         | None => BTreeFieldIndex.values ix
         end |}.
Proof.
  unfold BTreeFieldIndex.delete.
  destruct (get _ value) as [set|] eqn:Hget.
  - destruct (Z.eqb_spec (JSSet.size (JSSet.delete id set)) 0) as [E|E];
      rewrite JSSet_size_0 in E.
    + by rewrite bool_decide_eq_true_2, BTree_delete_mutate.
    + by rewrite bool_decide_eq_false_2.
  - by rewrite BTree_delete_absent.
Qed.

Lemma well_formed_new : well_formed (BTreeFieldIndex.new (Literal := Literal)).
Proof.
  split; simpl; [done | constructor | constructor | constructor].
Qed.

Lemma well_formed_add id value ix ix' :
  well_formed ix → BTreeFieldIndex.add id value ix = Returned ix' → well_formed ix'.
Proof.
  intros [Hs Hne Hp Hb]. rewrite add_Returned. intros [= <-].
  unfold buckets in *. rewrite Forall_fmap in Hne, Hb.
  split; unfold buckets; simpl; rewrite ?Forall_fmap.
  - by apply BTree_sorted_mutate, BTree_sorted_setIfNotPresent.
  - apply BTree_Forall_upsert; [done..|]. simpl. intros _ _ Hset.
    assert (id ∈ JSSet.add id (default JSSet.empty (get (BTreeFieldIndex.values ix) value)))
      as Hin by (apply JSSet_elem_of_add; auto).
    rewrite Hset in Hin. by apply elem_of_nil in Hin.
  - by apply JSSet_NoDup_add.
  - apply BTree_Forall_upsert; [done..|]. simpl. intros _ _.
    apply JSSet_NoDup_add.
    destruct (get _ value) as [set|] eqn:Hget; simpl; [|apply NoDup_nil_2].
    apply BTree_get_Some_elem_of in Hget as (k & Hk & _).
    rewrite Forall_forall in Hb. apply (Hb _ Hk).
Qed.

Lemma well_formed_delete id value ix ix' :
  well_formed ix → BTreeFieldIndex.delete id value ix = Returned ix' → well_formed ix'.
Proof.
  intros [Hs Hne Hp Hb]. rewrite delete_Returned. intros [= <-].
  unfold buckets in *. rewrite Forall_fmap in Hne, Hb.
  split; unfold buckets; simpl; rewrite ?Forall_fmap;
    [| | by apply JSSet_NoDup_delete |];
    destruct (get _ value) as [set|] eqn:Hget; try done;
    case_bool_decide as Hempty;
    try (by apply BTree_sorted_delete); try (by apply BTree_sorted_mutate);
    try (by apply BTree_Forall_delete).
  - apply BTree_Forall_mutate; [|done]. simpl. intros _ set' Hset' _. congruence.
  - apply BTree_Forall_mutate; [|done]. simpl. intros _ set' _ ?.
    by apply JSSet_NoDup_delete.
Qed.

(** Every run of calls on a well-formed index returns, in a well-formed
    state. *)
Lemma replay_well_formed (calls : list (FieldIndex.call Literal)) ix :
  well_formed ix →
  ∃ ix', FieldIndex.replay calls ix = Returned ix' ∧ well_formed ix'.
Proof.
  revert ix. induction calls as [|[id value | id value] calls IH]; intros ix Hwf; simpl.
  - eauto.
  - rewrite add_Returned. apply IH.
    eapply well_formed_add; [done | apply add_Returned].
  - rewrite delete_Returned. apply IH.
    eapply well_formed_delete; [done | apply delete_Returned].
Qed.

(** *** The bucket of a value after a call *)

Lemma bucket_add id value ix ix' :
  BTreeFieldIndex.add id value ix = Returned ix' →
  bucket ix' value = JSSet.add id (bucket ix value).
Proof.
  rewrite add_Returned. intros [= <-]. unfold bucket, BTree.get_or. simpl.
  rewrite BTree_get_mutate, BTree_get_setIfNotPresent. simpl.
  by destruct (get _ value).
Qed.

Lemma bucket_add_other id value ix ix' v :
  Literals.compare value v ≠ 0 →
  BTreeFieldIndex.add id value ix = Returned ix' →
  bucket ix' v = bucket ix v.
Proof.
  intros Hv. rewrite add_Returned. intros [= <-]. unfold bucket, BTree.get_or.
  simpl. by rewrite BTree_get_mutate_other, BTree_get_setIfNotPresent_other.
Qed.

Lemma bucket_delete id value ix ix' :
  well_formed ix →
  BTreeFieldIndex.delete id value ix = Returned ix' →
  bucket ix' value = JSSet.delete id (bucket ix value).
Proof.
  intros Hwf. rewrite delete_Returned. intros [= <-].
  unfold bucket, BTree.get_or. simpl.
  destruct (get (BTreeFieldIndex.values ix) value) as [set|] eqn:Hget.
  - case_bool_decide as Hempty.
    + rewrite BTree_get_delete; [done | apply Hwf].
    + by rewrite BTree_get_mutate, Hget.
  - by rewrite Hget.
Qed.

Lemma bucket_delete_other id value ix ix' v :
  well_formed ix → Literals.compare value v ≠ 0 →
  BTreeFieldIndex.delete id value ix = Returned ix' →
  bucket ix' v = bucket ix v.
Proof.
  intros Hwf Hv. rewrite delete_Returned. intros [= <-].
  unfold bucket, BTree.get_or. simpl.
  destruct (get (BTreeFieldIndex.values ix) value) as [set|] eqn:Hget; [|done].
  case_bool_decide as Hempty.
  - rewrite BTree_get_delete_other; [done | apply Hwf | done].
  - by rewrite BTree_get_mutate_other.
Qed.

Lemma bucket_congruent ix v v' :
  Literals.compare v v' = 0 → bucket ix v = bucket ix v'.
Proof. intros Hv. unfold bucket, BTree.get_or. by rewrite (BTree_get_congruent _ v v'). Qed.

(** *** The [present] set after a run *)

Lemma present_replay (calls : list (FieldIndex.call Literal)) ix ix' :
  FieldIndex.replay calls ix = Returned ix' →
  BTreeFieldIndex.present ix' = present_after calls (BTreeFieldIndex.present ix).
Proof.
  revert ix. induction calls as [|[id value | id value] calls IH]; intros ix; simpl.
  - by intros [= ->].
  - rewrite add_Returned. intros Hrun%IH. by rewrite Hrun.
  - rewrite delete_Returned. intros Hrun%IH. by rewrite Hrun.
Qed.

(** *** Where keys and ids come from *)

Lemma keys_replay (calls : list (FieldIndex.call Literal)) ix ix' k :
  FieldIndex.replay calls ix = Returned ix' →
  k ∈ (BTreeFieldIndex.values ix').*1 →
  k ∈ (BTreeFieldIndex.values ix).*1 ∨ ∃ id, FieldIndex.Add id k ∈ calls.
Proof.
  revert ix. induction calls as [|[id value | id value] calls IH]; intros ix; simpl.
  - intros [= ->]. auto.
  - rewrite add_Returned. intros Hrun Hk.
    destruct (IH _ Hrun Hk) as [Hin | [id' ?]].
    + simpl in Hin. rewrite BTree_keys_mutate in Hin.
      apply BTree_keys_setIfNotPresent in Hin as [-> | ?]; [|by left].
      right. exists id. left.
    + right. exists id'. by right.
  - rewrite delete_Returned. intros Hrun Hk.
    destruct (IH _ Hrun Hk) as [Hin | [id' ?]].
    + left. simpl in Hin.
      destruct (get _ value); [|done].
      case_bool_decide; [by eapply BTree_keys_delete | by rewrite BTree_keys_mutate in Hin].
    + right. exists id'. by right.
Qed.

Lemma member_add id value ix ix' x :
  well_formed ix → BTreeFieldIndex.add id value ix = Returned ix' →
  member x ix' → x = id ∨ member x ix.
Proof.
  intros Hwf. rewrite add_Returned. intros [= <-] (set & Hset & Hx).
  unfold buckets in Hset. simpl in Hset.
  apply list_elem_of_fmap in Hset as ([k set'] & -> & He). simpl in Hx.
  apply BTree_elem_of_mutate_sorted in He;
    [|apply BTree_sorted_setIfNotPresent, Hwf].
  destruct He as [[He Hk] | (v & Hv & Hk & Hset)]; simpl in *.
  - apply BTree_elem_of_setIfNotPresent in He as [[= -> ->] | He].
    + by apply elem_of_nil in Hx.
    + right. exists set'. split; [|done].
      apply list_elem_of_fmap. by exists (k, set').
  - subst set'. apply JSSet_elem_of_add in Hx as [-> | Hx]; [by left|].
    right. rewrite BTree_get_setIfNotPresent in Hv. injection Hv as <-.
    destruct (get _ value) as [set|] eqn:Hget; simpl in Hx;
      [|by apply elem_of_nil in Hx].
    apply BTree_get_Some_elem_of in Hget as (k' & Hk' & _).
    exists set. split; [|done]. apply list_elem_of_fmap. by exists (k', set).
Qed.

Lemma member_delete id value ix ix' x :
  BTreeFieldIndex.delete id value ix = Returned ix' →
  member x ix' → member x ix.
Proof.
  rewrite delete_Returned. intros [= <-] (set & Hset & Hx).
  unfold buckets in Hset. simpl in Hset.
  apply list_elem_of_fmap in Hset as ([k set'] & -> & He). simpl in Hx.
  destruct (get _ value) as [set|] eqn:Hget.
  - case_bool_decide.
    + apply BTree_elem_of_delete in He. exists set'. split; [|done].
      apply list_elem_of_fmap. by exists (k, set').
    + apply BTree_elem_of_mutate in He as [He | (v & Hv & Hv' & Hset)]; simpl in *.
      * exists set'. split; [|done]. apply list_elem_of_fmap. by exists (k, set').
      * subst set'. apply JSSet_elem_of_delete in Hx as [Hx _].
        exists v. split; [|done]. apply list_elem_of_fmap. by exists (k, v).
  - exists set'. split; [|done]. apply list_elem_of_fmap. by exists (k, set').
Qed.

(** An id in the bucket of a value was added under that value. *)
Lemma bucket_replay (calls : list (FieldIndex.call Literal)) ix ix' id v :
  well_formed ix → FieldIndex.replay calls ix = Returned ix' →
  id ∈ bucket ix' v →
  id ∈ bucket ix v ∨ ¬ pair_never_added id v calls.
Proof.
  revert ix. induction calls as [|[id0 value | id0 value] calls IH];
    intros ix Hwf; simpl.
  - intros [= ->]. auto.
  - destruct (BTreeFieldIndex.add id0 value ix) as [ix1|] eqn:Hadd; [|done].
    intros Hrun Hin.
    destruct (IH ix1) as [Hin1 | Hadded];
      [by eapply well_formed_add | done.. | |].
    + destruct (decide (Literals.compare value v = 0)) as [Hv|Hv].
      * rewrite <- (bucket_congruent ix1 value v Hv), (bucket_add _ _ _ _ Hadd) in Hin1.
        rewrite (bucket_congruent ix value v Hv) in Hin1.
        apply JSSet_elem_of_add in Hin1 as [-> | ?]; [|by left].
        right. intros [Hhead _]%Forall_cons_1. simpl in Hhead.
        rewrite bool_decide_eq_true_2, (proj2 (Z.eqb_eq _ _) Hv) in Hhead by done.
        done.
      * left. by rewrite <- (bucket_add_other _ _ _ _ _ Hv Hadd).
    + right. intros [_ ?]%Forall_cons_1. done.
  - destruct (BTreeFieldIndex.delete id0 value ix) as [ix1|] eqn:Hdel; [|done].
    intros Hrun Hin.
    destruct (IH ix1) as [Hin1 | Hadded];
      [by eapply well_formed_delete | done.. | |].
    + left. destruct (decide (Literals.compare value v = 0)) as [Hv|Hv].
      * rewrite <- (bucket_congruent ix1 value v Hv) in Hin1.
        rewrite (bucket_delete _ _ _ _ Hwf Hdel) in Hin1.
        rewrite (bucket_congruent ix value v Hv) in Hin1.
        by apply JSSet_elem_of_delete in Hin1 as [? _].
      * by rewrite <- (bucket_delete_other _ _ _ _ _ Hwf Hv Hdel).
    + right. intros [_ ?]%Forall_cons_1. done.
Qed.

(** [delete] of a pair whose id is not in the bucket of the value leaves
    the map as it is. *)
Lemma delete_pair_absent id value ix :
  well_formed ix → id ∉ bucket ix value →
  BTreeFieldIndex.delete id value ix =
  Returned {| BTreeFieldIndex.present := JSSet.delete id (BTreeFieldIndex.present ix);
              BTreeFieldIndex.values := BTreeFieldIndex.values ix |}.
Proof.
  intros [Hs Hne Hp Hb] Hid. rewrite delete_Returned. do 2 f_equal.
  unfold bucket, BTree.get_or in Hid.
  destruct (get (BTreeFieldIndex.values ix) value) as [set|] eqn:Hget; [|done].
  rewrite (JSSet_delete_absent id set) by done.
  rewrite bool_decide_eq_false_2;
    [apply (BTree_mutate_same _ _ _ set); [done | by apply JSSet_delete_absent]|].
  apply BTree_get_Some_elem_of in Hget as (k & Hk & _).
  unfold buckets in Hne. rewrite Forall_fmap, Forall_forall in Hne.
  apply (Hne _ Hk).
Qed.

(** An id the run never added is neither in [present] nor in a bucket. *)
Lemma never_added_absent (calls : list (FieldIndex.call Literal)) ix ix' id :
  well_formed ix → never_added id calls →
  FieldIndex.replay calls ix = Returned ix' →
  (id ∈ BTreeFieldIndex.present ix' → id ∈ BTreeFieldIndex.present ix)
  ∧ (member id ix' → member id ix).
Proof.
  revert ix. induction calls as [|[id0 value | id0 value] calls IH];
    intros ix Hwf Hnever; simpl.
  - intros [= ->]. auto.
  - destruct (BTreeFieldIndex.add id0 value ix) as [ix1|] eqn:Hadd; [|done].
    intros Hrun. apply Forall_cons_1 in Hnever as [Hne Hnever].
    simpl in Hne. apply bool_decide_eq_false in Hne.
    destruct (IH ix1) as [Hp Hm]; [by eapply well_formed_add | done..|].
    split.
    + intros Hin%Hp. rewrite add_Returned in Hadd. injection Hadd as <-.
      simpl in *. apply JSSet_elem_of_add in Hin as [-> | ?]; done.
    + intros Hin%Hm.
      destruct (member_add _ _ _ _ _ Hwf Hadd Hin) as [-> | ?]; done.
  - destruct (BTreeFieldIndex.delete id0 value ix) as [ix1|] eqn:Hdel; [|done].
    intros Hrun. apply Forall_cons_1 in Hnever as [_ Hnever].
    destruct (IH ix1) as [Hp Hm]; [by eapply well_formed_delete | done..|].
    split.
    + intros Hin%Hp. rewrite delete_Returned in Hdel. injection Hdel as <-.
      simpl in *. by apply JSSet_elem_of_delete in Hin as [? _].
    + intros Hin%Hm. by eapply member_delete.
Qed.

(** [delete] of an id that is nowhere in the index changes nothing. *)
Lemma delete_absent_id id value ix :
  well_formed ix → id ∉ BTreeFieldIndex.present ix → ¬ member id ix →
  BTreeFieldIndex.delete id value ix = Returned ix.
Proof.
  intros [Hs Hne Hp Hb] Hid Hmem. rewrite delete_Returned.
  destruct ix as [present values]. simpl in *. f_equal. f_equal.
  - by apply JSSet_delete_absent.
  - destruct (get values value) as [set|] eqn:Hget; [|done].
    assert (set ∈ buckets (BTreeFieldIndex.mk present values)) as Hset.
    { apply BTree_get_Some_elem_of in Hget as (k & Hk & _).
      apply list_elem_of_fmap. by exists (k, set). }
    assert (JSSet.delete id set = set) as Hsame.
    { apply JSSet_delete_absent. intros ?. apply Hmem. by exists set. }
    rewrite Hsame. rewrite Forall_forall in Hne.
    rewrite bool_decide_eq_false_2 by auto.
    by eapply BTree_mutate_same.
Qed.

End BTreeFieldIndex_facts.

(** ** Everything index and identity index *)
Section Closure_indices.
Context {Literal : Type} `{Literals.Ops Literal}.

Lemma EverythingFieldIndex_replay (calls : list (FieldIndex.call Literal))
    (ix : EverythingFieldIndex.t) :
  FieldIndex.replay calls ix = Returned ix.
Proof. induction calls as [|[??|??] calls IH]; simpl; done. Qed.

Lemma IdFieldIndex_replay (calls : list (FieldIndex.call Literal))
    (ix : IdFieldIndex.t) :
  FieldIndex.replay calls ix = Returned ix.
Proof. induction calls as [|[??|??] calls IH]; simpl; done. Qed.

(** C8. [IdFieldIndex.equals(v)] is unsupported ([undefined]) when [v] is
    not a string; for a string it is the singleton of [v] when [lookup(v)]
    holds and unsupported otherwise; a set it returns has exactly one
    element. *)
Theorem IdFieldIndex_equals_singleton_or_unsupported
    (all : unit → JSSet.t) (lookup : string → bool) (value : Literal) :
  let ix := IdFieldIndex.mk all lookup in
  match Literals.isString value with
  | None => IdFieldIndex.equals value ix = None
  | Some s =>
      IdFieldIndex.equals value ix = (if lookup s then Some [s] else None)
  end
  ∧ match IdFieldIndex.equals value ix with
    | Some set => length set = 1%nat
    | None => True
    end.
Proof.
  intros ix. unfold IdFieldIndex.equals. simpl.
  destruct (Literals.isString value) as [s|]; [|done].
  destruct (lookup s); done.
Qed.

(** C9. An [EverythingFieldIndex] built on an enumeration closure answers
    [all()] with the result of the closure after any calls of [add] and
    [delete], and [equals], [ascending] and [descending] are unsupported. *)
Theorem EverythingFieldIndex_defers_to_closure
    (closure : unit → JSSet.t) (calls : list (FieldIndex.call Literal))
    (value : Literal) :
  ∃ ix, FieldIndex.replay calls (EverythingFieldIndex.mk closure) = Returned ix
    ∧ FieldIndex.all (Literal := Literal) ix = closure ()
    ∧ FieldIndex.equals value ix = None
    ∧ FieldIndex.ascending (Literal := Literal) ix = None
    ∧ FieldIndex.descending (Literal := Literal) ix = None.
Proof.
  exists (EverythingFieldIndex.mk closure).
  rewrite EverythingFieldIndex_replay. done.
Qed.

End Closure_indices.



(** ** The presence index *)
Section SetFieldIndex_facts.
Context {Literal : Type}.
Implicit Types (calls : list (FieldIndex.call Literal)) (id : string).

Lemma SetFieldIndex_replay `{Literals.Ops Literal} calls (ix : SetFieldIndex.t) :
  FieldIndex.replay calls ix =
  Returned (SetFieldIndex.mk (present_after calls (SetFieldIndex.present ix))).
Proof.
  revert ix. induction calls as [|[id value | id value] calls IH]; intros ix; simpl.
  - by destruct ix.
  - by rewrite IH.
  - by rewrite IH.
Qed.

Lemma elem_of_present_after calls present id :
  id ∈ present_after calls present ↔
  added_last id calls (bool_decide (id ∈ present)) = true.
Proof.
  unfold present_after.
  revert present. induction calls as [|[id' value | id' value] calls IH];
    intros present; simpl.
  - by rewrite bool_decide_eq_true.
  - rewrite IH. case_decide as Hid.
    + subst id'. rewrite bool_decide_eq_true_2; [done|].
      apply JSSet_elem_of_add. auto.
    + erewrite (bool_decide_ext (id ∈ JSSet.add id' present)); [done|].
      rewrite JSSet_elem_of_add. naive_solver.
  - rewrite IH. case_decide as Hid.
    + subst id'. rewrite bool_decide_eq_false_2; [done|].
      rewrite JSSet_elem_of_delete. tauto.
    + erewrite (bool_decide_ext (id ∈ JSSet.delete id' present)); [done|].
      rewrite JSSet_elem_of_delete. naive_solver.
Qed.

Lemma added_last_never_added calls id before :
  never_added id calls → added_last id calls before = true → before = true.
Proof.
  revert before. induction calls as [|[id' value | id' value] calls IH];
    intros before Hnever; simpl; [done|..];
    apply Forall_cons_1 in Hnever as [Hhead Hnever]; simpl in Hhead.
  - apply bool_decide_eq_false in Hhead. rewrite decide_False by done. auto.
  - intros Hlast%IH; [|done]. by case_decide.
Qed.

Lemma never_added_not_present calls id :
  never_added id calls → id ∉ present_after calls [].
Proof.
  intros Hnever Hin%elem_of_present_after.
  by apply added_last_never_added in Hin.
Qed.

End SetFieldIndex_facts.

(** ** Equality lookup and deletion on the ordered value index *)
Section Ordered_lookup.
Context {Literal : Type} `{Literals.Laws Literal}.
Implicit Types (ix : BTreeFieldIndex.t Literal) (id : string) (value : Literal).

Local Abbreviation get := (BTree.get Literals.compare).

Lemma equals_bucket value ix :
  BTreeFieldIndex.equals value ix = Some (bucket ix value).
Proof. done. Qed.

Lemma never_indexed_no_bucket (calls : list (FieldIndex.call Literal)) ix value :
  never_indexed value calls →
  FieldIndex.replay calls BTreeFieldIndex.new = Returned ix →
  get (BTreeFieldIndex.values ix) value = None.
Proof.
  intros Hnever Hrun.
  destruct (get _ value) as [set|] eqn:Hget; [exfalso|done].
  apply BTree_get_Some_key in Hget as (k & Hk & Hkv).
  destruct (keys_replay _ _ _ _ Hrun Hk) as [Hnew | [id Hadd]].
  - by apply elem_of_nil in Hnew.
  - unfold never_indexed in Hnever. rewrite Forall_forall in Hnever.
    specialize (Hnever _ Hadd). simpl in Hnever. lia.
Qed.

(** C2. [BTreeFieldIndex.equals(v)] is never the unsupported sentinel
    [undefined]: in every state it is the set of the bucket stored for [v],
    or the empty set when there is none; in a state reached from the empty
    index by calls none of which added under [v], it is the empty set. *)
Theorem BTreeFieldIndex_equals_supported ix value :
  (∃ set,
     BTreeFieldIndex.equals value ix = Some set
     ∧ (match get (BTreeFieldIndex.values ix) value with
        | Some stored => set = stored
        | None => set = []
        end))
  ∧ (∀ calls : list (FieldIndex.call Literal),
       FieldIndex.replay calls BTreeFieldIndex.new = Returned ix →
       never_indexed value calls →
       BTreeFieldIndex.equals value ix = Some []).
Proof.
  split.
  - exists (bucket ix value). split; [done|].
    unfold bucket, BTree.get_or. by destruct (get _ value).
  - intros calls Hrun Hnever. rewrite equals_bucket.
    unfold bucket, BTree.get_or.
    by rewrite (never_indexed_no_bucket calls).
Qed.

(** C6, as the code has it.  After [add(id, v)] then [delete(id, v)] on a
    well-formed index, [all()] does not contain [id] and [equals(v)] is what
    the bucket of [v] held before, without [id]: the empty set exactly when
    no other id holds [v]. *)
Theorem add_then_delete_round_trip ix id value :
  well_formed ix →
  ∃ ix1 ix2,
    BTreeFieldIndex.add id value ix = Returned ix1
    ∧ BTreeFieldIndex.delete id value ix1 = Returned ix2
    ∧ (id ∉ BTreeFieldIndex.all ix2)
    ∧ BTreeFieldIndex.equals value ix2 = Some (JSSet.delete id (bucket ix value))
    ∧ (BTreeFieldIndex.equals value ix2 = Some [] ↔
       ∀ other, other ∈ bucket ix value → other = id).
Proof.
  intros Hwf.
  destruct (BTreeFieldIndex.add id value ix) as [ix1|] eqn:Hadd;
    [|by rewrite add_Returned in Hadd].
  destruct (BTreeFieldIndex.delete id value ix1) as [ix2|] eqn:Hdel;
    [|by rewrite delete_Returned in Hdel].
  exists ix1, ix2. split; [done|]. split; [done|].
  assert (well_formed ix1) as Hwf1 by by eapply well_formed_add.
  pose proof (bucket_delete _ _ _ _ Hwf1 Hdel) as Hbucket.
  rewrite (bucket_add _ _ _ _ Hadd), JSSet_delete_add_same in Hbucket.
  split_and!.
  - rewrite add_Returned in Hadd. injection Hadd as <-.
    rewrite delete_Returned in Hdel. injection Hdel as <-.
    unfold BTreeFieldIndex.all. simpl. rewrite JSSet_elem_of_delete. tauto.
  - by rewrite equals_bucket, Hbucket.
  - rewrite equals_bucket, Hbucket. split.
    + intros [= Hempty] other Hother.
      destruct (decide (other = id)) as [|Hne]; [done|].
      assert (other ∈ JSSet.delete id (bucket ix value)) as Hin
        by by apply JSSet_elem_of_delete.
      rewrite Hempty in Hin. by apply elem_of_nil in Hin.
    + intros Honly. f_equal.
      destruct (JSSet.delete id (bucket ix value)) as [|x rest] eqn:E; [done|].
      assert (x ∈ JSSet.delete id (bucket ix value)) as Hx by (rewrite E; left).
      apply JSSet_elem_of_delete in Hx as [?%Honly ?]. done.
Qed.

(** C3, as the code has it.  [delete(id, value)] always returns.  On an
    [EverythingFieldIndex] or [IdFieldIndex] it changes nothing.  On a
    [SetFieldIndex] or [BTreeFieldIndex] reached from the empty index by a
    run that never added the pair, it takes [id] out of [all()] and changes
    nothing else: the sorted map, hence [equals], [ascending] and
    [descending], stays as it is, and the whole index does when [id] is not
    in [all()], as for an id never added under any value. *)
Theorem delete_of_pair_never_added
    (calls : list (FieldIndex.call Literal)) id value :
  (∀ everything : EverythingFieldIndex.t,
     ∃ state, FieldIndex.replay calls everything = Returned state
       ∧ FieldIndex.delete id value state = Returned state)
  ∧ (∀ identity : IdFieldIndex.t,
       ∃ state, FieldIndex.replay calls identity = Returned state
         ∧ FieldIndex.delete id value state = Returned state)
  ∧ (pair_never_added id value calls →
     (∃ state,
        FieldIndex.replay calls SetFieldIndex.new = Returned state
        ∧ FieldIndex.delete id value state
          = Returned (SetFieldIndex.mk (JSSet.delete id (SetFieldIndex.all state)))
        ∧ (id ∉ SetFieldIndex.all state →
           FieldIndex.delete id value state = Returned state)
        ∧ (never_added id calls → id ∉ SetFieldIndex.all state))
     ∧ (∃ state,
          FieldIndex.replay calls (BTreeFieldIndex.new (Literal := Literal))
          = Returned state
          ∧ FieldIndex.delete id value state
            = Returned
                {| BTreeFieldIndex.present :=
                     JSSet.delete id (BTreeFieldIndex.all state);
                   BTreeFieldIndex.values := BTreeFieldIndex.values state |}
          ∧ (id ∉ BTreeFieldIndex.all state →
             FieldIndex.delete id value state = Returned state)
          ∧ (never_added id calls → id ∉ BTreeFieldIndex.all state))).
Proof.
  split_and!.
  - intros everything. exists everything. by rewrite EverythingFieldIndex_replay.
  - intros identity. exists identity. by rewrite IdFieldIndex_replay.
  - intros Hpair. split.
    + eexists. split; [apply SetFieldIndex_replay|].
      simpl. unfold SetFieldIndex.delete, SetFieldIndex.all. simpl.
      split_and!; [done | |].
      * intros Habsent. by rewrite JSSet_delete_absent.
      * apply never_added_not_present.
    + destruct (replay_well_formed calls BTreeFieldIndex.new well_formed_new)
        as (state & Hrun & Hwf).
      exists state. split; [done|].
      assert (id ∉ bucket state value) as Hbucket.
      { intros Hin.
        destruct (bucket_replay _ _ _ _ _ well_formed_new Hrun Hin) as [Hnew|Hnot];
          [|done].
        by apply elem_of_nil in Hnew. }
      simpl. rewrite delete_pair_absent by done.
      unfold BTreeFieldIndex.all. split_and!; [done | |].
      * intros Habsent. rewrite JSSet_delete_absent by done. by destruct state.
      * intros Hnever.
        destruct (never_added_absent _ _ _ id well_formed_new Hnever Hrun)
          as [Hp _].
        intros Hin%Hp. by apply elem_of_nil in Hin.
Qed.

End Ordered_lookup.

(** ** Ordered traversal *)
Section Traversal.
Context {Literal : Type} `{Literals.Ops Literal}.
Implicit Types (ix : BTreeFieldIndex.t Literal) (id : string).

Lemma ascending_buckets ix :
  BTreeFieldIndex.ascending ix = JSSet.of_list (flattened (buckets ix)).
Proof. done. Qed.

Lemma descending_buckets ix :
  BTreeFieldIndex.descending ix = JSSet.of_list (flattened (reverse (buckets ix))).
Proof.
  unfold BTreeFieldIndex.descending, BTreeFieldIndex.treeValuesIter,
    BTree.entriesReversed, buckets.
  by rewrite fmap_reverse.
Qed.

Lemma elem_of_flattened (sets : list JSSet.t) id :
  id ∈ flattened sets ↔ ∃ set, set ∈ sets ∧ id ∈ set.
Proof.
  unfold flattened, JSArray.flatMap, JSSet.to_list.
  rewrite list_elem_of_bind. naive_solver.
Qed.

Lemma flattened_reverse_Permutation (sets : list JSSet.t) :
  flattened (reverse sets) ≡ₚ flattened sets.
Proof. unfold flattened, JSArray.flatMap. by rewrite reverse_Permutation. Qed.

(** Reversing the flattened buckets reverses their order and each of
    them. *)
Lemma reverse_flattened (sets : list JSSet.t) :
  reverse (flattened sets) = flattened (reverse (reverse <$> sets)).
Proof.
  unfold flattened, JSArray.flatMap, JSSet.to_list.
  induction sets as [|set sets IH]; [done|].
  rewrite bind_cons, reverse_app, IH, fmap_cons, reverse_cons, bind_app.
  by rewrite bind_singleton.
Qed.

Lemma reverse_short (set : JSSet.t) : (length set ≤ 1)%nat → reverse set = set.
Proof. destruct set as [|? [|??]]; simpl; (done || lia). Qed.

Lemma reverse_all_short (sets : list JSSet.t) :
  Forall (λ set : JSSet.t, (length set ≤ 1)%nat) sets → reverse <$> sets = sets.
Proof.
  induction 1 as [|set sets Hset _ IH]; [done|].
  by rewrite fmap_cons, reverse_short, IH.
Qed.

End Traversal.

(** ** Presence after a run *)
Section Presence.
Context {Literal : Type} `{Literals.Laws Literal}.
Implicit Types (calls : list (FieldIndex.call Literal)) (id : string).

Lemma add_count_cons id c calls :
  add_count id (c :: calls) = Z.b2z (is_add_of id c) + add_count id calls.
Proof.
  unfold add_count. destruct (is_add_of id c) eqn:E.
  - rewrite filter_cons_True by done. rewrite length_cons, Nat2Z.inj_succ.
    change (Z.b2z true) with 1. lia.
  - rewrite filter_cons_False by congruence. change (Z.b2z false) with 0. lia.
Qed.

Lemma delete_count_cons id c calls :
  delete_count id (c :: calls) = Z.b2z (is_delete_of id c) + delete_count id calls.
Proof.
  unfold delete_count. destruct (is_delete_of id c) eqn:E.
  - rewrite filter_cons_True by done. rewrite length_cons, Nat2Z.inj_succ.
    change (Z.b2z true) with 1. lia.
  - rewrite filter_cons_False by congruence. change (Z.b2z false) with 0. lia.
Qed.

(** Along an alternating run the adds of an id exceed its deletes by one
    while it is there, and equal them while it is not. *)
Lemma alternates_counts calls id (cur cur' : gset string) :
  alternates cur calls = Some cur' →
  added_last id calls (bool_decide (id ∈ cur)) = bool_decide (id ∈ cur')
  ∧ Z.b2z (bool_decide (id ∈ cur)) + add_count id calls - delete_count id calls
    = Z.b2z (bool_decide (id ∈ cur')).
Proof.
  revert cur. induction calls as [|[id' value | id' value] calls IH];
    intros cur; simpl.
  - intros [= ->]. unfold add_count, delete_count. simpl. split; [done|].
    change (Z.of_nat 0) with 0. lia.
  - destruct (decide (id' ∈ cur)) as [Hin|Hin]; [done|].
    intros [Hlast Hcount]%IH.
    rewrite add_count_cons, delete_count_cons. simpl.
    destruct (decide (id' = id)) as [Hid|Hid].
    + subst id'.
      rewrite (bool_decide_eq_true_2 (id ∈ {[id]} ∪ cur)) in Hlast, Hcount
        by set_solver.
      rewrite (bool_decide_eq_false_2 (id ∈ cur)) by done.
      rewrite (bool_decide_eq_true_2 (id = id)) by done.
      split; [done | simpl in *; lia].
    + rewrite (bool_decide_ext (id ∈ {[id']} ∪ cur) (id ∈ cur)) in Hlast, Hcount
        by set_solver.
      rewrite (bool_decide_eq_false_2 (id' = id)) by done.
      split; [done | simpl in *; lia].
  - destruct (decide (id' ∈ cur)) as [Hin|Hin]; [|done].
    intros [Hlast Hcount]%IH.
    rewrite add_count_cons, delete_count_cons. simpl.
    destruct (decide (id' = id)) as [Hid|Hid].
    + subst id'.
      rewrite (bool_decide_eq_false_2 (id ∈ cur ∖ {[id]})) in Hlast, Hcount
        by set_solver.
      rewrite (bool_decide_eq_true_2 (id ∈ cur)) by done.
      rewrite (bool_decide_eq_true_2 (id = id)) by done.
      split; [done | simpl in *; lia].
    + rewrite (bool_decide_ext (id ∈ cur ∖ {[id']}) (id ∈ cur)) in Hlast, Hcount
        by set_solver.
      rewrite (bool_decide_eq_false_2 (id' = id)) by done.
      split; [done | simpl in *; lia].
Qed.

(** C7, as the code has it.  After any run of calls on an empty
    [SetFieldIndex] or [BTreeFieldIndex], [all()] holds exactly the ids
    whose latest call is an [add]; for a run that alternates (no id added
    while there, none deleted while absent) these are the ids with more adds
    than deletes. *)
Theorem all_after_replay calls id :
  ∃ (presence : SetFieldIndex.t) (ordered : BTreeFieldIndex.t Literal),
    FieldIndex.replay calls SetFieldIndex.new = Returned presence
    ∧ FieldIndex.replay calls BTreeFieldIndex.new = Returned ordered
    ∧ (id ∈ SetFieldIndex.all presence ↔ added_last id calls false = true)
    ∧ (id ∈ BTreeFieldIndex.all ordered ↔ added_last id calls false = true)
    ∧ (is_Some (alternates ∅ calls) →
       (id ∈ SetFieldIndex.all presence ↔
        delete_count id calls < add_count id calls)
       ∧ (id ∈ BTreeFieldIndex.all ordered ↔
          delete_count id calls < add_count id calls)).
Proof.
  destruct (replay_well_formed calls BTreeFieldIndex.new well_formed_new)
    as (ordered & Hrun & _).
  exists (SetFieldIndex.mk (present_after calls [])), ordered.
  assert (id ∈ present_after calls [] ↔ added_last id calls false = true)
    as Hpresence by by rewrite elem_of_present_after.
  assert (id ∈ BTreeFieldIndex.all ordered ↔ added_last id calls false = true)
    as Hordered.
  { unfold BTreeFieldIndex.all. by rewrite (present_replay _ _ _ Hrun). }
  split_and!; [apply SetFieldIndex_replay | done..|].
  intros [cur' Halt]. unfold SetFieldIndex.all. simpl.
  rewrite Hpresence, Hordered.
  destruct (alternates_counts _ id _ _ Halt) as [Hlast Hcount].
  rewrite (bool_decide_eq_false_2 (id ∈ (∅ : gset string))) in Hlast, Hcount
    by set_solver.
  rewrite Hlast. simpl in Hcount.
  destruct (bool_decide (id ∈ cur')); simpl in Hcount; split; split; (done || lia).
Qed.

End Presence.

(** ** The invariant along the lifecycle *)
Section Lifecycle.
Context {Literal : Type} `{Literals.Laws Literal}.
Implicit Types (ix : BTreeFieldIndex.t Literal) (id : string) (value : Literal).
Implicit Types (cur : gmap string Literal).

Local Abbreviation get := (BTree.get Literals.compare).

Lemma tracks_new : tracks ∅ (BTreeFieldIndex.new (Literal := Literal)).
Proof.
  split.
  - apply well_formed_new.
  - intros id. simpl. rewrite lookup_empty, elem_of_nil.
    split; [done | by intros [??]].
  - intros id value. unfold bucket. simpl. rewrite elem_of_nil.
    split; [done | intros (? & Hcur & _)]. by rewrite lookup_empty in Hcur.
Qed.

Lemma tracks_add cur ix ix' id value :
  tracks cur ix → cur !! id = None →
  BTreeFieldIndex.add id value ix = Returned ix' →
  tracks (<[id := value]> cur) ix'.
Proof.
  intros [Hwf Hp Hb] Hfree Hadd. split.
  - by eapply well_formed_add.
  - intros x. pose proof Hadd as Hadd'. rewrite add_Returned in Hadd'.
    injection Hadd' as <-. simpl.
    rewrite JSSet_elem_of_add, Hp, lookup_insert_is_Some.
    destruct (decide (id = x)); naive_solver.
  - intros x v.
    destruct (decide (Literals.compare value v = 0)) as [Hv|Hv].
    + rewrite <- (bucket_congruent ix' value v Hv), (bucket_add _ _ _ _ Hadd).
      rewrite (bucket_congruent ix value v Hv), JSSet_elem_of_add, Hb.
      destruct (decide (x = id)) as [->|Hx].
      * rewrite lookup_insert_eq. naive_solver.
      * rewrite lookup_insert_ne by done. naive_solver.
    + rewrite (bucket_add_other _ _ _ _ _ Hv Hadd), Hb.
      destruct (decide (x = id)) as [->|Hx].
      * rewrite lookup_insert_eq, Hfree. naive_solver.
      * by rewrite lookup_insert_ne.
Qed.

Lemma tracks_delete cur ix ix' id value old :
  tracks cur ix → cur !! id = Some old → Literals.compare old value = 0 →
  BTreeFieldIndex.delete id value ix = Returned ix' →
  tracks (base.delete id cur) ix'.
Proof.
  intros [Hwf Hp Hb] Hcur Hold Hdel. split.
  - by eapply well_formed_delete.
  - intros x. pose proof Hdel as Hdel'. rewrite delete_Returned in Hdel'.
    injection Hdel' as <-. simpl.
    rewrite JSSet_elem_of_delete, Hp, lookup_delete_is_Some. naive_solver.
  - intros x v.
    destruct (decide (Literals.compare value v = 0)) as [Hv|Hv].
    + rewrite <- (bucket_congruent ix' value v Hv), (bucket_delete _ _ _ _ Hwf Hdel).
      rewrite (bucket_congruent ix value v Hv), JSSet_elem_of_delete, Hb.
      destruct (decide (x = id)) as [->|Hx].
      * rewrite lookup_delete_eq. naive_solver.
      * rewrite lookup_delete_ne by done. naive_solver.
    + rewrite (bucket_delete_other _ _ _ _ _ Hwf Hv Hdel), Hb.
      destruct (decide (x = id)) as [->|Hx].
      * rewrite lookup_delete_eq, Hcur. split; [|naive_solver].
        intros (current & [= <-] & Hcv). destruct Hv.
        apply compare_flip_0 in Hold. by eapply compare_0_trans.
      * by rewrite lookup_delete_ne.
Qed.

Lemma tracks_member cur ix id : tracks cur ix → member id ix → is_Some (cur !! id).
Proof.
  intros [Hwf _ Hb] (set & Hset & Hid).
  apply list_elem_of_fmap in Hset as ([k s] & -> & Hks). simpl in Hid.
  assert (id ∈ bucket ix k) as Hk.
  { unfold bucket, BTree.get_or.
    rewrite (BTree_elem_of_get_Some _ k k s); [done | apply Hwf | done |].
    apply compare_refl. }
  apply Hb in Hk as (current & Hcur & _). by exists current.
Qed.

(** Adding once more the pair an id has changes nothing. *)
Lemma tracks_add_again cur ix id value old :
  tracks cur ix → cur !! id = Some old → Literals.compare old value = 0 →
  BTreeFieldIndex.add id value ix = Returned ix.
Proof.
  intros [Hwf Hp Hb] Hcur Hold. rewrite add_Returned.
  assert (id ∈ bucket ix value) as Hin by (apply Hb; eauto).
  unfold bucket, BTree.get_or in Hin.
  destruct (get (BTreeFieldIndex.values ix) value) as [set|] eqn:Hget;
    [|by apply elem_of_nil in Hin].
  destruct ix as [present values]. simpl in *. f_equal. f_equal.
  - apply JSSet_add_present, Hp. eauto.
  - rewrite (BTree_setIfNotPresent_present _ _ set) by done.
    eapply BTree_mutate_same; [done|]. by apply JSSet_add_present.
Qed.

(** Deleting an id that has no value changes nothing. *)
Lemma tracks_delete_absent cur ix id value :
  tracks cur ix → cur !! id = None →
  BTreeFieldIndex.delete id value ix = Returned ix.
Proof.
  intros Htracks Hcur. apply delete_absent_id; [apply Htracks | |].
  - intros [? Hsome]%(tracks_present _ _ Htracks). congruence.
  - intros [? Hsome]%(tracks_member _ _ _ Htracks). congruence.
Qed.

(** A run that follows the lifecycle returns, and the index tracks the
    current values. *)
Lemma lifecycle_tracks (calls : list (FieldIndex.call Literal)) cur cur' ix :
  tracks cur ix → lifecycle cur calls = Some cur' →
  ∃ ix', FieldIndex.replay calls ix = Returned ix' ∧ tracks cur' ix'.
Proof.
  revert cur ix. induction calls as [|[id value | id value] calls IH];
    intros cur ix Htracks; simpl.
  - intros [= <-]. eauto.
  - destruct (cur !! id) as [old|] eqn:Hcur.
    + destruct (Z.eqb_spec (Literals.compare old value) 0) as [Hold|]; [|done].
      intros Hrest. rewrite (tracks_add_again cur ix id value old) by done.
      by eapply IH.
    + intros Hrest. rewrite add_Returned. eapply IH; [|done].
      eapply tracks_add; [done.. | apply add_Returned].
  - destruct (cur !! id) as [old|] eqn:Hcur.
    + destruct (Z.eqb_spec (Literals.compare old value) 0) as [Hold|]; [|done].
      intros Hrest. rewrite delete_Returned. eapply IH; [|done].
      eapply tracks_delete; [done.. | apply delete_Returned].
    + intros Hrest. rewrite (tracks_delete_absent cur ix id value) by done.
      by eapply IH.
Qed.

(** *** Counting the buckets of an id *)

Lemma occurrences_0 id ix :
  occurrences id ix = 0%nat ↔ ¬ member id ix.
Proof.
  unfold occurrences, member. rewrite length_zero_iff_nil. split.
  - intros Hnil (set & Hset & Hid).
    assert (set ∈ filter (λ set : JSSet.t, id ∈ set) (buckets ix)) as Hin
      by by apply list_elem_of_filter.
    rewrite Hnil in Hin. by apply elem_of_nil in Hin.
  - intros Hnone.
    destruct (filter _ (buckets ix)) as [|set rest] eqn:E; [done|].
    assert (set ∈ filter (λ set : JSSet.t, id ∈ set) (buckets ix)) as Hin
      by (rewrite E; left).
    apply list_elem_of_filter in Hin as [??]. destruct Hnone. by exists set.
Qed.

(** In a sorted map, an id found in the bucket of [key], and in no bucket
    under another key, sits in one bucket. *)
Lemma occurrences_sorted id (tree : BTree.t Literal JSSet.t) key set :
  sorted tree →
  (∀ k s, (k, s) ∈ tree → id ∈ s → Literals.compare k key = 0) →
  get tree key = Some set → id ∈ set →
  length (filter (λ set : JSSet.t, id ∈ set) tree.*2) = 1%nat.
Proof.
  induction tree as [|[k0 s0] tree IH]; simpl; [done|].
  intros [Hlt Hs] Honly. search_step.
  - intros Hget Hid. rewrite filter_cons_False.
    + apply IH; [done | | done..]. intros k s ?. apply Honly. by right.
    + simpl. intros Hin. specialize (Honly k0 s0). rewrite elem_of_cons in Honly.
      specialize (Honly (or_introl eq_refl) Hin). lia.
  - done.
  - intros [= <-] Hid. rewrite filter_cons_True by done. simpl. f_equal.
    apply length_zero_iff_nil.
    destruct (filter _ tree.*2) as [|s rest] eqn:E; [done|].
    assert (s ∈ filter (λ set : JSSet.t, id ∈ set) tree.*2) as Hin
      by (rewrite E; left).
    apply list_elem_of_filter in Hin as [Hids Hstree].
    apply list_elem_of_fmap in Hstree as ([k s'] & -> & Hks).
    rewrite Forall_forall in Hlt. specialize (Hlt _ Hks). simpl in *.
    specialize (Honly k s'). rewrite elem_of_cons in Honly.
    specialize (Honly (or_intror Hks) Hids).
    assert (Literals.compare k0 key = 0) as Hk0 by lia.
    pose proof (compare_neg_0 _ _ _ Hlt Honly). lia.
Qed.

Lemma tracks_invariant cur ix : tracks cur ix → invariant cur ix.
Proof.
  intros [Hwf Hp Hb]. split; [done | | apply Hwf].
  intros id. rewrite Hp. split.
  - intros [current Hcur].
    assert (id ∈ bucket ix current) as Hin.
    { apply Hb. exists current. split; [done | apply compare_refl]. }
    unfold bucket, BTree.get_or in Hin.
    destruct (get (BTreeFieldIndex.values ix) current) as [set|] eqn:Hget;
      [|by apply elem_of_nil in Hin].
    apply (occurrences_sorted id _ current set); [apply Hwf | | done..].
    intros k s Hks Hids.
    assert (id ∈ bucket ix k) as Hk.
    { unfold bucket, BTree.get_or.
      rewrite (BTree_elem_of_get_Some _ k k s); [done | apply Hwf | done |].
      apply compare_refl. }
    apply Hb in Hk as (current' & Hcur' & Hk).
    rewrite Hcur in Hcur'. injection Hcur' as <-. by apply compare_flip_0.
  - intros Hone.
    destruct (decide (occurrences id ix = 0%nat)) as [Hzero|Hsome]; [lia|].
    rewrite occurrences_0 in Hsome.
    destruct (decide (is_Some (cur !! id))) as [|Hnone]; [done|].
    destruct Hsome. intros Hmember. destruct Hnone.
    by eapply (tracks_member cur ix).
Qed.

(** A run that follows the lifecycle obeys the discipline as the claim
    words it, and leaves every id with the same pair. *)
Lemma lifecycle_old_pair_deleted_first (calls : list (FieldIndex.call Literal))
    cur cur' :
  lifecycle cur calls = Some cur' → old_pair_deleted_first cur calls = Some cur'.
Proof.
  revert cur. induction calls as [|[id value | id value] calls IH]; intros cur;
    simpl; [done | |];
    destruct (cur !! id) as [old|]; try apply IH;
    destruct (Literals.compare old value =? 0); (done || apply IH).
Qed.

(** C4, as the code has it.  A run from the empty [BTreeFieldIndex] that
    follows the lifecycle, where an id gets a new value only after its old
    pair was deleted and an id that has a value is deleted under that value
    only, returns, in a state where the invariant holds: an id is in the
    bucket of [v] exactly when its current value is [v] (up to the
    comparator), an id is in [present] exactly when it is in one bucket, and
    no bucket is empty. *)
Theorem lifecycle_invariant (calls : list (FieldIndex.call Literal)) cur :
  lifecycle ∅ calls = Some cur →
  ∃ ix,
    FieldIndex.replay calls (BTreeFieldIndex.new (Literal := Literal)) = Returned ix
    ∧ invariant cur ix.
Proof.
  intros Hrun.
  destruct (lifecycle_tracks calls ∅ cur BTreeFieldIndex.new tracks_new Hrun)
    as (ix & Hreplay & Htracks).
  exists ix. split; [done|]. by apply tracks_invariant.
Qed.

End Lifecycle.

(** ** Ordered traversal along the lifecycle *)
Section Traversal_lifecycle.
Context {Literal : Type} `{Literals.Laws Literal}.
Implicit Types (ix : BTreeFieldIndex.t Literal) (id : string).

(** In a sorted map whose buckets share no id, the flattened buckets hold
    no id twice. *)
Lemma NoDup_flattened_sorted (tree : BTree.t Literal JSSet.t) :
  sorted tree →
  Forall (λ set : JSSet.t, NoDup set) tree.*2 →
  (∀ k s k' s' id,
     (k, s) ∈ tree → (k', s') ∈ tree → id ∈ s → id ∈ s' →
     Literals.compare k k' = 0) →
  NoDup (flattened tree.*2).
Proof.
  induction tree as [|[k0 s0] tree IH]; [intros; apply NoDup_nil_2|].
  intros [Hlt Hs] [Hs0 Hsets]%Forall_cons_1 Hshare.
  rewrite fmap_cons. unfold flattened, JSArray.flatMap in *. rewrite bind_cons.
  apply NoDup_app. split_and!; [done | |].
  - intros id Hid0 (set & Hset & Hid)%elem_of_flattened.
    apply list_elem_of_fmap in Hset as ([k s] & -> & Hks). simpl in Hid.
    rewrite Forall_forall in Hlt. specialize (Hlt _ Hks). simpl in Hlt.
    assert (Literals.compare k0 k = 0); [|lia].
    eapply (Hshare k0 s0 k s id); rewrite ?elem_of_cons; auto.
  - apply IH; [done..|]. intros k s k' s' id ??.
    apply (Hshare k s k' s' id); by right.
Qed.

Lemma tracks_NoDup_flattened (cur : gmap string Literal) ix :
  tracks cur ix → NoDup (flattened (buckets ix)).
Proof.
  intros [Hwf Hp Hb]. apply NoDup_flattened_sorted; [apply Hwf..|].
  intros k s k' s' id Hks Hks' Hid Hid'.
  assert (∀ k s, (k, s) ∈ BTreeFieldIndex.values ix → id ∈ s →
            ∃ current, cur !! id = Some current
                       ∧ Literals.compare current k = 0) as Hcurrent.
  { clear -H0 Hwf Hb. intros k s Hks Hid. apply Hb.
    unfold bucket, BTree.get_or.
    rewrite (BTree_elem_of_get_Some _ k k s); [done | apply Hwf | done |].
    apply compare_refl. }
  destruct (Hcurrent k s Hks Hid) as (c & Hc & Hck).
  destruct (Hcurrent k' s' Hks' Hid') as (c' & Hc' & Hck').
  rewrite Hc in Hc'. injection Hc' as <-.
  apply compare_flip_0 in Hck. by eapply compare_0_trans.
Qed.

Lemma StronglySorted_reverse_flip {A} (R : relation A) (l : list A) :
  StronglySorted R l → StronglySorted (flip R) (reverse l).
Proof.
  induction 1 as [|x l Hl IH Hx]; [constructor|].
  rewrite reverse_cons. apply StronglySorted_app_2.
  - intros a b Ha ->%list_elem_of_singleton.
    rewrite elem_of_reverse in Ha.
    rewrite Forall_forall in Hx. unfold flip. by apply Hx.
  - exact IH.
  - repeat constructor.
Qed.

(** The entries of a sorted map are in strictly ascending key order. *)
Lemma sorted_StronglySorted {V} (tree : BTree.t Literal V) :
  sorted tree →
  StronglySorted (λ e e', Literals.compare e.1 e'.1 < 0) tree.
Proof.
  induction tree as [|[k v] tree IH]; simpl; [constructor|].
  intros [Hlt Hs]. constructor; [by apply IH | done].
Qed.

(** C1, as the code has it.  [ascending()] and [descending()] hold the same
    ids.  When no id sits in two buckets, [ascending()] is the stored
    buckets one after the other and [descending()] is the same buckets in
    reverse, each bucket in its own insertion order both times; so
    [descending()] is the reverse of [ascending()] when, moreover, no bucket
    holds two ids.  In every state reached along the lifecycle no id sits in
    two buckets, and the keys are ordered by [Literals.compare]:
    [ascending()] goes through the entries in strictly ascending key order
    and [descending()] goes through them in strictly descending key
    order. *)
Theorem ascending_descending_buckets ix :
  (∀ id, id ∈ BTreeFieldIndex.ascending ix ↔ id ∈ BTreeFieldIndex.descending ix)
  ∧ (NoDup (flattened (buckets ix)) →
     BTreeFieldIndex.ascending ix = flattened (buckets ix)
     ∧ BTreeFieldIndex.descending ix = flattened (reverse (buckets ix))
     ∧ (Forall (λ set : JSSet.t, (length set ≤ 1)%nat) (buckets ix) →
        BTreeFieldIndex.descending ix = reverse (BTreeFieldIndex.ascending ix)))
  ∧ (∀ (calls : list (FieldIndex.call Literal)) cur,
       lifecycle ∅ calls = Some cur →
       FieldIndex.replay calls BTreeFieldIndex.new = Returned ix →
       NoDup (flattened (buckets ix))
       ∧ StronglySorted (λ e e', Literals.compare e.1 e'.1 < 0)
           (BTree.entries (BTreeFieldIndex.values ix))
       ∧ BTreeFieldIndex.ascending ix
         = flattened (snd <$> BTree.entries (BTreeFieldIndex.values ix))
       ∧ StronglySorted (λ e e', Literals.compare e'.1 e.1 < 0)
           (BTree.entriesReversed (BTreeFieldIndex.values ix))
       ∧ BTreeFieldIndex.descending ix
         = flattened (snd <$> BTree.entriesReversed (BTreeFieldIndex.values ix))).
Proof.
  rewrite ascending_buckets, descending_buckets. split_and!.
  - intros id. rewrite !JSSet_elem_of_of_list.
    by rewrite flattened_reverse_Permutation.
  - intros Hnodup.
    assert (JSSet.of_list (flattened (reverse (buckets ix)))
            = flattened (reverse (buckets ix))) as Hdesc.
    { apply JSSet_of_list_NoDup. by rewrite flattened_reverse_Permutation. }
    rewrite JSSet_of_list_NoDup by done. split_and!; [done..|].
    intros Hshort. by rewrite Hdesc, reverse_flattened, reverse_all_short.
  - intros calls cur Hcur Hrun.
    destruct (lifecycle_tracks calls ∅ cur BTreeFieldIndex.new tracks_new Hcur)
      as (ix' & Hrun' & Htracks).
    rewrite Hrun in Hrun'. injection Hrun' as <-.
    assert (NoDup (flattened (buckets ix))) as Hnodup
      by by eapply tracks_NoDup_flattened.
    assert (StronglySorted (λ e e', Literals.compare e.1 e'.1 < 0)
              (BTreeFieldIndex.values ix)) as Hkeys.
    { apply sorted_StronglySorted. by destruct Htracks as [[] _ _]. }
    unfold BTree.entries, BTree.entriesReversed.
    split_and!.
    + done.
    + done.
    + by apply JSSet_of_list_NoDup.
    + exact (StronglySorted_reverse_flip _ _ Hkeys).
    + rewrite fmap_reverse. apply JSSet_of_list_NoDup.
      by rewrite flattened_reverse_Permutation.
Qed.

End Traversal_lifecycle.

(** ** References into the store *)
Section Store_facts.
Implicit Types (σ : list (list string)) (r : nat) (x : string).

Lemma deref_alter_eq (f : JSSet.t → JSSet.t) σ r :
  (r < length σ)%nat → Store.deref (alter f r σ) r = f (Store.deref σ r).
Proof.
  intros Hr. unfold Store.deref. rewrite list_lookup_alter_eq.
  destruct (lookup_lt_is_Some_2 σ r Hr) as [set ->]. done.
Qed.

Lemma deref_alter_ne (f : JSSet.t → JSSet.t) σ r r' :
  r ≠ r' → Store.deref (alter f r σ) r' = Store.deref σ r'.
Proof. intros Hr. unfold Store.deref. by rewrite list_lookup_alter_ne. Qed.

Lemma deref_app_l σ σ' r :
  (r < length σ)%nat → Store.deref (σ ++ σ') r = Store.deref σ r.
Proof. intros Hr. unfold Store.deref. by rewrite lookup_app_l. Qed.

Lemma JSSet_add_add x (s : JSSet.t) : JSSet.add x (JSSet.add x s) = JSSet.add x s.
Proof. apply JSSet_add_present, JSSet_elem_of_add. auto. Qed.

Lemma JSSet_delete_delete x (s : JSSet.t) :
  JSSet.delete x (JSSet.delete x s) = JSSet.delete x s.
Proof. apply JSSet_delete_absent. rewrite JSSet_elem_of_delete. tauto. Qed.

(** One or two calls of the same method on the object behind [r], with an
    allocation in between, as [add] and [delete] of the ordered value index
    make them. *)
Lemma deref_twice (f : JSSet.t → JSSet.t) σ σ' r r' :
  (∀ s, f (f s) = f s) → (r < length σ)%nat →
  Store.deref (alter f r' (alter f r σ ++ σ')) r = f (Store.deref σ r).
Proof.
  intros Hf Hr. destruct (decide (r' = r)) as [->|Hne].
  - rewrite deref_alter_eq, deref_app_l, deref_alter_eq, ?Hf;
      rewrite ?length_app, ?length_alter; (done || lia).
  - rewrite deref_alter_ne, deref_app_l, deref_alter_eq;
      rewrite ?length_alter; done.
Qed.

End Store_facts.

(** ** The store model refines the value model *)
Section Refinement.
Context {Literal : Type} `{Literals.Ops Literal}.
Implicit Types (σ : list (list string)) (r : nat) (id : string) (value : Literal).
Implicit Types ix : Store.BTreeFieldIndex.t Literal.

Local Abbreviation get := (BTree.get Literals.compare).
Local Abbreviation setIfNotPresent := (BTree.setIfNotPresent Literals.compare).
Local Abbreviation remove := (BTree.delete Literals.compare).
Local Abbreviation mutate := (BTree.mutate Literals.compare).

(** *** The sorted map under a change of its values *)

Lemma BTree_get_fmap {V W} (f : V → W) (tree : BTree.t Literal V) key :
  get (on_value f <$> tree) key = f <$> get tree key.
Proof.
  induction tree as [|[k0 v0] tree IH]; simpl; [done|]. search_step; done.
Qed.

Lemma BTree_setIfNotPresent_fmap {V W} (f : V → W) (tree : BTree.t Literal V) key v :
  on_value f <$> setIfNotPresent tree key v
  = setIfNotPresent (on_value f <$> tree) key (f v).
Proof.
  induction tree as [|[k0 v0] tree IH]; simpl; [done|].
  search_step; simpl; by f_equal.
Qed.

Lemma BTree_delete_fmap {V W} (f : V → W) (tree : BTree.t Literal V) key :
  on_value f <$> remove tree key = remove (on_value f <$> tree) key.
Proof.
  induction tree as [|[k0 v0] tree IH]; simpl; [done|].
  search_step; simpl; by f_equal.
Qed.

(** *** The references a map holds *)

Lemma BTree_refs_get (tree : BTree.t Literal nat) key r :
  get tree key = Some r → r ∈ tree.*2.
Proof.
  intros (k & Hk & _)%BTree_get_Some_elem_of. apply list_elem_of_fmap. by exists (k, r).
Qed.

Lemma BTree_refs_setIfNotPresent (tree : BTree.t Literal nat) key v r :
  r ∈ (setIfNotPresent tree key v).*2 → r = v ∨ r ∈ tree.*2.
Proof.
  rewrite !list_elem_of_fmap.
  intros ([k r'] & -> & [[= -> ->] | ?]%BTree_elem_of_setIfNotPresent); [by left|].
  right. by exists (k, r').
Qed.

Lemma BTree_refs_delete (tree : BTree.t Literal nat) key r :
  r ∈ (remove tree key).*2 → r ∈ tree.*2.
Proof.
  rewrite !list_elem_of_fmap. intros (e & -> & ?%BTree_elem_of_delete). by exists e.
Qed.

Lemma BTree_NoDup_setIfNotPresent (tree : BTree.t Literal nat) key v :
  v ∉ tree.*2 → NoDup tree.*2 → NoDup (setIfNotPresent tree key v).*2.
Proof.
  induction tree as [|[k0 r0] tree IH]; simpl.
  - intros _ _. apply NoDup_singleton.
  - rewrite not_elem_of_cons, NoDup_cons. intros [Hne Hv] [Hr0 Htree].
    search_step; simpl; rewrite ?NoDup_cons, ?not_elem_of_cons; [|by auto..].
    split; [|auto]. intros [-> | ?]%BTree_refs_setIfNotPresent; done.
Qed.

Lemma BTree_NoDup_delete (tree : BTree.t Literal nat) key :
  NoDup tree.*2 → NoDup (remove tree key).*2.
Proof.
  induction tree as [|[k0 r0] tree IH]; simpl; [done|].
  rewrite NoDup_cons. intros [Hr0 Htree].
  search_step; simpl; rewrite ?NoDup_cons; [|by auto..].
  split; [|auto]. by intros ?%BTree_refs_delete.
Qed.

(** *** Reading a map through the store *)

Lemma fmap_deref_ext σ σ' (tree : BTree.t Literal nat) :
  (∀ r, r ∈ tree.*2 → Store.deref σ' r = Store.deref σ r) →
  on_value (Store.deref σ') <$> tree = on_value (Store.deref σ) <$> tree.
Proof.
  intros Hsame. apply list_fmap_ext. intros i [k r] Hi.
  unfold on_value. simpl. f_equal. apply Hsame.
  apply list_elem_of_fmap. exists (k, r). split; [done|].
  by eapply list_elem_of_lookup_2.
Qed.

(** A method called on the bucket found for [key] changes that bucket of
    the map, and no other. *)
Lemma fmap_deref_mutate (g : JSSet.t → JSSet.t) σ (tree : BTree.t Literal nat) key r :
  get tree key = Some r → NoDup tree.*2 → (r < length σ)%nat →
  on_value (Store.deref (alter g r σ)) <$> tree
  = mutate (on_value (Store.deref σ) <$> tree) key g.
Proof.
  intros Hget Hnodup Hr.
  induction tree as [|[k0 r0] tree IH]; simpl in *; [done|].
  apply NoDup_cons in Hnodup as [Hr0 Hnodup].
  search_step; simpl.
  - f_equal; [|auto]. unfold on_value. simpl. f_equal.
    apply deref_alter_ne. intros ->. by apply BTree_refs_get in Hget.
  - done.
  - injection Hget as ->. f_equal.
    + unfold on_value. simpl. f_equal. by apply deref_alter_eq.
    + apply fmap_deref_ext. intros r' Hr'. apply deref_alter_ne.
      by intros ->.
Qed.

(** *** The constructor and the two mutating methods *)

Lemma separated_new :
  let '(ix, σ) :=
    Store.BTreeFieldIndex.new (Literal := Literal) Store.BTreeFieldIndex.initial in
  separated ix σ ∧ contents (ix, σ) = BTreeFieldIndex.new.
Proof.
  simpl. split; [|done].
  split; simpl; (done || lia || constructor || apply not_elem_of_nil).
Qed.

Lemma refine_add id value ix σ :
  separated ix σ →
  outcome_map contents (Store.BTreeFieldIndex.add id value ix σ)
  = BTreeFieldIndex.add id value (contents (ix, σ))
  ∧ ∀ ix' σ', Store.BTreeFieldIndex.add id value ix σ = Returned (ix', σ') →
              separated ix' σ'.
Proof.
  intros [Hp Hb Hd Hpb Hep Heb He].
  destruct ix as [present values scratch]. simpl in *.
  unfold Store.BTreeFieldIndex.add, BTreeFieldIndex.add, Store.new_Set,
    Store.Set_add. simpl.
  set (σ1 := alter (JSSet.add id) present σ).
  assert (length σ1 = length σ) as Hlen by apply length_alter.
  set (fresh := length σ1).
  set (values' := setIfNotPresent values value fresh).
  rewrite Forall_forall in Hb.
  assert (fresh ∉ values.*2) as Hfresh.
  { intros ?%Hb. unfold fresh in *. lia. }
  assert (NoDup values'.*2) as Hd' by by apply BTree_NoDup_setIfNotPresent.
  assert (∀ r, r ∈ values'.*2 → r ≠ present ∧ (r ≤ length σ)%nat
               ∧ r ≠ Store.BTreeFieldIndex.EMPTY_SET) as Hrefs.
  { intros r [-> | Hr]%BTree_refs_setIfNotPresent.
    - unfold fresh, Store.BTreeFieldIndex.EMPTY_SET in *. lia.
    - specialize (Hb _ Hr). simpl in Hb.
      split_and!; [by intros -> | lia | by intros ->]. }
  assert (on_value (Store.deref (σ1 ++ [JSSet.empty])) <$> values'
          = setIfNotPresent (on_value (Store.deref σ) <$> values) value
              JSSet.empty) as Hvalues.
  { unfold values'. rewrite BTree_setIfNotPresent_fmap. f_equal.
    - apply fmap_deref_ext. intros r Hr. specialize (Hb _ Hr). simpl in Hb.
      rewrite deref_app_l by lia. apply deref_alter_ne. by intros ->.
    - unfold Store.deref, fresh. by rewrite list_lookup_middle. }
  rewrite <- Hvalues, BTree_get_fmap.
  destruct (get values' value) as [set|] eqn:Hget; simpl.
  - destruct (Hrefs set) as (Hsp & Hsl & Hse); [by eapply BTree_refs_get|].
    split.
    + f_equal. f_equal.
      * rewrite deref_alter_ne, deref_app_l by (done || lia).
        by apply deref_alter_eq.
      * apply fmap_deref_mutate; [done..|]. rewrite length_app. simpl. lia.
    + intros ix' σ' [= <- <-].
      split; simpl; rewrite ?length_alter, ?length_app; simpl; try done.
      * lia.
      * apply Forall_forall. intros r Hr. destruct (Hrefs r Hr) as (_ & ? & _). lia.
      * intros Hin. by destruct (Hrefs present Hin) as (? & _).
      * intros Hin. by destruct (Hrefs _ Hin) as (_ & _ & ?).
      * unfold Store.BTreeFieldIndex.EMPTY_SET in *.
        rewrite deref_alter_ne, deref_app_l by (done || lia).
        unfold σ1. by rewrite deref_alter_ne.
  - split; [|done]. f_equal. f_equal.
    rewrite deref_app_l by lia. by apply deref_alter_eq.
Qed.

Lemma separated_delete_refs present values values' scratch value σ σ' :
  separated (Store.BTreeFieldIndex.mk present values scratch) σ →
  length σ' = length σ →
  Store.deref σ' Store.BTreeFieldIndex.EMPTY_SET = [] →
  (values' = values ∨ values' = remove values value) →
  separated (Store.BTreeFieldIndex.mk present values' scratch) σ'.
Proof.
  intros [Hp Hb Hd Hpb Hep Heb He] Hlen He' [-> | ->]; simpl in *.
  - split; simpl; rewrite ?Hlen; done.
  - split; simpl; rewrite ?Hlen; try done.
    + rewrite Forall_forall in *. intros r ?%BTree_refs_delete. auto.
    + by apply BTree_NoDup_delete.
    + by intros ?%BTree_refs_delete.
    + by intros ?%BTree_refs_delete.
Qed.

Lemma refine_delete id value ix σ :
  separated ix σ →
  outcome_map contents (Store.BTreeFieldIndex.delete id value ix σ)
  = BTreeFieldIndex.delete id value (contents (ix, σ))
  ∧ ∀ ix' σ', Store.BTreeFieldIndex.delete id value ix σ = Returned (ix', σ') →
              separated ix' σ'.
Proof.
  intros Hsep. pose proof Hsep as [Hp Hb Hd Hpb Hep Heb He].
  destruct ix as [present values scratch]. simpl in *.
  unfold Store.BTreeFieldIndex.delete, BTreeFieldIndex.delete,
    Store.Set_delete, Store.Set_size. simpl.
  set (σ1 := alter (JSSet.delete id) present σ).
  assert (length σ1 = length σ) as Hlen by apply length_alter.
  rewrite Forall_forall in Hb.
  assert (Store.deref σ1 present = JSSet.delete id (Store.deref σ present))
    as Hpresent by by apply deref_alter_eq.
  assert (on_value (Store.deref σ1) <$> values
          = on_value (Store.deref σ) <$> values) as Hvalues.
  { apply fmap_deref_ext. intros r Hr. apply deref_alter_ne. by intros ->. }
  assert (Store.deref σ1 Store.BTreeFieldIndex.EMPTY_SET = []) as He1.
  { unfold σ1. by rewrite deref_alter_ne. }
  rewrite BTree_get_fmap.
  destruct (get values value) as [set|] eqn:Hget; simpl.
  - pose proof (BTree_refs_get _ _ _ Hget) as Hset.
    assert (set ≠ present) as Hsp by by intros ->.
    assert (set ≠ Store.BTreeFieldIndex.EMPTY_SET) as Hse by by intros ->.
    specialize (Hb _ Hset). simpl in Hb.
    set (σ2 := alter (JSSet.delete id) set σ1).
    assert (Store.deref σ2 set = JSSet.delete id (Store.deref σ set)) as Hbucket.
    { unfold σ2. rewrite deref_alter_eq by lia. f_equal.
      unfold σ1. by rewrite deref_alter_ne. }
    assert (Store.deref σ2 present = JSSet.delete id (Store.deref σ present))
      as Hpresent2.
    { unfold σ2. by rewrite deref_alter_ne. }
    assert (on_value (Store.deref σ2) <$> values
            = mutate (on_value (Store.deref σ) <$> values) value
                (JSSet.delete id)) as Hvalues2.
    { unfold σ2. rewrite (fmap_deref_mutate _ _ _ value) by (done || lia).
      by rewrite Hvalues. }
    assert (Store.deref σ2 Store.BTreeFieldIndex.EMPTY_SET = []) as He2.
    { unfold σ2. by rewrite deref_alter_ne. }
    assert (length σ2 = length σ) as Hlen2.
    { unfold σ2. by rewrite length_alter. }
    rewrite Hbucket.
    destruct (JSSet.size (JSSet.delete id (Store.deref σ set)) =? 0); simpl.
    + split.
      * by rewrite Hpresent2, BTree_delete_fmap, Hvalues2.
      * intros ix' σ' [= <- <-].
        eapply (separated_delete_refs _ _ _ _ value); [done.. | by right].
    + split.
      * by rewrite Hpresent2, Hvalues2.
      * intros ix' σ' [= <- <-].
        eapply (separated_delete_refs _ _ _ _ value); [done.. | by left].
  - split.
    + by rewrite Hpresent, BTree_delete_fmap, Hvalues.
    + intros ix' σ' [= <- <-].
      eapply (separated_delete_refs _ _ _ _ value); [done.. | by right].
Qed.

(** Every run on the store is the run on the values it holds. *)
Lemma refine_replay (calls : list (FieldIndex.call Literal)) ix σ :
  separated ix σ →
  outcome_map contents (Store.BTreeFieldIndex.replay calls ix σ)
  = FieldIndex.replay calls (contents (ix, σ))
  ∧ ∀ ix' σ', Store.BTreeFieldIndex.replay calls ix σ = Returned (ix', σ') →
              separated ix' σ'.
Proof.
  revert ix σ. induction calls as [|[id value | id value] calls IH];
    intros ix σ Hsep;
    cbn [Store.BTreeFieldIndex.replay FieldIndex.replay FieldIndex.perform
         FieldIndex.add FieldIndex.delete BTreeFieldIndex_implements].
  - split; [done|]. by intros ix' σ' [= <- <-].
  - destruct (refine_add id value ix σ Hsep) as [Hadd Hsep'].
    rewrite <- Hadd.
    destruct (Store.BTreeFieldIndex.add id value ix σ) as [[ix1 σ1]|[ix1 σ1]];
      simpl; [|done].
    apply IH, Hsep'. done.
  - destruct (refine_delete id value ix σ Hsep) as [Hdel Hsep'].
    rewrite <- Hdel.
    destruct (Store.BTreeFieldIndex.delete id value ix σ) as [[ix1 σ1]|[ix1 σ1]];
      simpl; [|done].
    apply IH, Hsep'. done.
Qed.

(** *** The queries *)

Lemma refine_all ix σ :
  Store.deref σ (Store.BTreeFieldIndex.all ix) = BTreeFieldIndex.all (contents (ix, σ)).
Proof. done. Qed.

Lemma refine_equals value ix σ :
  separated ix σ →
  Store.deref σ <$> Store.BTreeFieldIndex.equals value ix
  = BTreeFieldIndex.equals value (contents (ix, σ)).
Proof.
  intros Hsep. unfold Store.BTreeFieldIndex.equals, BTreeFieldIndex.equals,
    BTree.get_or. simpl. rewrite BTree_get_fmap. f_equal.
  destruct (get _ value); simpl; [done|]. apply Hsep.
Qed.

Lemma flatMap_deref σ (tree : list (Literal * nat)) :
  JSArray.flatMap (Store.deref σ) tree.*2
  = JSArray.flatMap JSSet.to_list (on_value (Store.deref σ) <$> tree).*2.
Proof.
  unfold JSArray.flatMap, JSSet.to_list.
  induction tree as [|[k r] tree IH]; [done|].
  rewrite !fmap_cons, !bind_cons, IH. done.
Qed.

Lemma separated_alloc present (values : BTree.t Literal nat) scratch scratch' σ set :
  separated (Store.BTreeFieldIndex.mk present values scratch) σ →
  separated (Store.BTreeFieldIndex.mk present values scratch') (σ ++ [set])
  ∧ contents (Store.BTreeFieldIndex.mk present values scratch', σ ++ [set])
    = contents (Store.BTreeFieldIndex.mk present values scratch, σ).
Proof.
  intros [Hp Hb Hd Hpb Hep Heb He]. simpl in *.
  assert (0 < length σ)%nat as Hlen by lia.
  split.
  - split; simpl; rewrite ?length_app; simpl; try done.
    + lia.
    + eapply Forall_impl; [done|]. simpl. lia.
    + by rewrite deref_app_l.
  - f_equal.
    + by apply deref_app_l.
    + apply fmap_deref_ext. intros r Hr. rewrite Forall_forall in Hb.
      apply deref_app_l. by apply Hb.
Qed.

(** A traversal returns a new set with the ids the value model lists, and
    leaves the index as it is up to the scratch array. *)
Lemma refine_ascending ix σ :
  separated ix σ →
  let '(result, ix', σ') := Store.BTreeFieldIndex.ascending ix σ in
  Store.deref σ' result = BTreeFieldIndex.ascending (contents (ix, σ))
  ∧ contents (ix', σ') = contents (ix, σ)
  ∧ separated ix' σ'.
Proof.
  intros Hsep. destruct ix as [present values scratch].
  unfold Store.BTreeFieldIndex.ascending, Store.new_Set_of. simpl.
  destruct (separated_alloc present values scratch
              (Store.BTreeFieldIndex.scratch_after (BTree.entries values) scratch)
              σ
              (JSSet.of_list
                 (JSArray.flatMap (Store.deref σ)
                    (Store.BTreeFieldIndex.treeValuesIter (BTree.entries values))))
              Hsep) as [Hsep' Hcontents].
  split_and!; [|done..].
  unfold Store.deref at 1. rewrite list_lookup_middle by done.
  unfold BTreeFieldIndex.ascending, Store.BTreeFieldIndex.treeValuesIter,
    BTreeFieldIndex.treeValuesIter, BTree.entries.
  cbn [default contents BTreeFieldIndex.values Store.BTreeFieldIndex.values].
  by rewrite flatMap_deref.
Qed.

Lemma refine_descending ix σ :
  separated ix σ →
  let '(result, ix', σ') := Store.BTreeFieldIndex.descending ix σ in
  Store.deref σ' result = BTreeFieldIndex.descending (contents (ix, σ))
  ∧ contents (ix', σ') = contents (ix, σ)
  ∧ separated ix' σ'.
Proof.
  intros Hsep. destruct ix as [present values scratch].
  unfold Store.BTreeFieldIndex.descending, Store.new_Set_of. simpl.
  destruct (separated_alloc present values scratch
              (Store.BTreeFieldIndex.scratch_after
                 (BTree.entriesReversed values) scratch)
              σ
              (JSSet.of_list
                 (JSArray.flatMap (Store.deref σ)
                    (Store.BTreeFieldIndex.treeValuesIter
                       (BTree.entriesReversed values))))
              Hsep) as [Hsep' Hcontents].
  split_and!; [|done..].
  unfold Store.deref at 1. rewrite list_lookup_middle by done.
  unfold BTreeFieldIndex.descending, Store.BTreeFieldIndex.treeValuesIter,
    BTreeFieldIndex.treeValuesIter, BTree.entriesReversed.
  cbn [default contents BTreeFieldIndex.values Store.BTreeFieldIndex.values].
  by rewrite flatMap_deref, fmap_reverse.
Qed.

(** From the store of a freshly initialised class, the index of references
    holds at every moment the index of values of the same run. *)
Lemma store_refines_values (calls : list (FieldIndex.call Literal)) :
  outcome_map contents
    (let '(ix, σ) := Store.BTreeFieldIndex.new Store.BTreeFieldIndex.initial in
     Store.BTreeFieldIndex.replay calls ix σ)
  = FieldIndex.replay calls BTreeFieldIndex.new.
Proof.
  pose proof separated_new as Hnew.
  destruct (Store.BTreeFieldIndex.new Store.BTreeFieldIndex.initial) as [ix σ].
  destruct Hnew as [Hsep <-]. by apply refine_replay.
Qed.

Lemma SetFieldIndex_refine id value (ix : Store.SetFieldIndex.t) σ :
  (Store.SetFieldIndex.present ix < length σ)%nat →
  outcome_map SetFieldIndex_contents (Store.SetFieldIndex.add id value ix σ)
  = SetFieldIndex.add id value (SetFieldIndex_contents (ix, σ))
  ∧ outcome_map SetFieldIndex_contents (Store.SetFieldIndex.delete id value ix σ)
    = SetFieldIndex.delete id value (SetFieldIndex_contents (ix, σ)).
Proof.
  intros Hp. unfold Store.SetFieldIndex.add, Store.SetFieldIndex.delete,
    SetFieldIndex.add, SetFieldIndex.delete, Store.Set_add, Store.Set_delete.
  simpl. by rewrite !deref_alter_eq.
Qed.

End Refinement.

(** ** [all()] hands out the set itself *)
Section Live_reference.
Context {Literal : Type} `{Literals.Laws Literal}.
Implicit Types (σ : list (list string)) (id : string) (value : Literal).

(** C10. [all()] of a [SetFieldIndex] and of a [BTreeFieldIndex] returns a
    reference to the [present] set: read through the reference obtained
    before, the set contains [id] after a later [add(id, v)] and does not
    contain it after a later [delete(id, v)], and [all()] still returns the
    same reference. *)
Theorem all_returns_live_reference σ id value :
  (∀ ix : Store.SetFieldIndex.t,
     (Store.SetFieldIndex.all ix < length σ)%nat →
     (∃ ix' σ',
        Store.SetFieldIndex.add id value ix σ = Returned (ix', σ')
        ∧ Store.SetFieldIndex.all ix' = Store.SetFieldIndex.all ix
        ∧ id ∈ Store.deref σ' (Store.SetFieldIndex.all ix)
        ∧ Store.deref σ' (Store.SetFieldIndex.all ix)
          = JSSet.add id (Store.deref σ (Store.SetFieldIndex.all ix)))
     ∧ (∃ ix' σ',
          Store.SetFieldIndex.delete id value ix σ = Returned (ix', σ')
          ∧ Store.SetFieldIndex.all ix' = Store.SetFieldIndex.all ix
          ∧ (id ∉ Store.deref σ' (Store.SetFieldIndex.all ix))
          ∧ Store.deref σ' (Store.SetFieldIndex.all ix)
            = JSSet.delete id (Store.deref σ (Store.SetFieldIndex.all ix))))
  ∧ (∀ ix : Store.BTreeFieldIndex.t Literal,
       (Store.BTreeFieldIndex.all ix < length σ)%nat →
       (∃ ix' σ',
          Store.BTreeFieldIndex.add id value ix σ = Returned (ix', σ')
          ∧ Store.BTreeFieldIndex.all ix' = Store.BTreeFieldIndex.all ix
          ∧ id ∈ Store.deref σ' (Store.BTreeFieldIndex.all ix)
          ∧ Store.deref σ' (Store.BTreeFieldIndex.all ix)
            = JSSet.add id (Store.deref σ (Store.BTreeFieldIndex.all ix)))
       ∧ (∃ ix' σ',
            Store.BTreeFieldIndex.delete id value ix σ = Returned (ix', σ')
            ∧ Store.BTreeFieldIndex.all ix' = Store.BTreeFieldIndex.all ix
            ∧ (id ∉ Store.deref σ' (Store.BTreeFieldIndex.all ix))
            ∧ Store.deref σ' (Store.BTreeFieldIndex.all ix)
              = JSSet.delete id (Store.deref σ (Store.BTreeFieldIndex.all ix)))).
Proof.
  assert (∀ s : JSSet.t, id ∈ JSSet.add id s) as Hadd
    by (intros s; apply JSSet_elem_of_add; auto).
  assert (∀ s : JSSet.t, id ∉ JSSet.delete id s) as Hdel
    by (intros s; rewrite JSSet_elem_of_delete; tauto).
  split.
  - intros [present]. unfold Store.SetFieldIndex.all. simpl. intros Hr.
    split; eexists _, _; (split; [reflexivity|]); simpl;
      unfold Store.Set_add, Store.Set_delete; rewrite deref_alter_eq by done;
      auto.
  - intros [present values scratch]. unfold Store.BTreeFieldIndex.all. simpl.
    intros Hr. split.
    + unfold Store.BTreeFieldIndex.add, Store.new_Set. simpl.
      rewrite BTree_get_setIfNotPresent. eexists _, _. split; [reflexivity|]. simpl.
      unfold Store.Set_add. rewrite deref_twice by (done || apply JSSet_add_add).
      auto.
    + unfold Store.BTreeFieldIndex.delete. simpl.
      destruct (BTree.get Literals.compare values value) as [set|].
      * assert (Store.deref
                  (Store.Set_delete set id (Store.Set_delete present id σ)) present
                = JSSet.delete id (Store.deref σ present)) as Hread.
        { unfold Store.Set_delete.
          rewrite <- (app_nil_r (alter _ present σ)).
          by rewrite deref_twice by (done || apply JSSet_delete_delete). }
        destruct (_ =? 0); eexists _, _; (split; [reflexivity|]); simpl;
          rewrite Hread; auto.
      * eexists _, _. split; [reflexivity|]. simpl.
        unfold Store.Set_delete. rewrite deref_alter_eq by done. auto.
Qed.

End Live_reference.

(** ** The scenarios of the specification, run *)
Section Scenarios.
Import Sample.
Local Open Scope string_scope.

Lemma well_formed_one_pair : well_formed Scenario.one_pair.
Proof.
  split; simpl; repeat constructor; (done || set_solver).
Qed.

(** C5. From an empty ordered value index, [add("p1", 5)], [add("p2", 3)],
    [add("p3", 5)] give [ascending()] = p2, p1, p3, one of the two orders
    the specification allows, and [equals(5)] = {p1, p3}.  With the sets in
    the store: a second call of [ascending()] returns a set with the
    contents of the first, and [equals(5)] returns the bucket of 5. *)
Theorem scenario_p1_p2_p3 :
  FieldIndex.replay Scenario.calls BTreeFieldIndex.new = Returned Scenario.index
  ∧ (BTreeFieldIndex.ascending Scenario.index = ["p2"; "p1"; "p3"]
     ∨ BTreeFieldIndex.ascending Scenario.index = ["p2"; "p3"; "p1"])
  ∧ BTreeFieldIndex.equals (LNumber 5) Scenario.index = Some ["p1"; "p3"]
  ∧ ∃ ix σ,
      (let '(ix0, σ0) := Store.BTreeFieldIndex.new Store.BTreeFieldIndex.initial in
       Store.BTreeFieldIndex.replay Scenario.calls ix0 σ0) = Returned (ix, σ)
      ∧ (let '(first, ix1, σ1) := Store.BTreeFieldIndex.ascending ix σ in
         let '(second, ix2, σ2) := Store.BTreeFieldIndex.ascending ix1 σ1 in
         Store.deref σ2 first = ["p2"; "p1"; "p3"]
         ∧ Store.deref σ2 second = Store.deref σ2 first
         ∧ Store.deref σ2 <$> Store.BTreeFieldIndex.equals (LNumber 5) ix2
           = Some ["p1"; "p3"]).
Proof.
  split; [vm_compute; reflexivity|].
  split; [left; vm_compute; reflexivity|].
  split; [vm_compute; reflexivity|].
  eexists _, _. split; [vm_compute; reflexivity|].
  vm_compute. done.
Qed.

(** C1 fails as stated: after the scenario, [descending()] is p1, p3, p2,
    which is not the reverse p3, p1, p2 of [ascending()]; the bucket of 5
    keeps its insertion order in both traversals. *)
Lemma descending_is_not_ascending_reversed :
  FieldIndex.replay Scenario.calls BTreeFieldIndex.new = Returned Scenario.index
  ∧ BTreeFieldIndex.ascending Scenario.index = ["p2"; "p1"; "p3"]
  ∧ BTreeFieldIndex.descending Scenario.index = ["p1"; "p3"; "p2"]
  ∧ BTreeFieldIndex.descending Scenario.index
    ≠ reverse (BTreeFieldIndex.ascending Scenario.index).
Proof. vm_compute. split_and!; done. Qed.

Lemma ascending_descending_buckets_witness :
  lifecycle ∅ Scenario.two_calls = Some Scenario.two_current
  ∧ FieldIndex.replay Scenario.two_calls BTreeFieldIndex.new
    = Returned Scenario.two_pairs
  ∧ NoDup (flattened (buckets Scenario.two_pairs))
  ∧ StronglySorted (λ e e', Literals.compare e.1 e'.1 < 0)
      (BTree.entries (BTreeFieldIndex.values Scenario.two_pairs))
  ∧ Forall (λ set : JSSet.t, (length set ≤ 1)%nat) (buckets Scenario.two_pairs)
  ∧ BTreeFieldIndex.descending Scenario.two_pairs
    = reverse (BTreeFieldIndex.ascending Scenario.two_pairs).
Proof.
  assert (lifecycle ∅ Scenario.two_calls = Some Scenario.two_current) as Hcur
    by (vm_compute; reflexivity).
  assert (FieldIndex.replay Scenario.two_calls BTreeFieldIndex.new
          = Returned Scenario.two_pairs) as Hrun by reflexivity.
  assert (Forall (λ set : JSSet.t, (length set ≤ 1)%nat)
            (buckets Scenario.two_pairs)) as Hshort by repeat constructor.
  destruct (ascending_descending_buckets Scenario.two_pairs)
    as (_ & Hbuckets & Hreached).
  destruct (Hreached Scenario.two_calls Scenario.two_current Hcur Hrun)
    as (Hnodup & Hkeys & _).
  split_and!; [done..|]. by apply Hbuckets.
Defined.

Lemma BTreeFieldIndex_equals_supported_witness :
  FieldIndex.replay [FieldIndex.Add "p1" (LNumber 5)] BTreeFieldIndex.new
  = Returned Scenario.one_pair
  ∧ never_indexed (LNumber 3) [FieldIndex.Add "p1" (LNumber 5)]
  ∧ BTreeFieldIndex.equals (LNumber 3) Scenario.one_pair = Some [].
Proof.
  assert (never_indexed (LNumber 3) [FieldIndex.Add "p1" (LNumber 5)]) as Hnever.
  { repeat constructor. }
  split_and!; [reflexivity | done |].
  apply (proj2 (BTreeFieldIndex_equals_supported Scenario.one_pair (LNumber 3))
           [FieldIndex.Add "p1" (LNumber 5)]); [reflexivity | done].
Defined.

(** C3 fails as stated: the pair ("p1", 3) was never added, yet
    [delete("p1", 3)] takes p1 out of [all()], on the ordered value index
    (where p1 stays in the bucket of 5) and on the presence index. *)
Lemma delete_of_other_value_changes_all :
  (FieldIndex.Add "p1" (LNumber 3) ∉ [FieldIndex.Add "p1" (LNumber 5)])
  ∧ FieldIndex.replay [FieldIndex.Add "p1" (LNumber 5)] BTreeFieldIndex.new
    = Returned Scenario.one_pair
  ∧ BTreeFieldIndex.all Scenario.one_pair = ["p1"]
  ∧ BTreeFieldIndex.delete "p1" (LNumber 3) Scenario.one_pair
    = Returned {| BTreeFieldIndex.present := [];
                  BTreeFieldIndex.values := [(LNumber 5, ["p1"])] |}
  ∧ BTreeFieldIndex.delete "p1" (LNumber 3) Scenario.one_pair
    ≠ Returned Scenario.one_pair
  ∧ FieldIndex.replay [FieldIndex.Add "p1" (LNumber 5)] SetFieldIndex.new
    = Returned (SetFieldIndex.mk ["p1"])
  ∧ SetFieldIndex.delete "p1" (LNumber 3) (SetFieldIndex.mk ["p1"])
    = Returned (SetFieldIndex.mk []).
Proof.
  split; [|vm_compute; split_and!; done].
  intros [[=] | []%elem_of_nil]%elem_of_cons.
Qed.

Lemma delete_of_pair_never_added_witness :
  pair_never_added "p2" (LNumber 5) Scenario.calls
  ∧ FieldIndex.replay Scenario.calls BTreeFieldIndex.new = Returned Scenario.index
  ∧ FieldIndex.delete "p2" (LNumber 5) Scenario.index
    = Returned
        {| BTreeFieldIndex.present :=
             JSSet.delete "p2" (BTreeFieldIndex.all Scenario.index);
           BTreeFieldIndex.values := BTreeFieldIndex.values Scenario.index |}.
Proof.
  assert (pair_never_added "p2" (LNumber 5) Scenario.calls) as Hpair
    by repeat constructor.
  split_and!; [done | reflexivity |].
  destruct (delete_of_pair_never_added Scenario.calls "p2" (LNumber 5))
    as (_ & _ & Hdelete).
  destruct (Hdelete Hpair) as (_ & state & Hrun & Hstate & _).
  vm_compute in Hrun. injection Hrun as <-. exact Hstate.
Defined.

Lemma lifecycle_invariant_witness :
  lifecycle ∅ Scenario.calls = Some Scenario.current
  ∧ invariant Scenario.current Scenario.index.
Proof.
  assert (lifecycle ∅ Scenario.calls = Some Scenario.current) as Hrun
    by (vm_compute; reflexivity).
  split; [done|].
  destruct (lifecycle_invariant Scenario.calls Scenario.current Hrun)
    as (ix & Hreplay & Hinv).
  vm_compute in Hreplay. injection Hreplay as <-. exact Hinv.
Defined.

(** C4 fails as stated.  The run [add("p1", 5)], [delete("p1", 3)] adds no
    new value for an id that still has its old pair, so it obeys the
    discipline the claim words; [delete] takes p1 out of [present] and finds
    no bucket of 3 to take it out of, so p1 stays in the bucket of 5: it is
    in exactly one bucket and not in [present], whatever the current values
    are taken to be. *)
Lemma delete_under_other_value_breaks_invariant :
  is_Some (old_pair_deleted_first ∅ Samples.other_value_calls)
  ∧ lifecycle ∅ Samples.other_value_calls = None
  ∧ FieldIndex.replay Samples.other_value_calls BTreeFieldIndex.new
    = Returned Samples.orphaned
  ∧ occurrences "p1" Samples.orphaned = 1%nat
  ∧ ("p1" ∉ BTreeFieldIndex.present Samples.orphaned)
  ∧ ∀ cur, ¬ invariant cur Samples.orphaned.
Proof.
  assert (occurrences "p1" Samples.orphaned = 1%nat) as Hone
    by (vm_compute; reflexivity).
  assert ("p1" ∉ BTreeFieldIndex.present Samples.orphaned) as Habsent
    by apply not_elem_of_nil.
  split_and!.
  - eexists. vm_compute. reflexivity.
  - vm_compute. reflexivity.
  - reflexivity.
  - done.
  - done.
  - intros cur [_ Hpresent _]. by apply Habsent, Hpresent.
Qed.

(** C6 fails as stated: with p1 under 5, after [add("p3", 5)] then
    [delete("p3", 5)] the index is as before and [equals(5)] is {p1}, not
    empty. *)
Lemma round_trip_leaves_other_ids :
  FieldIndex.replay [FieldIndex.Add "p1" (LNumber 5)] BTreeFieldIndex.new
  = Returned Scenario.one_pair
  ∧ BTreeFieldIndex.add "p3" (LNumber 5) Scenario.one_pair
    = Returned {| BTreeFieldIndex.present := ["p1"; "p3"];
                  BTreeFieldIndex.values := [(LNumber 5, ["p1"; "p3"])] |}
  ∧ BTreeFieldIndex.delete "p3" (LNumber 5)
      {| BTreeFieldIndex.present := ["p1"; "p3"];
         BTreeFieldIndex.values := [(LNumber 5, ["p1"; "p3"])] |}
    = Returned Scenario.one_pair
  ∧ BTreeFieldIndex.equals (LNumber 5) Scenario.one_pair = Some ["p1"]
  ∧ BTreeFieldIndex.equals (LNumber 5) Scenario.one_pair ≠ Some [].
Proof. vm_compute. split_and!; done. Qed.

Lemma add_then_delete_round_trip_witness :
  well_formed Scenario.one_pair
  ∧ ∃ ix1 ix2,
      BTreeFieldIndex.add "p3" (LNumber 5) Scenario.one_pair = Returned ix1
      ∧ BTreeFieldIndex.delete "p3" (LNumber 5) ix1 = Returned ix2
      ∧ ("p3" ∉ BTreeFieldIndex.all ix2)
      ∧ BTreeFieldIndex.equals (LNumber 5) ix2
        = Some (JSSet.delete "p3" (bucket Scenario.one_pair (LNumber 5)))
      ∧ (BTreeFieldIndex.equals (LNumber 5) ix2 = Some [] ↔
         ∀ other, other ∈ bucket Scenario.one_pair (LNumber 5) → other = "p3").
Proof.
  split; [apply well_formed_one_pair|].
  apply (add_then_delete_round_trip Scenario.one_pair "p3" (LNumber 5)).
  apply well_formed_one_pair.
Defined.

(** C7 fails as stated: p1 is added twice and deleted once, so its adds
    exceed its deletes, and [all()] is empty on both indices. *)
Lemma added_twice_deleted_once_is_absent :
  add_count "p1" Scenario.added_twice = 2
  ∧ delete_count "p1" Scenario.added_twice = 1
  ∧ FieldIndex.replay Scenario.added_twice SetFieldIndex.new
    = Returned (SetFieldIndex.mk [])
  ∧ FieldIndex.replay Scenario.added_twice BTreeFieldIndex.new
    = Returned {| BTreeFieldIndex.present := []; BTreeFieldIndex.values := [] |}.
Proof. vm_compute. split_and!; done. Qed.

Lemma all_after_replay_witness :
  is_Some (alternates ∅ Scenario.calls)
  ∧ ("p1" ∈ BTreeFieldIndex.all Scenario.index ↔
     delete_count "p1" Scenario.calls < add_count "p1" Scenario.calls).
Proof.
  assert (is_Some (alternates ∅ Scenario.calls)) as Halt.
  { vm_compute. eexists. reflexivity. }
  split; [done|].
  destruct (all_after_replay Scenario.calls "p1")
    as (presence & ordered & _ & Hrun & _ & _ & Hcounts).
  vm_compute in Hrun. injection Hrun as <-.
  by apply Hcounts.
Defined.

Lemma all_returns_live_reference_witness :
  (1 < length [[]; ["p1"]])%nat
  ∧ ∃ ix' σ',
      Store.BTreeFieldIndex.add "p2" (LNumber 3)
        (Store.BTreeFieldIndex.mk 1%nat [] None) [[]; ["p1"]]
      = Returned (ix', σ')
      ∧ Store.BTreeFieldIndex.all ix' = 1%nat
      ∧ "p2" ∈ Store.deref σ' 1
      ∧ Store.deref σ' 1 = JSSet.add "p2" (Store.deref [[]; ["p1"]] 1).
Proof.
  assert (1 < length [[]; ["p1"]])%nat as Hr by (simpl; lia).
  split; [done|].
  destruct (all_returns_live_reference [[]; ["p1"]] "p2" (LNumber 3))
    as [_ Hordered].
  destruct (Hordered (Store.BTreeFieldIndex.mk 1%nat [] None) Hr) as [Hadd _].
  exact Hadd.
Defined.

End Scenarios.

(** * Further properties of the code *)

(** ** What the traversals list, and in which order *)
Section Traversal_order.
Context {Literal : Type} `{Literals.Laws Literal}.
Implicit Types (ix : BTreeFieldIndex.t Literal) (id : string).
Implicit Types (cur : gmap string Literal).

Lemma StronglySorted_related {A} (R : relation A) (l : list A) :
  (∀ a b, a ∈ l → b ∈ l → R a b) → StronglySorted R l.
Proof.
  induction l as [|x l IH]; intros Hall; constructor.
  - apply IH. intros a b ??. apply Hall; by right.
  - apply Forall_forall. intros b ?. apply Hall; [left | by right].
Qed.

Lemma StronglySorted_weaken {A} (R R' : relation A) (l : list A) :
  (∀ a b, R a b → R' a b) → StronglySorted R l → StronglySorted R' l.
Proof.
  intros HR. induction 1 as [|x l Hl IH Hx]; constructor; [done|].
  eapply Forall_impl; [done|]. auto.
Qed.

(** Sets that are sorted among themselves, each of related elements, are
    sorted when flattened. *)
Lemma StronglySorted_flattened (R : relation string) (sets : list JSSet.t) :
  Forall (λ set : JSSet.t, ∀ a b, a ∈ set → b ∈ set → R a b) sets →
  StronglySorted (λ s s' : JSSet.t, ∀ a b, a ∈ s → b ∈ s' → R a b) sets →
  StronglySorted R (flattened sets).
Proof.
  intros Hwithin Hacross. unfold flattened, JSArray.flatMap, JSSet.to_list.
  induction Hacross as [|set sets Hsets IH Hset]; [constructor|].
  apply Forall_cons_1 in Hwithin as [Hin Hwithin].
  rewrite bind_cons. apply StronglySorted_app_2.
  - intros a b Ha (set' & Hb & Hset')%list_elem_of_bind.
    rewrite Forall_forall in Hset. by apply (Hset set').
  - by apply StronglySorted_related.
  - by apply IH.
Qed.

Lemma sorted_buckets_ascend cur (tree : BTree.t Literal JSSet.t) :
  sorted tree →
  (∀ k s id, (k, s) ∈ tree → id ∈ s →
     ∃ current, cur !! id = Some current ∧ Literals.compare current k = 0) →
  Forall (λ set : JSSet.t, ∀ a b, a ∈ set → b ∈ set → ascends cur a b) tree.*2
  ∧ StronglySorted
      (λ s s' : JSSet.t, ∀ a b, a ∈ s → b ∈ s' → ascends cur a b) tree.*2.
Proof.
  induction tree as [|[k0 s0] tree IH]; [by repeat constructor|].
  intros [Hlt Hs] Hcur. rewrite fmap_cons.
  destruct IH as [IHin IHacross]; [done | |].
  { intros k s id ?. apply Hcur. by right. }
  split; constructor; try done.
  - simpl. intros a b Ha Hb.
    destruct (Hcur k0 s0 a) as (ca & Hca & Hka); [left | done |].
    destruct (Hcur k0 s0 b) as (cb & Hcb & Hkb); [left | done |].
    exists ca, cb. split_and!; [done..|].
    apply compare_flip_0 in Hkb. pose proof (compare_0_trans _ _ _ Hka Hkb). lia.
  - apply Forall_forall. intros s Hs'. simpl. intros a b Ha Hb.
    apply list_elem_of_fmap in Hs' as ([k s'] & -> & Hks). simpl in Hb.
    destruct (Hcur k0 s0 a) as (ca & Hca & Hka); [left | done |].
    destruct (Hcur k s' b) as (cb & Hcb & Hkb); [by right | done |].
    exists ca, cb. split_and!; [done..|].
    rewrite Forall_forall in Hlt. specialize (Hlt _ Hks). simpl in Hlt.
    apply compare_flip_0 in Hkb.
    pose proof (compare_0_neg _ _ _ Hka Hlt) as Hlt'.
    pose proof (compare_neg_0 _ _ _ Hlt' Hkb). lia.
Qed.

Lemma tracks_entry cur ix k s id :
  tracks cur ix → (k, s) ∈ BTreeFieldIndex.values ix → id ∈ s →
  ∃ current, cur !! id = Some current ∧ Literals.compare current k = 0.
Proof.
  intros [Hwf _ Hb] Hks Hid. apply Hb. unfold bucket, BTree.get_or.
  rewrite (BTree_elem_of_get_Some _ k k s); [done | apply Hwf | done |].
  apply compare_refl.
Qed.

(** X1. In every state [ascending()] and [descending()] hold each id at
    most once, and exactly the ids that sit in some bucket, also when an id
    sits in several. *)
Theorem traversals_hold_bucket_members_once ix :
  NoDup (BTreeFieldIndex.ascending ix)
  ∧ NoDup (BTreeFieldIndex.descending ix)
  ∧ ∀ id,
      (id ∈ BTreeFieldIndex.ascending ix ↔ member id ix)
      ∧ (id ∈ BTreeFieldIndex.descending ix ↔ member id ix).
Proof.
  rewrite ascending_buckets, descending_buckets.
  split_and!; [apply JSSet_NoDup_of_list..|].
  intros id. rewrite !JSSet_elem_of_of_list, flattened_reverse_Permutation.
  by rewrite elem_of_flattened.
Qed.

(** X2. After a run from the empty index that follows the lifecycle,
    [ascending()] and [descending()] are rearrangements of [all()]: every id
    of [all()] exactly once, and nothing else. *)
Theorem traversals_rearrange_all (calls : list (FieldIndex.call Literal)) cur :
  lifecycle ∅ calls = Some cur →
  ∃ ix,
    FieldIndex.replay calls BTreeFieldIndex.new = Returned ix
    ∧ BTreeFieldIndex.ascending ix ≡ₚ BTreeFieldIndex.all ix
    ∧ BTreeFieldIndex.descending ix ≡ₚ BTreeFieldIndex.all ix.
Proof.
  intros Hcur.
  destruct (lifecycle_tracks calls ∅ cur BTreeFieldIndex.new tracks_new Hcur)
    as (ix & Hrun & Htracks).
  exists ix. split; [done|].
  rewrite ascending_buckets, descending_buckets.
  assert (∀ id, id ∈ flattened (buckets ix) ↔ id ∈ BTreeFieldIndex.all ix)
    as Hsame.
  { intros id. rewrite elem_of_flattened. unfold BTreeFieldIndex.all.
    rewrite (tracks_present _ _ Htracks). split.
    - by apply (tracks_member cur ix).
    - intros [current Hcurrent].
      assert (id ∈ bucket ix current) as Hin.
      { apply (tracks_bucket _ _ Htracks). exists current.
        split; [done | apply compare_refl]. }
      unfold bucket, BTree.get_or in Hin.
      destruct (BTree.get _ _ current) as [set|] eqn:Hget;
        [|by apply elem_of_nil in Hin].
      exists set. split; [|done].
      apply BTree_get_Some_elem_of in Hget as (k & Hk & _).
      apply list_elem_of_fmap. by exists (k, set). }
  assert (NoDup (flattened (buckets ix))) as Hnodup
    by by eapply tracks_NoDup_flattened.
  assert (flattened (buckets ix) ≡ₚ BTreeFieldIndex.all ix) as Hperm.
  { apply NoDup_Permutation; [done | apply Htracks | done]. }
  split.
  - by rewrite JSSet_of_list_NoDup.
  - rewrite JSSet_of_list_NoDup by by rewrite flattened_reverse_Permutation.
    by rewrite flattened_reverse_Permutation.
Qed.

(** X3. After a run from the empty index that follows the lifecycle,
    [ascending()] lists the ids by ascending current value and
    [descending()] by descending current value: of two ids, the one listed
    first never has the greater (in [descending()]: the lower) value. *)
Theorem traversals_sorted_by_value (calls : list (FieldIndex.call Literal)) cur :
  lifecycle ∅ calls = Some cur →
  ∃ ix,
    FieldIndex.replay calls BTreeFieldIndex.new = Returned ix
    ∧ StronglySorted (ascends cur) (BTreeFieldIndex.ascending ix)
    ∧ StronglySorted (flip (ascends cur)) (BTreeFieldIndex.descending ix).
Proof.
  intros Hcur.
  destruct (lifecycle_tracks calls ∅ cur BTreeFieldIndex.new tracks_new Hcur)
    as (ix & Hrun & Htracks).
  exists ix. split; [done|].
  rewrite ascending_buckets, descending_buckets.
  assert (NoDup (flattened (buckets ix))) as Hnodup
    by by eapply tracks_NoDup_flattened.
  destruct (sorted_buckets_ascend cur (BTreeFieldIndex.values ix))
    as [Hwithin Hacross]; [apply Htracks | |].
  { intros k s id. by apply tracks_entry. }
  split.
  - rewrite JSSet_of_list_NoDup by done. by apply StronglySorted_flattened.
  - rewrite JSSet_of_list_NoDup by by rewrite flattened_reverse_Permutation.
    apply StronglySorted_flattened.
    + apply Forall_reverse. eapply Forall_impl; [done|]. simpl.
      intros set Hset a b ??. by apply Hset.
    + apply StronglySorted_reverse_flip in Hacross.
      eapply StronglySorted_weaken; [|done]. intros s s' Hflip a b ??.
      by apply Hflip.
Qed.

End Traversal_order.

(** ** Single calls and arbitrary runs on the ordered value index *)
Section Index_steps.
Context {Literal : Type} `{Literals.Laws Literal}.
Implicit Types (ix : BTreeFieldIndex.t Literal) (id : string) (value : Literal).
Implicit Types (calls : list (FieldIndex.call Literal)).

Local Abbreviation get := (BTree.get Literals.compare).

Lemma bucket_add_any id value ix ix' v :
  BTreeFieldIndex.add id value ix = Returned ix' →
  bucket ix' v
  = if Literals.compare value v =? 0 then JSSet.add id (bucket ix v)
    else bucket ix v.
Proof.
  intros Hadd. destruct (Z.eqb_spec (Literals.compare value v) 0) as [Hv|Hv].
  - rewrite <- (bucket_congruent ix' value v Hv), (bucket_add _ _ _ _ Hadd).
    by rewrite (bucket_congruent ix value v Hv).
  - by apply (bucket_add_other id value).
Qed.

Lemma bucket_delete_any id value ix ix' v :
  well_formed ix → BTreeFieldIndex.delete id value ix = Returned ix' →
  bucket ix' v
  = if Literals.compare value v =? 0 then JSSet.delete id (bucket ix v)
    else bucket ix v.
Proof.
  intros Hwf Hdel. destruct (Z.eqb_spec (Literals.compare value v) 0) as [Hv|Hv].
  - rewrite <- (bucket_congruent ix' value v Hv), (bucket_delete _ _ _ _ Hwf Hdel).
    by rewrite (bucket_congruent ix value v Hv).
  - by apply (bucket_delete_other id value).
Qed.

(** In a well-formed index the ids that sit in some bucket are those in the
    bucket of some value. *)
Lemma member_bucket ix id :
  well_formed ix → member id ix ↔ ∃ v, id ∈ bucket ix v.
Proof.
  intros Hwf. split.
  - intros (set & Hset & Hid).
    apply list_elem_of_fmap in Hset as ([k s] & -> & Hks). exists k.
    unfold bucket, BTree.get_or.
    rewrite (BTree_elem_of_get_Some _ k k s); [done | apply Hwf | done |].
    apply compare_refl.
  - intros (v & Hin). unfold bucket, BTree.get_or in Hin.
    destruct (get _ v) as [set|] eqn:Hget; [|by apply elem_of_nil in Hin].
    apply BTree_get_Some_elem_of in Hget as (k & Hk & _).
    exists set. split; [|done]. apply list_elem_of_fmap. by exists (k, set).
Qed.

(** X4. When [Literals.compare] obeys the comparator contract, under which
    every value compares equal to itself, every run of [add] and [delete]
    calls from the empty index returns, whether or not it follows the
    lifecycle: [add] then finds the bucket it has just ensured.  The state
    reached has its keys in strictly ascending order, no empty bucket, and
    no id twice in [present] or in a bucket. *)
Theorem runs_return_well_formed calls :
  ∃ ix,
    FieldIndex.replay calls (BTreeFieldIndex.new (Literal := Literal)) = Returned ix
    ∧ well_formed ix.
Proof. apply replay_well_formed, well_formed_new. Qed.

(** X5. [delete(id, value)] is idempotent on a well-formed index: a second
    call right after the first changes nothing. *)
Theorem delete_twice_is_delete_once id value ix :
  well_formed ix →
  ∃ ix',
    BTreeFieldIndex.delete id value ix = Returned ix'
    ∧ BTreeFieldIndex.delete id value ix' = Returned ix'.
Proof.
  intros Hwf.
  destruct (BTreeFieldIndex.delete id value ix) as [ix'|] eqn:Hdel;
    [|by rewrite delete_Returned in Hdel].
  exists ix'. split; [done|].
  assert (well_formed ix') as Hwf' by by eapply well_formed_delete.
  rewrite delete_pair_absent; [|done|].
  - rewrite delete_Returned in Hdel. injection Hdel as <-. simpl.
    by rewrite JSSet_delete_delete.
  - rewrite (bucket_delete _ _ _ _ Hwf Hdel), JSSet_elem_of_delete. tauto.
Qed.

(** X6. [add(id, value)] is idempotent: a second call right after the first
    changes nothing, in particular it creates no second entry for [id] in
    the bucket. *)
Theorem add_twice_is_add_once id value ix :
  ∃ ix',
    BTreeFieldIndex.add id value ix = Returned ix'
    ∧ BTreeFieldIndex.add id value ix' = Returned ix'.
Proof.
  eexists. split; [apply add_Returned|]. rewrite add_Returned. simpl.
  rewrite JSSet_add_add. do 2 f_equal.
  set (tree := BTree.mutate Literals.compare
                 (BTree.setIfNotPresent Literals.compare (BTreeFieldIndex.values ix)
                    value JSSet.empty) value (JSSet.add id)).
  assert (get tree value
          = Some (JSSet.add id
                    (default JSSet.empty (get (BTreeFieldIndex.values ix) value))))
    as Hget by (unfold tree; by rewrite BTree_get_mutate, BTree_get_setIfNotPresent).
  clearbody tree.
  rewrite (BTree_setIfNotPresent_present _ _ _ _ Hget).
  eapply BTree_mutate_same; [done | apply JSSet_add_add].
Qed.

(** X7. After [add(id, value)], [equals(v)] is the former bucket of [v] with
    [id] added when [v] compares equal to [value], and the former bucket of
    [v], unchanged, for every other [v]. *)
Theorem equals_after_add id value ix :
  ∃ ix',
    BTreeFieldIndex.add id value ix = Returned ix'
    ∧ ∀ v,
        BTreeFieldIndex.equals v ix'
        = Some (if Literals.compare value v =? 0
                then JSSet.add id (bucket ix v) else bucket ix v).
Proof.
  eexists. split; [apply add_Returned|]. intros v.
  rewrite equals_bucket. f_equal. apply bucket_add_any, add_Returned.
Qed.

(** X8. After [delete(id, value)] on a well-formed index, [equals(v)] is the
    former bucket of [v] without [id] when [v] compares equal to [value],
    and the former bucket of [v], unchanged, for every other [v]; the map
    keeps a key that compares equal to [value] exactly when that bucket is
    still not empty. *)
Theorem equals_after_delete id value ix :
  well_formed ix →
  ∃ ix',
    BTreeFieldIndex.delete id value ix = Returned ix'
    ∧ (∀ v,
         BTreeFieldIndex.equals v ix'
         = Some (if Literals.compare value v =? 0
                 then JSSet.delete id (bucket ix v) else bucket ix v))
    ∧ ((∃ k, k ∈ (BTreeFieldIndex.values ix').*1 ∧ Literals.compare k value = 0)
       ↔ JSSet.delete id (bucket ix value) ≠ []).
Proof.
  intros Hwf.
  destruct (BTreeFieldIndex.delete id value ix) as [ix'|] eqn:Hdel;
    [|by rewrite delete_Returned in Hdel].
  exists ix'. split; [done|].
  assert (well_formed ix') as Hwf' by by eapply well_formed_delete.
  split.
  - intros v. rewrite equals_bucket. f_equal. by apply bucket_delete_any.
  - rewrite <- (bucket_delete _ _ _ _ Hwf Hdel). unfold bucket, BTree.get_or.
    split.
    + intros (k & Hk & Hkv).
      apply list_elem_of_fmap in Hk as ([k' s] & -> & Hks). simpl in Hkv.
      rewrite (BTree_elem_of_get_Some _ value k' s); [|apply Hwf' | done..].
      destruct Hwf' as [_ Hne _ _]. unfold buckets in Hne.
      rewrite Forall_fmap, Forall_forall in Hne. apply (Hne _ Hks).
    + destruct (get _ value) as [set|] eqn:Hget; [|done].
      intros _. by eapply BTree_get_Some_key.
Qed.

Lemma elem_of_bucket_replay calls ix ix' id value :
  well_formed ix → FieldIndex.replay calls ix = Returned ix' →
  id ∈ bucket ix' value ↔
  pair_added_last id value calls (bool_decide (id ∈ bucket ix value)) = true.
Proof.
  revert ix. induction calls as [|[id' v | id' v] calls IH]; intros ix Hwf; simpl.
  - intros [= ->]. by rewrite bool_decide_eq_true.
  - destruct (BTreeFieldIndex.add id' v ix) as [ix1|] eqn:Hadd; [|done].
    intros Hrun. rewrite (IH ix1); [|by eapply well_formed_add | done].
    rewrite (bucket_add_any _ _ _ _ value Hadd).
    destruct (Z.eqb_spec (Literals.compare v value) 0) as [Hv|Hv];
      rewrite ?andb_true_r, ?andb_false_r; [|done].
    destruct (decide (id' = id)) as [->|Hid].
    + rewrite (bool_decide_eq_true_2 (id = id)) by done. simpl.
      rewrite bool_decide_eq_true_2; [done|].
      apply JSSet_elem_of_add. auto.
    + rewrite (bool_decide_eq_false_2 (id' = id)) by done. simpl.
      erewrite (bool_decide_ext (id ∈ JSSet.add id' (bucket ix value))); [done|].
      rewrite JSSet_elem_of_add. naive_solver.
  - destruct (BTreeFieldIndex.delete id' v ix) as [ix1|] eqn:Hdel; [|done].
    intros Hrun. rewrite (IH ix1); [|by eapply well_formed_delete | done].
    rewrite (bucket_delete_any _ _ _ _ value Hwf Hdel).
    destruct (Z.eqb_spec (Literals.compare v value) 0) as [Hv|Hv];
      rewrite ?andb_true_r, ?andb_false_r; [|done].
    destruct (decide (id' = id)) as [->|Hid].
    + rewrite (bool_decide_eq_true_2 (id = id)) by done. simpl.
      rewrite bool_decide_eq_false_2; [done|].
      rewrite JSSet_elem_of_delete. tauto.
    + rewrite (bool_decide_eq_false_2 (id' = id)) by done. simpl.
      erewrite (bool_decide_ext (id ∈ JSSet.delete id' (bucket ix value))); [done|].
      rewrite JSSet_elem_of_delete. naive_solver.
Qed.

(** X9. After any run from the empty index, [equals(value)] holds exactly
    the ids whose latest call under a value that compares equal to [value]
    is an [add]; calls about other ids or other values do not matter. *)
Theorem equals_after_replay calls id value :
  ∃ ix set,
    FieldIndex.replay calls (BTreeFieldIndex.new (Literal := Literal)) = Returned ix
    ∧ BTreeFieldIndex.equals value ix = Some set
    ∧ (id ∈ set ↔ pair_added_last id value calls false = true).
Proof.
  destruct (replay_well_formed calls BTreeFieldIndex.new well_formed_new)
    as (ix & Hrun & _).
  exists ix, (bucket ix value). split_and!; [done..|].
  by rewrite (elem_of_bucket_replay calls _ _ _ _ well_formed_new Hrun).
Qed.

Lemma present_member_add id value ix ix' :
  well_formed ix → BTreeFieldIndex.add id value ix = Returned ix' →
  (∀ x, x ∈ BTreeFieldIndex.present ix → member x ix) →
  ∀ x, x ∈ BTreeFieldIndex.present ix' → member x ix'.
Proof.
  intros Hwf Hadd Hinv x Hx.
  assert (well_formed ix') as Hwf' by by eapply well_formed_add.
  apply member_bucket; [done|].
  pose proof Hadd as Hadd'. rewrite add_Returned in Hadd'.
  injection Hadd' as <-. simpl in Hx.
  apply JSSet_elem_of_add in Hx as [-> | Hx].
  - exists value. rewrite (bucket_add _ _ _ _ Hadd). apply JSSet_elem_of_add. auto.
  - apply Hinv, member_bucket in Hx as (v & Hv); [|done].
    exists v. rewrite (bucket_add_any _ _ _ _ v Hadd).
    destruct (_ =? 0); [|done]. apply JSSet_elem_of_add. auto.
Qed.

Lemma present_member_delete id value ix ix' :
  well_formed ix → BTreeFieldIndex.delete id value ix = Returned ix' →
  (∀ x, x ∈ BTreeFieldIndex.present ix → member x ix) →
  ∀ x, x ∈ BTreeFieldIndex.present ix' → member x ix'.
Proof.
  intros Hwf Hdel Hinv x Hx.
  assert (well_formed ix') as Hwf' by by eapply well_formed_delete.
  apply member_bucket; [done|].
  pose proof Hdel as Hdel'. rewrite delete_Returned in Hdel'.
  injection Hdel' as <-. simpl in Hx.
  apply JSSet_elem_of_delete in Hx as [Hx Hne].
  apply Hinv, member_bucket in Hx as (v & Hv); [|done].
  exists v. rewrite (bucket_delete_any _ _ _ _ v Hwf Hdel).
  destruct (_ =? 0); [|done]. by apply JSSet_elem_of_delete.
Qed.

(** X10. After any run from the empty index, whether or not it follows the
    lifecycle, every id of [all()] sits in a bucket, so [ascending()] and
    [descending()] never miss an id of [all()]. *)
Theorem traversals_cover_all calls :
  ∃ ix,
    FieldIndex.replay calls (BTreeFieldIndex.new (Literal := Literal)) = Returned ix
    ∧ ∀ id,
        id ∈ BTreeFieldIndex.all ix →
        id ∈ BTreeFieldIndex.ascending ix ∧ id ∈ BTreeFieldIndex.descending ix.
Proof.
  assert (∀ ix,
            well_formed ix →
            (∀ x, x ∈ BTreeFieldIndex.present ix → member x ix) →
            ∃ ix', FieldIndex.replay calls ix = Returned ix'
                   ∧ ∀ x, x ∈ BTreeFieldIndex.present ix' → member x ix') as Hruns.
  { induction calls as [|[id value | id value] calls IH]; intros ix Hwf Hinv; simpl.
    - eauto.
    - rewrite add_Returned. apply IH.
      + eapply well_formed_add; [done | apply add_Returned].
      + eapply present_member_add; [done | apply add_Returned | done].
    - rewrite delete_Returned. apply IH.
      + eapply well_formed_delete; [done | apply delete_Returned].
      + eapply present_member_delete; [done | apply delete_Returned | done]. }
  destruct (Hruns BTreeFieldIndex.new well_formed_new) as (ix & Hrun & Hinv).
  { intros x Hx. by apply elem_of_nil in Hx. }
  exists ix. split; [done|]. intros id Hid%Hinv.
  rewrite ascending_buckets, descending_buckets, !JSSet_elem_of_of_list.
  rewrite flattened_reverse_Permutation, elem_of_flattened. done.
Qed.

End Index_steps.

(** ** [Array.prototype.sort] and the traversals of the identity index *)
Section Sorting.
Variable cmp : string → string → Z.
Hypothesis cmp_total : ∀ a b, 0 < cmp a b → cmp b a <= 0.
Hypothesis cmp_trans : ∀ a b c, cmp a b <= 0 → cmp b c <= 0 → cmp a c <= 0.

Lemma sort_insert_Permutation x l : JSArray.sort_insert cmp x l ≡ₚ x :: l.
Proof using Type.
  induction l as [|y l IH]; simpl; [done|].
  destruct (cmp y x <=? 0); [|done]. rewrite IH. apply Permutation_swap.
Qed.

Lemma sort_Permutation l : JSArray.sort cmp l ≡ₚ l.
Proof using Type.
  unfold JSArray.sort.
  assert (∀ acc, foldl (λ sorted x, JSArray.sort_insert cmp x sorted) acc l
                 ≡ₚ acc ++ l) as Hfold.
  { induction l as [|x l IH]; intros acc; simpl; [by rewrite app_nil_r|].
    rewrite IH, sort_insert_Permutation. simpl. apply Permutation_middle. }
  apply Hfold.
Qed.

Lemma sort_insert_sorted x l :
  StronglySorted (λ a b, cmp a b <= 0) l →
  StronglySorted (λ a b, cmp a b <= 0) (JSArray.sort_insert cmp x l).
Proof using cmp_total cmp_trans.
  induction 1 as [|y l Hl IH Hy]; simpl; [repeat constructor|].
  destruct (Z.leb_spec (cmp y x) 0) as [Hyx|Hyx].
  - constructor; [done|]. rewrite sort_insert_Permutation. by constructor.
  - assert (cmp x y <= 0) as Hxy by by apply cmp_total.
    constructor; [by constructor|]. constructor; [done|].
    eapply Forall_impl; [done|]. simpl. intros z Hyz. by eapply cmp_trans.
Qed.

Lemma sort_sorted l : StronglySorted (λ a b, cmp a b <= 0) (JSArray.sort cmp l).
Proof using cmp_total cmp_trans.
  unfold JSArray.sort.
  assert (∀ acc,
            StronglySorted (λ a b, cmp a b <= 0) acc →
            StronglySorted (λ a b, cmp a b <= 0)
              (foldl (λ sorted x, JSArray.sort_insert cmp x sorted) acc l)) as Hfold.
  { induction l as [|x l IH]; intros acc Hacc; simpl; [done|].
    by apply IH, sort_insert_sorted. }
  apply Hfold. constructor.
Qed.

End Sorting.

Section IdFieldIndex_traversals.
Context {Literal : Type} `{Literals.Laws Literal}.

Lemma compare_le_trans (a b c : Literal) :
  Literals.compare a b <= 0 → Literals.compare b c <= 0 → Literals.compare a c <= 0.
Proof.
  intros Hab Hbc.
  destruct (decide (Literals.compare a b = 0)) as [Hab0|Hab0].
  - pose proof (Literals.compare_compat a b c Hab0). lia.
  - destruct (decide (Literals.compare b c = 0)) as [Hbc0|Hbc0].
    + pose proof (compare_neg_0 a b c). lia.
    + pose proof (Literals.compare_trans a b c). lia.
Qed.

Lemma compare_le_total (a b : Literal) :
  0 < Literals.compare a b → Literals.compare b a <= 0.
Proof. pose proof (Literals.compare_antisym a b). lia. Qed.

(** X11. The traversals of an [IdFieldIndex] sort the ids themselves:
    [ascending()] and [descending()] hold the ids of [all()], each once, in
    ascending and in descending order of the ids compared as values. *)
Theorem IdFieldIndex_traversals_sort_ids (ix : IdFieldIndex.t) :
  NoDup (IdFieldIndex.all ix ()) →
  IdFieldIndex.ascending ix ≡ₚ IdFieldIndex.all ix ()
  ∧ IdFieldIndex.descending ix ≡ₚ IdFieldIndex.all ix ()
  ∧ StronglySorted
      (λ a b, Literals.compare (Literals.ofString a) (Literals.ofString b) <= 0)
      (IdFieldIndex.ascending ix)
  ∧ StronglySorted
      (λ a b, Literals.compare (Literals.ofString b) (Literals.ofString a) <= 0)
      (IdFieldIndex.descending ix).
Proof.
  intros Hall. unfold IdFieldIndex.ascending, IdFieldIndex.descending, JSSet.to_list.
  rewrite !JSSet_of_list_NoDup by by rewrite sort_Permutation.
  split_and!; try apply sort_Permutation.
  - apply (sort_sorted
             (λ left right,
                Literals.compare (Literals.ofString left) (Literals.ofString right))).
    + intros a b. apply compare_le_total.
    + intros a b c. apply compare_le_trans.
  - apply (sort_sorted
             (λ left right,
                Literals.compare (Literals.ofString right) (Literals.ofString left))).
    + intros a b. apply compare_le_total.
    + intros a b c ??. by eapply compare_le_trans.
Qed.

End IdFieldIndex_traversals.

(** ** The [Set] objects of the ordered value index *)
Section Store_objects.
Context {Literal : Type} `{Literals.Laws Literal}.
Implicit Types (σ : list (list string)) (r : nat) (id : string) (value : Literal).
Implicit Types ix : Store.BTreeFieldIndex.t Literal.
Implicit Types calls : list (FieldIndex.call Literal).

Local Abbreviation get := (BTree.get Literals.compare).

Lemma Store_add_Returned id value ix σ :
  ∃ ix' σ', Store.BTreeFieldIndex.add id value ix σ = Returned (ix', σ').
Proof.
  unfold Store.BTreeFieldIndex.add, Store.new_Set.
  rewrite BTree_get_setIfNotPresent. eauto.
Qed.

Lemma Store_delete_Returned id value ix σ :
  ∃ ix' σ', Store.BTreeFieldIndex.delete id value ix σ = Returned (ix', σ').
Proof.
  unfold Store.BTreeFieldIndex.delete.
  destruct (get _ value); [destruct (_ =? 0)|]; eauto.
Qed.

Lemma Store_replay_Returned calls ix σ :
  ∃ ix' σ', Store.BTreeFieldIndex.replay calls ix σ = Returned (ix', σ').
Proof.
  revert ix σ. induction calls as [|[id value | id value] calls IH]; intros ix σ;
    simpl; [eauto | |].
  - destruct (Store_add_Returned id value ix σ) as (ix1 & σ1 & ->). apply IH.
  - destruct (Store_delete_Returned id value ix σ) as (ix1 & σ1 & ->). apply IH.
Qed.

Lemma Store_add_sorted id value ix σ ix' σ' :
  sorted (Store.BTreeFieldIndex.values ix) →
  Store.BTreeFieldIndex.add id value ix σ = Returned (ix', σ') →
  sorted (Store.BTreeFieldIndex.values ix').
Proof.
  intros Hs. unfold Store.BTreeFieldIndex.add, Store.new_Set.
  rewrite BTree_get_setIfNotPresent. intros [= <- _]. simpl.
  by apply BTree_sorted_setIfNotPresent.
Qed.

Lemma Store_delete_sorted id value ix σ ix' σ' :
  sorted (Store.BTreeFieldIndex.values ix) →
  Store.BTreeFieldIndex.delete id value ix σ = Returned (ix', σ') →
  sorted (Store.BTreeFieldIndex.values ix').
Proof.
  intros Hs. unfold Store.BTreeFieldIndex.delete.
  destruct (get _ value); [destruct (_ =? 0)|]; intros [= <- _]; simpl;
    (done || by apply BTree_sorted_delete).
Qed.

Lemma Store_replay_sorted calls ix σ ix' σ' :
  sorted (Store.BTreeFieldIndex.values ix) →
  Store.BTreeFieldIndex.replay calls ix σ = Returned (ix', σ') →
  sorted (Store.BTreeFieldIndex.values ix').
Proof.
  revert ix σ. induction calls as [|[id value | id value] calls IH]; intros ix σ Hs;
    simpl.
  - by intros [= <- _].
  - destruct (Store.BTreeFieldIndex.add id value ix σ) as [[ix1 σ1]|] eqn:Hadd;
      [|done].
    apply IH. by eapply Store_add_sorted.
  - destruct (Store.BTreeFieldIndex.delete id value ix σ) as [[ix1 σ1]|] eqn:Hdel;
      [|done].
    apply IH. by eapply Store_delete_sorted.
Qed.

(** X12. When [Literals.compare] obeys the comparator contract, every run on
    a freshly initialised class returns; the state it reaches keeps
    [present], the buckets and [EMPTY_SET] in different [Set] objects, with
    [EMPTY_SET] still empty and the keys in strictly ascending order, and
    the contents of its objects are the index of values the same run
    builds. *)
Theorem store_runs_keep_objects_apart calls :
  ∃ ix σ,
    (let '(ix0, σ0) := Store.BTreeFieldIndex.new Store.BTreeFieldIndex.initial in
     Store.BTreeFieldIndex.replay calls ix0 σ0) = Returned (ix, σ)
    ∧ separated ix σ
    ∧ sorted (Store.BTreeFieldIndex.values ix)
    ∧ FieldIndex.replay calls BTreeFieldIndex.new = Returned (contents (ix, σ)).
Proof.
  pose proof (store_refines_values calls) as Hrefines.
  pose proof (separated_new (Literal := Literal)) as Hnew.
  destruct (Store.BTreeFieldIndex.new Store.BTreeFieldIndex.initial) as [ix0 σ0]
    eqn:Hix0.
  destruct Hnew as [Hsep _].
  destruct (Store_replay_Returned calls ix0 σ0) as (ix & σ & Hrun).
  exists ix, σ. split_and!.
  - done.
  - by apply (refine_replay calls ix0 σ0 Hsep).
  - eapply Store_replay_sorted; [|done]. by injection Hix0 as <- _.
  - by rewrite Hrun in Hrefines.
Qed.

(** *** Objects the index does not hold *)

Lemma Store_add_frame id value ix σ ix' σ' r :
  (r < length σ)%nat →
  r ≠ Store.BTreeFieldIndex.present ix →
  r ∉ (Store.BTreeFieldIndex.values ix).*2 →
  Store.BTreeFieldIndex.add id value ix σ = Returned (ix', σ') →
  Store.deref σ' r = Store.deref σ r
  ∧ (r < length σ')%nat
  ∧ r ≠ Store.BTreeFieldIndex.present ix'
  ∧ r ∉ (Store.BTreeFieldIndex.values ix').*2.
Proof.
  intros Hr Hp Hv. destruct ix as [present values scratch]. simpl in *.
  unfold Store.BTreeFieldIndex.add, Store.new_Set, Store.Set_add. simpl.
  rewrite length_alter.
  set (values' := BTree.setIfNotPresent Literals.compare values value (length σ)).
  assert (r ∉ values'.*2) as Hv'.
  { intros [-> | ?]%BTree_refs_setIfNotPresent; [lia | done]. }
  destruct (get values' value) as [set|] eqn:Hget; [|done].
  intros [= <- <-]. simpl.
  assert (set ≠ r) as Hset by (intros ->; by apply Hv', (BTree_refs_get _ value)).
  rewrite deref_alter_ne, deref_app_l, deref_alter_ne
    by (done || rewrite length_alter; lia).
  rewrite length_alter, length_app, length_alter. simpl. split_and!; (done || lia).
Qed.

Lemma Store_delete_frame id value ix σ ix' σ' r :
  (r < length σ)%nat →
  r ≠ Store.BTreeFieldIndex.present ix →
  r ∉ (Store.BTreeFieldIndex.values ix).*2 →
  Store.BTreeFieldIndex.delete id value ix σ = Returned (ix', σ') →
  Store.deref σ' r = Store.deref σ r
  ∧ (r < length σ')%nat
  ∧ r ≠ Store.BTreeFieldIndex.present ix'
  ∧ r ∉ (Store.BTreeFieldIndex.values ix').*2.
Proof.
  intros Hr Hp Hv. destruct ix as [present values scratch]. simpl in *.
  unfold Store.BTreeFieldIndex.delete, Store.Set_delete. simpl.
  assert (r ∉ (BTree.delete Literals.compare values value).*2) as Hv'
    by by intros ?%BTree_refs_delete.
  destruct (get values value) as [set|] eqn:Hget.
  - assert (set ≠ r) as Hset by (intros ->; by apply Hv, (BTree_refs_get _ value)).
    destruct (_ =? 0); intros [= <- <-]; simpl;
      rewrite !deref_alter_ne, !length_alter by done; done.
  - intros [= <- <-]. simpl. rewrite deref_alter_ne, length_alter by done. done.
Qed.

Lemma Store_replay_frame calls ix σ ix' σ' r :
  (r < length σ)%nat →
  r ≠ Store.BTreeFieldIndex.present ix →
  r ∉ (Store.BTreeFieldIndex.values ix).*2 →
  Store.BTreeFieldIndex.replay calls ix σ = Returned (ix', σ') →
  Store.deref σ' r = Store.deref σ r.
Proof.
  revert ix σ. induction calls as [|[id value | id value] calls IH];
    intros ix σ Hr Hp Hv; simpl.
  - by intros [= _ <-].
  - destruct (Store.BTreeFieldIndex.add id value ix σ) as [[ix1 σ1]|] eqn:Hadd;
      [|done].
    destruct (Store_add_frame _ _ _ _ _ _ r Hr Hp Hv Hadd) as (<- & ? & ? & ?).
    by apply IH.
  - destruct (Store.BTreeFieldIndex.delete id value ix σ) as [[ix1 σ1]|] eqn:Hdel;
      [|done].
    destruct (Store_delete_frame _ _ _ _ _ _ r Hr Hp Hv Hdel) as (<- & ? & ? & ?).
    by apply IH.
Qed.

Lemma traversal_result_frame calls present values scratch scratch' σ
    (set : list string) ix' σ' :
  separated (Store.BTreeFieldIndex.mk present values scratch) σ →
  Store.BTreeFieldIndex.replay calls
    (Store.BTreeFieldIndex.mk present values scratch') (σ ++ [set])
  = Returned (ix', σ') →
  Store.deref σ' (length σ) = set.
Proof.
  intros [Hp Hb Hd Hpb Hep Heb He] Hrun. simpl in *.
  rewrite (Store_replay_frame calls (Store.BTreeFieldIndex.mk present values scratch')
             (σ ++ [set]) ix' σ' (length σ)); simpl.
  - unfold Store.deref. by rewrite list_lookup_middle.
  - rewrite length_app. simpl. lia.
  - lia.
  - rewrite Forall_forall in Hb. intros ?%Hb. lia.
  - done.
Qed.

(** X13. The set a traversal returns is a new object that the index does
    not keep: whatever calls of [add] and [delete] follow, it still holds
    the ids, in the order, of the moment of the traversal; unlike the set of
    [all()], which is the [present] object itself and can never be this
    one. *)
Theorem traversal_returns_a_snapshot calls ix σ :
  separated ix σ →
  (let '(result, ix1, σ1) := Store.BTreeFieldIndex.ascending ix σ in
   result ≠ Store.BTreeFieldIndex.all ix1
   ∧ ∃ ix2 σ2,
       Store.BTreeFieldIndex.replay calls ix1 σ1 = Returned (ix2, σ2)
       ∧ Store.deref σ2 result = BTreeFieldIndex.ascending (contents (ix, σ)))
  ∧ (let '(result, ix1, σ1) := Store.BTreeFieldIndex.descending ix σ in
     result ≠ Store.BTreeFieldIndex.all ix1
     ∧ ∃ ix2 σ2,
         Store.BTreeFieldIndex.replay calls ix1 σ1 = Returned (ix2, σ2)
         ∧ Store.deref σ2 result = BTreeFieldIndex.descending (contents (ix, σ))).
Proof.
  intros Hsep.
  pose proof (refine_ascending ix σ Hsep) as Hasc.
  pose proof (refine_descending ix σ Hsep) as Hdesc.
  destruct ix as [present values scratch].
  unfold Store.BTreeFieldIndex.ascending, Store.BTreeFieldIndex.descending,
    Store.new_Set_of in *.
  cbn [Store.BTreeFieldIndex.present Store.BTreeFieldIndex.values
       Store.BTreeFieldIndex.reusableSortArray Store.BTreeFieldIndex.all] in *.
  pose proof (sep_present _ _ Hsep) as Hp. simpl in Hp.
  split.
  - destruct Hasc as (Hread & _ & _). split; [lia|].
    match goal with
    | |- ∃ ix2 σ2, Store.BTreeFieldIndex.replay _ ?ix1 ?σ1 = _ ∧ _ =>
        destruct (Store_replay_Returned calls ix1 σ1) as (ix2 & σ2 & Hrun)
    end.
    exists ix2, σ2. split; [done|]. rewrite <- Hread.
    rewrite (traversal_result_frame _ _ _ _ _ _ _ _ _ Hsep Hrun).
    unfold Store.deref. by rewrite list_lookup_middle.
  - destruct Hdesc as (Hread & _ & _). split; [lia|].
    match goal with
    | |- ∃ ix2 σ2, Store.BTreeFieldIndex.replay _ ?ix1 ?σ1 = _ ∧ _ =>
        destruct (Store_replay_Returned calls ix1 σ1) as (ix2 & σ2 & Hrun)
    end.
    exists ix2, σ2. split; [done|]. rewrite <- Hread.
    rewrite (traversal_result_frame _ _ _ _ _ _ _ _ _ Hsep Hrun).
    unfold Store.deref. by rewrite list_lookup_middle.
Qed.

End Store_objects.

(** ** The [Set] objects [equals()] hands out *)
Section Bucket_references.
Context {Literal : Type} `{Literals.Laws Literal}.
Implicit Types (σ : list (list string)) (r : nat) (id : string) (value : Literal).
Implicit Types ix : Store.BTreeFieldIndex.t Literal.

Local Abbreviation get := (BTree.get Literals.compare).

(** [equals(value)] answers with a bucket exactly when the map has one. *)
Lemma Store_equals_bucket value ix σ r :
  separated ix σ →
  Store.BTreeFieldIndex.equals value ix = Some r →
  r ≠ Store.BTreeFieldIndex.EMPTY_SET →
  get (Store.BTreeFieldIndex.values ix) value = Some r.
Proof.
  intros Hsep. unfold Store.BTreeFieldIndex.equals, BTree.get_or.
  destruct (get _ value) as [r'|]; simpl; intros [= <-]; done.
Qed.

Lemma Store_equals_EMPTY_SET value ix σ :
  separated ix σ →
  Store.BTreeFieldIndex.equals value ix = Some Store.BTreeFieldIndex.EMPTY_SET →
  get (Store.BTreeFieldIndex.values ix) value = None.
Proof.
  intros Hsep. unfold Store.BTreeFieldIndex.equals, BTree.get_or.
  destruct (get _ value) as [r'|] eqn:Hget; simpl; [|done]. intros [= ->].
  destruct (sep_empty_bucket _ _ Hsep). by eapply BTree_refs_get.
Qed.

(** With every bucket an object of its own, a reference belongs to one
    key. *)
Lemma NoDup_refs_key (tree : list (Literal * nat)) k k' r :
  NoDup tree.*2 → (k, r) ∈ tree → (k', r) ∈ tree → k = k'.
Proof.
  induction tree as [|[k0 r0] tree IH]; simpl; [by intros _ ?%elem_of_nil|].
  intros [Hnotin Hnd]%NoDup_cons Hk Hk'.
  assert (∀ k1, (k1, r0) ∈ tree → False) as Hfresh.
  { intros k1 Hin. apply Hnotin, list_elem_of_fmap. by exists (k1, r0). }
  apply elem_of_cons in Hk as [Hk|Hk]; apply elem_of_cons in Hk' as [Hk'|Hk'].
  - congruence.
  - injection Hk as -> ->. by destruct (Hfresh k').
  - injection Hk' as -> ->. by destruct (Hfresh k).
  - by apply IH.
Qed.

(** X14. While the map has a bucket for a value, [equals] hands out that
    bucket itself: read through the reference obtained before, the set
    contains [id] after a later [add(id, value)], and [equals] still returns
    the same reference. *)
Theorem equals_returns_live_bucket id value ix σ r :
  separated ix σ →
  Store.BTreeFieldIndex.equals value ix = Some r →
  r ≠ Store.BTreeFieldIndex.EMPTY_SET →
  ∃ ix' σ',
    Store.BTreeFieldIndex.add id value ix σ = Returned (ix', σ')
    ∧ Store.BTreeFieldIndex.equals value ix' = Some r
    ∧ Store.deref σ' r = JSSet.add id (Store.deref σ r).
Proof.
  intros Hsep Heq Hr.
  pose proof (Store_equals_bucket _ _ _ _ Hsep Heq Hr) as Hget.
  pose proof (BTree_refs_get _ _ _ Hget) as Hin.
  destruct Hsep as [Hp Hb Hd Hpb Hep Heb He].
  rewrite Forall_forall in Hb. specialize (Hb _ Hin). simpl in Hb.
  destruct ix as [present values scratch]. simpl in *.
  unfold Store.BTreeFieldIndex.add, Store.new_Set, Store.Set_add. simpl.
  rewrite (BTree_setIfNotPresent_present _ _ _ _ Hget), Hget.
  eexists _, _. split; [reflexivity|]. split.
  - unfold Store.BTreeFieldIndex.equals, BTree.get_or. simpl. by rewrite Hget.
  - rewrite deref_alter_eq by (rewrite length_app, length_alter; lia).
    rewrite deref_app_l by (rewrite length_alter; lia).
    rewrite deref_alter_ne; [done|]. by intros ->.
Qed.

(** X15. While the map has no bucket for a value, [equals] hands out the
    shared [EMPTY_SET].  The first [add] under the value leaves that object
    empty and puts [id] into a [Set] allocated by the call, which [equals]
    returns from then on: the reference obtained before does not show the
    id. *)
Theorem first_add_spares_EMPTY_SET id value ix σ :
  separated ix σ →
  Store.BTreeFieldIndex.equals value ix = Some Store.BTreeFieldIndex.EMPTY_SET →
  ∃ ix' σ' r',
    Store.BTreeFieldIndex.add id value ix σ = Returned (ix', σ')
    ∧ Store.BTreeFieldIndex.equals value ix' = Some r'
    ∧ (length σ ≤ r')%nat
    ∧ Store.deref σ' r' = [id]
    ∧ Store.deref σ' Store.BTreeFieldIndex.EMPTY_SET = [].
Proof.
  intros Hsep Heq.
  pose proof (Store_equals_EMPTY_SET _ _ _ Hsep Heq) as Hget.
  destruct Hsep as [Hp Hb Hd Hpb Hep Heb He].
  destruct ix as [present values scratch]. simpl in *.
  unfold Store.BTreeFieldIndex.add, Store.new_Set, Store.Set_add. simpl.
  rewrite BTree_get_setIfNotPresent, Hget, length_alter. simpl.
  eexists _, _, (length σ). split; [reflexivity|].
  unfold Store.BTreeFieldIndex.EMPTY_SET in *. split_and!.
  - unfold Store.BTreeFieldIndex.equals, BTree.get_or. simpl.
    by rewrite BTree_get_setIfNotPresent, Hget.
  - done.
  - rewrite deref_alter_eq by (rewrite length_app, length_alter; simpl; lia).
    unfold Store.deref.
    rewrite list_lookup_middle by (by rewrite length_alter). simpl.
    apply (JSSet_add_absent id []), not_elem_of_nil.
  - rewrite deref_alter_ne, deref_app_l, deref_alter_ne
      by (done || rewrite ?length_alter; lia).
    done.
Qed.

(** X16. [delete(id, value)] takes [id] out of the bucket object in place.
    When other ids remain, [equals] keeps returning that object; when the
    bucket runs empty the value map drops it and [equals] returns the shared
    [EMPTY_SET], while the reference obtained before is left pointing at an
    empty set that is in the value map no longer.  [delete] does not touch
    the scratch array, so an entry an earlier traversal left there may still
    refer to that set. *)
Theorem delete_empties_bucket_in_place id value ix σ r :
  separated ix σ →
  sorted (Store.BTreeFieldIndex.values ix) →
  Store.BTreeFieldIndex.equals value ix = Some r →
  r ≠ Store.BTreeFieldIndex.EMPTY_SET →
  ∃ ix' σ',
    Store.BTreeFieldIndex.delete id value ix σ = Returned (ix', σ')
    ∧ Store.deref σ' r = JSSet.delete id (Store.deref σ r)
    ∧ Store.BTreeFieldIndex.equals value ix'
      = Some (if bool_decide (JSSet.delete id (Store.deref σ r) = [])
              then Store.BTreeFieldIndex.EMPTY_SET else r)
    ∧ (JSSet.delete id (Store.deref σ r) = [] →
       r ∉ (Store.BTreeFieldIndex.values ix').*2)
    ∧ Store.BTreeFieldIndex.reusableSortArray ix'
      = Store.BTreeFieldIndex.reusableSortArray ix.
Proof.
  intros Hsep Hsorted Heq Hr.
  pose proof (Store_equals_bucket _ _ _ _ Hsep Heq Hr) as Hget.
  pose proof (BTree_refs_get _ _ _ Hget) as Hin.
  destruct Hsep as [Hp Hb Hd Hpb Hep Heb He].
  rewrite Forall_forall in Hb. specialize (Hb _ Hin). simpl in Hb.
  destruct ix as [present values scratch]. simpl in *.
  unfold Store.BTreeFieldIndex.delete, Store.Set_delete, Store.Set_size. simpl.
  rewrite Hget.
  assert (Store.deref
            (alter (JSSet.delete id) r (alter (JSSet.delete id) present σ)) r
          = JSSet.delete id (Store.deref σ r)) as Hread.
  { rewrite deref_alter_eq by (rewrite length_alter; lia).
    rewrite deref_alter_ne; [done|]. by intros ->. }
  rewrite Hread.
  destruct (Z.eqb_spec (JSSet.size (JSSet.delete id (Store.deref σ r))) 0)
    as [Hsize|Hsize]; rewrite JSSet_size_0 in Hsize;
    eexists _, _; (split; [reflexivity|]); (split; [done|]).
  - rewrite bool_decide_eq_true_2 by done. split_and!; [| |done].
    + unfold Store.BTreeFieldIndex.equals, BTree.get_or. simpl.
      by rewrite BTree_get_delete.
    + intros _ Hin'. simpl in Hin'.
      apply list_elem_of_fmap in Hin' as ([k r'] & -> & Hk). simpl in *.
      pose proof (BTree_elem_of_delete _ _ _ Hk) as Hk'.
      assert (get (BTree.delete Literals.compare values value) k = Some r') as Hget'.
      { apply (BTree_elem_of_get_Some _ k k r'); [|done|apply compare_refl].
        by apply BTree_sorted_delete. }
      destruct (decide (Literals.compare value k = 0)) as [Hvk|Hvk].
      * rewrite <- (BTree_get_congruent _ value k Hvk), BTree_get_delete in Hget';
          done.
      * rewrite BTree_get_delete_other in Hget' by done.
        apply BTree_get_Some_elem_of in Hget as (kv & Hkv & Hkv0).
        apply BTree_get_Some_elem_of in Hget' as (kk & Hkk & Hkk0).
        assert (kv = kk) as ->.
        { by eapply (NoDup_refs_key values). }
        apply Hvk. apply compare_flip_0. eapply compare_0_trans; [|done].
        by apply compare_flip_0.
  - rewrite bool_decide_eq_false_2 by done. split_and!; [|done..].
    unfold Store.BTreeFieldIndex.equals, BTree.get_or. simpl. by rewrite Hget.
Qed.

End Bucket_references.

(** ** The script roots of the plugin settings *)
Section Script_roots.
Context {Plain : Type}.
Implicit Types (plugin : DatacorePlugin.t Plain) (roots : list string).
Implicit Types (d : gmap string (DatacorePlugin.value Plain)).
Local Open Scope string_scope.

Lemma foldl_add_prefix newRoots roots :
  roots `prefix_of` foldl (λ roots newRoot, JSSet.add newRoot roots) roots newRoots.
Proof.
  revert roots. induction newRoots as [|r newRoots IH]; intros roots; simpl; [done|].
  etrans; [|apply IH]. unfold JSSet.add. destruct (JSSet.has r roots); [done|].
  by apply prefix_app_r.
Qed.

Lemma foldl_delete_filter rootsToRemove roots :
  foldl (λ roots root, JSSet.delete root roots) roots rootsToRemove
  = filter (λ x, x ∉ rootsToRemove) roots.
Proof.
  revert roots. induction rootsToRemove as [|r rs IH]; intros roots; simpl.
  - induction roots as [|x roots IH]; [done|].
    rewrite filter_cons_True by apply not_elem_of_nil. by f_equal.
  - rewrite IH. unfold JSSet.delete. rewrite list_filter_filter.
    apply list_filter_iff. intros x. rewrite not_elem_of_cons. tauto.
Qed.

Lemma filter_foldl_add (P : string → Prop) `{∀ x, Decision (P x)} newRoots roots :
  Forall (λ r, ¬ P r) newRoots →
  filter P (foldl (λ roots newRoot, JSSet.add newRoot roots) roots newRoots)
  = filter P roots.
Proof.
  revert roots. induction newRoots as [|r rs IH]; intros roots; simpl; [done|].
  intros [Hr Hrs]%Forall_cons. rewrite IH by done.
  unfold JSSet.add. destruct (JSSet.has r roots); [done|].
  rewrite filter_app, filter_cons_False by done. apply app_nil_r.
Qed.

Lemma serialized_scriptRoots (settings : DatacorePlugin.Settings Plain) :
  DatacorePlugin.serialized (DatacorePlugin.entries settings) !! "scriptRoots"
  = Some (DatacorePlugin.ArrayValue (DatacorePlugin.scriptRoots settings)).
Proof.
  unfold DatacorePlugin.serialized, DatacorePlugin.entries.
  by rewrite lookup_fmap, lookup_insert_eq.
Qed.

(** X17. [addScriptRootsToSettings(newRoots)] keeps the roots there were, in
    their places, and appends: afterwards the roots are the former ones and
    those of [newRoots], and the saved data lists them as an array. *)
Theorem addScriptRootsToSettings_appends newRoots plugin :
  let plugin' := DatacorePlugin.addScriptRootsToSettings newRoots plugin in
  let roots := DatacorePlugin.scriptRoots (DatacorePlugin.settings plugin) in
  let roots' := DatacorePlugin.scriptRoots (DatacorePlugin.settings plugin') in
  roots `prefix_of` roots'
  ∧ (∀ x, x ∈ roots' ↔ x ∈ roots ∨ x ∈ newRoots)
  ∧ DatacorePlugin.data plugin' !! "scriptRoots"
    = Some (DatacorePlugin.ArrayValue roots').
Proof.
  simpl. split_and!.
  - apply foldl_add_prefix.
  - intros x. apply JSSet_elem_of_foldl_add.
  - apply serialized_scriptRoots.
Qed.

(** X18. [removeScriptRoots(roots)] right after
    [addScriptRootsToSettings(roots)] leaves the former script roots without
    those of [roots], in their former order; the other settings are as
    before. *)
Theorem removeScriptRoots_after_add rs plugin :
  let plugin' :=
    DatacorePlugin.removeScriptRoots rs
      (DatacorePlugin.addScriptRootsToSettings rs plugin) in
  DatacorePlugin.scriptRoots (DatacorePlugin.settings plugin')
  = filter (λ x, x ∉ rs)
      (DatacorePlugin.scriptRoots (DatacorePlugin.settings plugin))
  ∧ DatacorePlugin.others (DatacorePlugin.settings plugin')
    = DatacorePlugin.others (DatacorePlugin.settings plugin).
Proof.
  simpl. split; [|done]. rewrite foldl_delete_filter.
  apply filter_foldl_add, Forall_forall. intros r Hr Hnot. by apply Hnot.
Qed.

(** After either call, [onload] on the saved data builds the script roots
    the plugin has. *)
Lemma saved_script_roots_restored_either DEFAULT_SETTINGS rs plugin plugin' :
  NoDup (DatacorePlugin.scriptRoots (DatacorePlugin.settings plugin)) →
  plugin' = DatacorePlugin.addScriptRootsToSettings rs plugin
  ∨ plugin' = DatacorePlugin.removeScriptRoots rs plugin →
  ∃ restored,
    DatacorePlugin.onload_settings DEFAULT_SETTINGS
      (Some (DatacorePlugin.data plugin')) = Some restored
    ∧ DatacorePlugin.scriptRoots restored
      = DatacorePlugin.scriptRoots (DatacorePlugin.settings plugin').
Proof.
  intros Hroots Hplugin'.
  assert (NoDup (DatacorePlugin.scriptRoots (DatacorePlugin.settings plugin'))
          ∧ DatacorePlugin.data plugin' !! "scriptRoots"
            = Some (DatacorePlugin.ArrayValue
                      (DatacorePlugin.scriptRoots (DatacorePlugin.settings plugin'))))
    as [Hroots' Hdata].
  { destruct Hplugin' as [-> | ->]; simpl; (split; [|apply serialized_scriptRoots]).
    - by apply JSSet_NoDup_foldl_add.
    - rewrite foldl_delete_filter. by apply NoDup_filter. }
  unfold DatacorePlugin.onload_settings. simpl.
  rewrite (lookup_union_Some_l _ _ _ _ Hdata).
  eexists. split; [reflexivity|]. simpl. by apply JSSet_of_list_NoDup.
Qed.

(** X20. The script roots survive saving and loading: after
    [addScriptRootsToSettings] and after [removeScriptRoots], [onload] on
    the saved data builds the set of script roots the plugin has, in the
    same order, whatever the default settings are. *)
Theorem saved_script_roots_are_restored DEFAULT_SETTINGS rs plugin :
  NoDup (DatacorePlugin.scriptRoots (DatacorePlugin.settings plugin)) →
  (∃ restored,
     DatacorePlugin.onload_settings DEFAULT_SETTINGS
       (Some (DatacorePlugin.data
                (DatacorePlugin.addScriptRootsToSettings rs plugin)))
     = Some restored
     ∧ DatacorePlugin.scriptRoots restored
       = DatacorePlugin.scriptRoots
           (DatacorePlugin.settings
              (DatacorePlugin.addScriptRootsToSettings rs plugin)))
  ∧ (∃ restored,
       DatacorePlugin.onload_settings DEFAULT_SETTINGS
         (Some (DatacorePlugin.data (DatacorePlugin.removeScriptRoots rs plugin)))
       = Some restored
       ∧ DatacorePlugin.scriptRoots restored
         = DatacorePlugin.scriptRoots
             (DatacorePlugin.settings
                (DatacorePlugin.removeScriptRoots rs plugin))).
Proof.
  intros Hroots.
  split; eapply saved_script_roots_restored_either; eauto.
Qed.

Lemma handleNewScriptRoot_step (stat : string → option DatacorePlugin.StatType)
    component plugin :
  let plugin' := DatacorePlugin.handleNewScriptRoot stat component plugin in
  let roots := DatacorePlugin.scriptRoots (DatacorePlugin.settings plugin) in
  let roots' := DatacorePlugin.scriptRoots (DatacorePlugin.settings plugin') in
  roots' = roots
  ∨ ∃ searchValue,
      component = Some searchValue
      ∧ searchValue ≠ EmptyString
      ∧ (searchValue ∉ roots)
      ∧ stat searchValue = Some DatacorePlugin.folder
      ∧ roots' = (roots ++ [searchValue])%list.
Proof.
  simpl. unfold DatacorePlugin.handleNewScriptRoot.
  destruct component as [searchValue|]; [|by left].
  destruct (decide (searchValue = EmptyString)) as [Hempty|Hempty].
  { rewrite bool_decide_eq_true_2 by done. by left. }
  rewrite bool_decide_eq_false_2 by done.
  destruct (JSSet.has searchValue
              (DatacorePlugin.scriptRoots (DatacorePlugin.settings plugin)))
    eqn:Hin; [by left|].
  unfold JSSet.has in Hin. apply bool_decide_eq_false in Hin.
  destruct (stat searchValue) as [[|]|] eqn:Hstat; [by left | | by left].
  right. exists searchValue. split_and!; try done.
  simpl. by apply JSSet_add_absent.
Qed.

(** X21. Whatever is submitted to the settings tab, [handleNewScriptRoot]
    only appends to the script roots, and only values that are not empty,
    were submitted, and were a folder of the vault when submitted: the
    former roots stay in their places, and every other root was checked. *)
Theorem handleNewScriptRoot_adds_only_folders
    (stat : string → option DatacorePlugin.StatType)
    (components : list (option string)) plugin :
  let plugin' :=
    foldl (λ plugin component,
             DatacorePlugin.handleNewScriptRoot stat component plugin)
      plugin components in
  let roots := DatacorePlugin.scriptRoots (DatacorePlugin.settings plugin) in
  let roots' := DatacorePlugin.scriptRoots (DatacorePlugin.settings plugin') in
  roots `prefix_of` roots'
  ∧ ∀ x, x ∈ roots' →
         x ∈ roots
         ∨ (x ≠ EmptyString ∧ Some x ∈ components
            ∧ stat x = Some DatacorePlugin.folder).
Proof.
  simpl. revert plugin.
  induction components as [|component components IH]; intros plugin; simpl.
  - split; [done | auto].
  - destruct (IH (DatacorePlugin.handleNewScriptRoot stat component plugin))
      as [Hprefix Hin].
    destruct (handleNewScriptRoot_step stat component plugin)
      as [Hsame | (searchValue & -> & Hne & Hnew & Hstat & Happ)];
      simpl in *.
    + rewrite Hsame in Hprefix, Hin. split; [done|].
      intros x [? | (? & ? & ?)]%Hin; [by left | right].
      split_and!; [done | by right | done].
    + rewrite Happ in Hprefix, Hin. split.
      * etrans; [|done]. by apply prefix_app_r.
      * intros x [[? | ->%list_elem_of_singleton]%elem_of_app | (? & ? & ?)]%Hin.
        -- by left.
        -- right. split_and!; [done | by left | done].
        -- right. split_and!; [done | by right | done].
Qed.

End Script_roots.

(** ** The presence index beside the ordered value index *)
Section Two_indices.
Context {Literal : Type} `{Literals.Laws Literal}.

(** X22. A [SetFieldIndex] and a [BTreeFieldIndex] given the same calls
    answer [all()] alike, id for id and in the same order: the value an id
    is indexed under plays no part in [all()]. *)
Theorem SetFieldIndex_and_BTreeFieldIndex_agree_on_all
    (calls : list (FieldIndex.call Literal)) :
  ∃ (set_index : SetFieldIndex.t) (tree_index : BTreeFieldIndex.t Literal),
    FieldIndex.replay calls SetFieldIndex.new = Returned set_index
    ∧ FieldIndex.replay calls BTreeFieldIndex.new = Returned tree_index
    ∧ SetFieldIndex.all set_index = BTreeFieldIndex.all tree_index.
Proof.
  destruct (replay_well_formed calls BTreeFieldIndex.new well_formed_new)
    as (tree_index & Hrun & _).
  eexists _, tree_index. split_and!; [apply SetFieldIndex_replay | done |].
  unfold BTreeFieldIndex.all. by rewrite (present_replay _ _ _ Hrun).
Qed.

End Two_indices.

(** ** What [add] needs of the comparator *)
Section Contract_needed.
Context {Literal : Type} `{Literals.Ops Literal}.

(** X23. The comparator contract cannot be dropped from X4.  For a value
    that does not compare equal to itself, [add(id, value)] on the empty
    index does not find the bucket it has just inserted and throws on the
    non-null assertion, after [present] and the map were updated: [id] is in
    [present] and an empty bucket is left in the map. *)
Theorem add_throws_on_value_unequal_to_itself (id : string) (value : Literal) :
  Literals.compare value value ≠ 0 →
  BTreeFieldIndex.add id value BTreeFieldIndex.new
  = Threw {| BTreeFieldIndex.present := [id];
             BTreeFieldIndex.values := [(value, [])] |}.
Proof.
  intros Hvalue. unfold BTreeFieldIndex.add. simpl.
  destruct (Z.ltb_spec (Literals.compare value value) 0); [done|].
  destruct (Z.ltb_spec 0 (Literals.compare value value)); [done|]. lia.
Qed.

End Contract_needed.

(** ** The further properties at concrete runs and states *)
Section Further_scenarios.
Import Sample.
Local Open Scope string_scope.

Lemma separated_samples : separated Samples.index Samples.store.
Proof.
  split; simpl; unfold Store.BTreeFieldIndex.EMPTY_SET;
    first [ done | lia | apply NoDup_singleton
          | by repeat constructor; lia
          | by intros ?%list_elem_of_singleton; lia ].
Qed.

Lemma add_throws_on_value_unequal_to_itself_witness :
  @Literals.compare unit Samples.irreflexive () () ≠ 0
  ∧ @BTreeFieldIndex.add unit Samples.irreflexive "p1" () BTreeFieldIndex.new
    = Threw {| BTreeFieldIndex.present := ["p1"];
               BTreeFieldIndex.values := [((), [])] |}.
Proof.
  assert (@Literals.compare unit Samples.irreflexive () () ≠ 0) as Hvalue by done.
  split; [done|].
  apply (@add_throws_on_value_unequal_to_itself unit Samples.irreflexive
           "p1" () Hvalue).
Defined.

Lemma traversals_rearrange_all_witness :
  lifecycle ∅ Scenario.calls = Some Scenario.current
  ∧ BTreeFieldIndex.ascending Scenario.index ≡ₚ BTreeFieldIndex.all Scenario.index
  ∧ BTreeFieldIndex.descending Scenario.index ≡ₚ BTreeFieldIndex.all Scenario.index.
Proof.
  assert (lifecycle ∅ Scenario.calls = Some Scenario.current) as Hcur
    by (vm_compute; reflexivity).
  split; [done|].
  destruct (traversals_rearrange_all Scenario.calls Scenario.current Hcur)
    as (ix & Hrun & Hperm).
  vm_compute in Hrun. injection Hrun as <-. exact Hperm.
Defined.

Lemma traversals_sorted_by_value_witness :
  lifecycle ∅ Scenario.calls = Some Scenario.current
  ∧ StronglySorted (ascends Scenario.current)
      (BTreeFieldIndex.ascending Scenario.index)
  ∧ StronglySorted (flip (ascends Scenario.current))
      (BTreeFieldIndex.descending Scenario.index).
Proof.
  assert (lifecycle ∅ Scenario.calls = Some Scenario.current) as Hcur
    by (vm_compute; reflexivity).
  split; [done|].
  destruct (traversals_sorted_by_value Scenario.calls Scenario.current Hcur)
    as (ix & Hrun & Hsorted).
  vm_compute in Hrun. injection Hrun as <-. exact Hsorted.
Defined.

Lemma runs_return_well_formed_witness :
  ∃ ix,
    FieldIndex.replay Scenario.added_twice BTreeFieldIndex.new = Returned ix
    ∧ well_formed ix.
Proof. apply (runs_return_well_formed Scenario.added_twice). Defined.

Lemma delete_twice_is_delete_once_witness :
  well_formed Scenario.one_pair
  ∧ ∃ ix',
      BTreeFieldIndex.delete "p1" (LNumber 5) Scenario.one_pair = Returned ix'
      ∧ BTreeFieldIndex.delete "p1" (LNumber 5) ix' = Returned ix'.
Proof.
  split; [apply well_formed_one_pair|].
  apply (delete_twice_is_delete_once "p1" (LNumber 5) Scenario.one_pair).
  apply well_formed_one_pair.
Defined.

Lemma add_twice_is_add_once_witness :
  ∃ ix',
    BTreeFieldIndex.add "p3" (LNumber 5) Scenario.one_pair = Returned ix'
    ∧ BTreeFieldIndex.add "p3" (LNumber 5) ix' = Returned ix'.
Proof. apply (add_twice_is_add_once "p3" (LNumber 5) Scenario.one_pair). Defined.

Lemma equals_after_add_witness :
  ∃ ix',
    BTreeFieldIndex.add "p3" (LNumber 5) Scenario.one_pair = Returned ix'
    ∧ ∀ v,
        BTreeFieldIndex.equals v ix'
        = Some (if (Literals.compare (LNumber 5) v =? 0)%Z
                then JSSet.add "p3" (bucket Scenario.one_pair v)
                else bucket Scenario.one_pair v).
Proof. apply (equals_after_add "p3" (LNumber 5) Scenario.one_pair). Defined.

Lemma equals_after_delete_witness :
  well_formed Scenario.one_pair
  ∧ ∃ ix',
      BTreeFieldIndex.delete "p1" (LNumber 5) Scenario.one_pair = Returned ix'
      ∧ (∀ v,
           BTreeFieldIndex.equals v ix'
           = Some (if (Literals.compare (LNumber 5) v =? 0)%Z
                   then JSSet.delete "p1" (bucket Scenario.one_pair v)
                   else bucket Scenario.one_pair v))
      ∧ ((∃ k, k ∈ (BTreeFieldIndex.values ix').*1 ∧ Literals.compare k (LNumber 5) = 0)
         ↔ JSSet.delete "p1" (bucket Scenario.one_pair (LNumber 5)) ≠ []).
Proof.
  split; [apply well_formed_one_pair|].
  apply (equals_after_delete "p1" (LNumber 5) Scenario.one_pair).
  apply well_formed_one_pair.
Defined.

Lemma equals_after_replay_witness :
  ∃ ix set,
    FieldIndex.replay Scenario.added_twice BTreeFieldIndex.new = Returned ix
    ∧ BTreeFieldIndex.equals (LNumber 5) ix = Some set
    ∧ ("p1" ∈ set ↔
       pair_added_last "p1" (LNumber 5) Scenario.added_twice false = true).
Proof. apply (equals_after_replay Scenario.added_twice "p1" (LNumber 5)). Defined.

Lemma traversals_cover_all_witness :
  ∃ ix,
    FieldIndex.replay Scenario.added_twice BTreeFieldIndex.new = Returned ix
    ∧ ∀ id,
        id ∈ BTreeFieldIndex.all ix →
        id ∈ BTreeFieldIndex.ascending ix ∧ id ∈ BTreeFieldIndex.descending ix.
Proof. apply (traversals_cover_all Scenario.added_twice). Defined.

Lemma IdFieldIndex_traversals_sort_ids_witness :
  NoDup (IdFieldIndex.all Samples.ids ())
  ∧ IdFieldIndex.ascending (Literal := Literal) Samples.ids
    ≡ₚ IdFieldIndex.all Samples.ids ()
  ∧ IdFieldIndex.descending (Literal := Literal) Samples.ids
    ≡ₚ IdFieldIndex.all Samples.ids ()
  ∧ StronglySorted (λ a b, Literals.compare (Literals.ofString a) (Literals.ofString b) <= 0)
      (IdFieldIndex.ascending (Literal := Literal) Samples.ids)
  ∧ StronglySorted (λ a b, Literals.compare (Literals.ofString b) (Literals.ofString a) <= 0)
      (IdFieldIndex.descending (Literal := Literal) Samples.ids).
Proof.
  assert (NoDup (IdFieldIndex.all Samples.ids ())) as Hids.
  { simpl. apply NoDup_cons. split; [|apply NoDup_singleton].
    by intros [=]%list_elem_of_singleton. }
  split; [done|].
  apply (IdFieldIndex_traversals_sort_ids (Literal := Literal) Samples.ids Hids).
Defined.

Lemma store_runs_keep_objects_apart_witness :
  ∃ ix σ,
    (let '(ix0, σ0) := Store.BTreeFieldIndex.new Store.BTreeFieldIndex.initial in
     Store.BTreeFieldIndex.replay Scenario.calls ix0 σ0) = Returned (ix, σ)
    ∧ separated ix σ
    ∧ sorted (Store.BTreeFieldIndex.values ix)
    ∧ FieldIndex.replay Scenario.calls BTreeFieldIndex.new
      = Returned (contents (ix, σ)).
Proof. apply (store_runs_keep_objects_apart Scenario.calls). Defined.

Lemma traversal_returns_a_snapshot_witness :
  separated Samples.index Samples.store
  ∧ let '(result, ix1, σ1) :=
      Store.BTreeFieldIndex.ascending Samples.index Samples.store in
    result ≠ Store.BTreeFieldIndex.all ix1
    ∧ ∃ ix2 σ2,
        Store.BTreeFieldIndex.replay [FieldIndex.Delete "p1" (LNumber 5)] ix1 σ1
        = Returned (ix2, σ2)
        ∧ Store.deref σ2 result
          = BTreeFieldIndex.ascending (contents (Samples.index, Samples.store)).
Proof.
  split; [apply separated_samples|].
  apply (traversal_returns_a_snapshot [FieldIndex.Delete "p1" (LNumber 5)]
           Samples.index Samples.store separated_samples).
Defined.

Lemma equals_returns_live_bucket_witness :
  separated Samples.index Samples.store
  ∧ Store.BTreeFieldIndex.equals (LNumber 5) Samples.index = Some 2%nat
  ∧ 2%nat ≠ Store.BTreeFieldIndex.EMPTY_SET
  ∧ ∃ ix' σ',
      Store.BTreeFieldIndex.add "p2" (LNumber 5) Samples.index Samples.store
      = Returned (ix', σ')
      ∧ Store.BTreeFieldIndex.equals (LNumber 5) ix' = Some 2%nat
      ∧ Store.deref σ' 2 = JSSet.add "p2" (Store.deref Samples.store 2).
Proof.
  assert (Store.BTreeFieldIndex.equals (LNumber 5) Samples.index = Some 2%nat)
    as Heq by reflexivity.
  assert (2%nat ≠ Store.BTreeFieldIndex.EMPTY_SET) as Hr by done.
  split_and!; [apply separated_samples | done..|].
  apply (equals_returns_live_bucket "p2" (LNumber 5) Samples.index Samples.store
           2%nat separated_samples Heq Hr).
Defined.

Lemma first_add_spares_EMPTY_SET_witness :
  separated Samples.index Samples.store
  ∧ Store.BTreeFieldIndex.equals (LNumber 3) Samples.index
    = Some Store.BTreeFieldIndex.EMPTY_SET
  ∧ ∃ ix' σ' r',
      Store.BTreeFieldIndex.add "p2" (LNumber 3) Samples.index Samples.store
      = Returned (ix', σ')
      ∧ Store.BTreeFieldIndex.equals (LNumber 3) ix' = Some r'
      ∧ (length Samples.store ≤ r')%nat
      ∧ Store.deref σ' r' = ["p2"]
      ∧ Store.deref σ' Store.BTreeFieldIndex.EMPTY_SET = [].
Proof.
  assert (Store.BTreeFieldIndex.equals (LNumber 3) Samples.index
          = Some Store.BTreeFieldIndex.EMPTY_SET) as Heq by reflexivity.
  split_and!; [apply separated_samples | done |].
  apply (first_add_spares_EMPTY_SET "p2" (LNumber 3) Samples.index Samples.store
           separated_samples Heq).
Defined.

Lemma delete_empties_bucket_in_place_witness :
  separated Samples.index Samples.store
  ∧ sorted (Store.BTreeFieldIndex.values Samples.index)
  ∧ Store.BTreeFieldIndex.equals (LNumber 5) Samples.index = Some 2%nat
  ∧ 2%nat ≠ Store.BTreeFieldIndex.EMPTY_SET
  ∧ ∃ ix' σ',
      Store.BTreeFieldIndex.delete "p1" (LNumber 5) Samples.index Samples.store
      = Returned (ix', σ')
      ∧ Store.deref σ' 2 = JSSet.delete "p1" (Store.deref Samples.store 2)
      ∧ Store.BTreeFieldIndex.equals (LNumber 5) ix'
        = Some (if bool_decide
                     (JSSet.delete "p1" (Store.deref Samples.store 2) = [])
                then Store.BTreeFieldIndex.EMPTY_SET else 2%nat)
      ∧ (JSSet.delete "p1" (Store.deref Samples.store 2) = [] →
         2%nat ∉ (Store.BTreeFieldIndex.values ix').*2)
      ∧ Store.BTreeFieldIndex.reusableSortArray ix'
        = Store.BTreeFieldIndex.reusableSortArray Samples.index.
Proof.
  assert (sorted (Store.BTreeFieldIndex.values Samples.index)) as Hsorted
    by (simpl; split; [constructor | done]).
  assert (Store.BTreeFieldIndex.equals (LNumber 5) Samples.index = Some 2%nat)
    as Heq by reflexivity.
  assert (2%nat ≠ Store.BTreeFieldIndex.EMPTY_SET) as Hr by done.
  split_and!; [apply separated_samples | done..|].
  apply (delete_empties_bucket_in_place "p1" (LNumber 5) Samples.index
           Samples.store 2%nat separated_samples Hsorted Heq Hr).
Defined.

Lemma saved_script_roots_are_restored_witness :
  NoDup (DatacorePlugin.scriptRoots (DatacorePlugin.settings Samples.plugin))
  ∧ ∃ restored,
      DatacorePlugin.onload_settings ∅
        (Some (DatacorePlugin.data
                 (DatacorePlugin.addScriptRootsToSettings ["lib"] Samples.plugin)))
      = Some restored
      ∧ DatacorePlugin.scriptRoots restored
        = DatacorePlugin.scriptRoots
            (DatacorePlugin.settings
               (DatacorePlugin.addScriptRootsToSettings ["lib"] Samples.plugin)).
Proof.
  assert (NoDup (DatacorePlugin.scriptRoots
                   (DatacorePlugin.settings Samples.plugin))) as Hroots
    by apply NoDup_singleton.
  split; [done|].
  destruct (saved_script_roots_are_restored ∅ ["lib"] Samples.plugin Hroots)
    as [Hadd _].
  exact Hadd.
Defined.

Lemma SetFieldIndex_and_BTreeFieldIndex_agree_on_all_witness :
  ∃ (set_index : SetFieldIndex.t) (tree_index : BTreeFieldIndex.t Literal),
    FieldIndex.replay Scenario.calls SetFieldIndex.new = Returned set_index
    ∧ FieldIndex.replay Scenario.calls BTreeFieldIndex.new = Returned tree_index
    ∧ SetFieldIndex.all set_index = BTreeFieldIndex.all tree_index.
Proof.
  apply (SetFieldIndex_and_BTreeFieldIndex_agree_on_all Scenario.calls).
Defined.

End Further_scenarios.
